(** * The maze-chase engine of [pacman.py]: model and verified properties

    The Python program is embedded shallowly.  Classes become modules
    holding a record [t] and the methods as functions over it; mutation is
    written as explicit state passing; a raised exception is a value of
    [Result].  Python [int]s are [Z].

    Python [float]s are modelled by exact rationals [Q].  Every constant of
    the program (cell size 32, offsets 48 and 120, tolerance 3, the speeds)
    is a small dyadic number, and on the cells of a maze the binary64
    operations of the source are exact, so the two agree there; rounding,
    infinities and NaN are outside the model.  Where a property depends
    on exact coordinates or on the absence of overflow, it is stated for
    cells within [cell_bound] and parameters within [parameter_bound];
    where rounding changes what the program does, the binary64 arithmetic
    is given beside the rational one ([Binary64]).  The transcendental
    functions of [math] ([pi], [sin], [cos], [sqrt]) are an interface,
    [Libm]. *)

From Stdlib Require Import ZArith QArith Qround Qabs Lqa Lia Bool Ascii String.
From Stdlib Require PrimFloat.
From stdpp Require Import gmap strings list fin_maps.

Local Open Scope Z_scope.

(* ===================================================================== *)
(** * Python run-time: exceptions, indexing, numbers                      *)
(* ===================================================================== *)

Inductive exn : Set := IndexError | KeyError | ValueError.

Inductive Result (A : Type) : Type :=
| Ok (a : A)
| Raise (e : exn).
Arguments Ok {A} a.
Arguments Raise {A} e.

#[export] Instance Result_ret : MRet Result := @Ok.
#[export] Instance Result_bind : MBind Result :=
  fun A B f r => match r with Ok a => f a | Raise e => Raise e end.

Definition returns {A} (r : Result A) : Prop := exists a, r = Ok a.

(** [seq[i]] for an [int] index: a negative index counts from the end, an
    index out of range raises [IndexError]. *)
Definition getitem {A} (seq : list A) (i : Z) : Result A :=
  let n := Z.of_nat (length seq) in
  let j := if i <? 0 then i + n else i in
  if (0 <=? j) && (j <? n)
  then match nth_error seq (Z.to_nat j) with
       | Some a => Ok a
       | None => Raise IndexError
       end
  else Raise IndexError.

Definition str_getitem (s : string) (i : Z) : Result ascii :=
  getitem (list_ascii_of_string s) i.

Definition len {A} (seq : list A) : Z := Z.of_nat (length seq).
Definition str_len (s : string) : Z := Z.of_nat (String.length s).

(** [int(x)] of a float: truncation toward zero. *)
Definition int (x : Q) : Z := Z.quot (Qnum x) (Z.pos (Qden x)).

(** [x % m] on floats, for a divisor [m > 0]: in exact arithmetic the
    result lies in [0, m).  (In binary64 the result for a negative [x]
    of tiny magnitude rounds to [m] itself; the properties that rest on
    the upper bound are stated for [x >= 0].) *)
Definition fmod (x m : Q) : Q := (x - m * inject_Z (Qfloor (x / m)))%Q.

Definition Qlt_bool (a b : Q) : bool := negb (Qle_bool b a).

(** The functions of the [math] module the program calls. *)
Class Libm : Type := {
  pi : Q;
  sin : Q -> Q;
  cos : Q -> Q;
  sqrt : Q -> Q
}.

(** Binary64 holds every multiple of 1/2 of magnitude below 2^52 exactly.
    The coordinates the program computes from a grid cell (c, r) are such
    numbers while |c| and |r| stay within [cell_bound]; there the
    arithmetic of the model is the arithmetic of the source. *)
Definition cell_bound : Z := 2 ^ 40.

Definition exact_cell (cell : Z * Z) : Prop :=
  Z.abs (fst cell) <= cell_bound /\ Z.abs (snd cell) <= cell_bound.

(** A time step, duration, frequency or volume of magnitude within
    [parameter_bound] keeps every sum and product the program forms from
    it finite in binary64. *)
Definition parameter_bound : Q := inject_Z (2 ^ 20).

(* ===================================================================== *)
(** * 1. Engine core and configuration                                    *)
(* ===================================================================== *)

Module Settings.
Definition CELL_SIZE : Z := 32.
Definition MAZE_OFFSET_X : Z := 48.
Definition MAZE_OFFSET_Y : Z := 120.
Definition COLOR_YELLOW : Z * Z * Z := (255, 255, 0).
Definition COLOR_RED : Z * Z * Z := (255, 0, 0).
Definition PLAYER_SPEED : Q := 160.
Definition GHOST_SPEED : Q := 140.
Definition POWER_PELLET_DURATION : Q := 8.
Definition PLAYER_INVULNERABILITY_DURATION : Q := 3.
End Settings.

Inductive GameState : Set :=
  MAIN_MENU | PLAYING | PAUSED | GAME_OVER | LEVEL_TRANSITION.

Module Direction.
Inductive t : Set := NONE | UP | DOWN | LEFT | RIGHT.

Definition value (d : t) : Z * Z :=
  match d with
  | NONE => (0, 0)
  | UP => (0, -1)
  | DOWN => (0, 1)
  | LEFT => (-1, 0)
  | RIGHT => (1, 0)
  end.

(** [Direction(v)]: the member whose value is [v], else [ValueError]. *)
Definition of_value (v : Z * Z) : Result t :=
  match v with
  | (0, 0) => Ok NONE
  | (0, -1) => Ok UP
  | (0, 1) => Ok DOWN
  | (-1, 0) => Ok LEFT
  | (1, 0) => Ok RIGHT
  | _ => Raise ValueError
  end.

(** The reverse of a direction: both components of its value negated. *)
Definition opposite (d : t) : t :=
  match d with
  | NONE => NONE
  | UP => DOWN
  | DOWN => UP
  | LEFT => RIGHT
  | RIGHT => LEFT
  end.

Definition eqb (a b : t) : bool :=
  match a, b with
  | NONE, NONE | UP, UP | DOWN, DOWN | LEFT, LEFT | RIGHT, RIGHT => true
  | _, _ => false
  end.
End Direction.

Module Vector2.
Record t : Set := make { x : Q; y : Q }.

Definition add (a b : t) : t := make (x a + x b) (y a + y b).
Definition sub (a b : t) : t := make (x a - x b) (y a - y b).
Definition mul (a : t) (scalar : Q) : t := make (x a * scalar) (y a * scalar).
Definition length `{Libm} (a : t) : Q := sqrt (x a ^ 2 + y a ^ 2).
Definition distance_to `{Libm} (a b : t) : Q := length (sub a b).
Definition to_tuple_int (a : t) : Z * Z := (int (x a), int (y a)).
End Vector2.

(** The global generator of the [random] module: the successive outcomes
    of [random()], each in [0, 1), the raw integers behind [choice], and
    the number of draws made so far. *)
Module random.
Record state : Type := { floats : nat -> Q; ints : nat -> nat; cursor : nat }.

Definition advance (s : state) : state :=
  {| floats := floats s; ints := ints s; cursor := S (cursor s) |}.

Definition random (s : state) : Q * state := (floats s (cursor s), advance s).

Definition uniform (a b : Q) (s : state) : Q * state :=
  let '(u, s') := random s in ((a + (b - a) * u)%Q, s').

(** [choice(seq)] is [seq[randbelow(len(seq))]]; an empty [seq] raises. *)
Definition randbelow (n : nat) (s : state) : nat := (ints s (cursor s) mod n)%nat.

Definition choice {A} (seq : list A) (s : state) : Result (A * state) :=
  match nth_error seq (randbelow (length seq) s) with
  | Some a => Ok (a, advance s)
  | None => Raise IndexError
  end.
End random.

(* ===================================================================== *)
(** * 2. Utility and manager classes                                      *)
(* ===================================================================== *)

(** A synthesized [pygame.mixer.Sound]: its sample buffer and volume. *)
Module Sound.
Record t : Type := { samples : list Z; volume : Q }.
End Sound.

Module SoundManager.
Record t : Type := { sounds : gmap string Sound.t; enabled : bool }.

(** The playback device: the sounds started so far, with their loop
    counts. *)
Definition mixer : Type := list (Sound.t * Z).

Definition play (self : t) (sound_name : string) (loops : Z) (out : mixer)
  : Result (t * mixer) :=
  if enabled self && bool_decide (is_Some (sounds self !! sound_name))
  then match sounds self !! sound_name with
       | Some snd => Ok (self, out ++ [(snd, loops)])
       | None => Raise KeyError
       end
  else Ok (self, out).
End SoundManager.

(** Key codes of [pygame] used by the program. *)
Module pygame.
Definition K_a : Z := 97.
Definition K_d : Z := 100.
Definition K_s : Z := 115.
Definition K_w : Z := 119.
Definition K_RIGHT : Z := 1073741903.
Definition K_LEFT : Z := 1073741904.
Definition K_DOWN : Z := 1073741905.
Definition K_UP : Z := 1073741906.
Definition K_RETURN : Z := 13.

Inductive event : Set := KEYDOWN (key : Z) | KEYUP (key : Z) | OTHER.
End pygame.

Module InputManager.
Record t : Type := { keys_pressed : gset Z; keys_just_pressed : gset Z }.

Definition handle (self : t) (ev : pygame.event) : t :=
  match ev with
  | pygame.KEYDOWN key =>
      {| keys_pressed := {[key]} ∪ keys_pressed self;
         keys_just_pressed := {[key]} ∪ keys_just_pressed self |}
  | pygame.KEYUP key =>
      if bool_decide (key ∈ keys_pressed self)
      then {| keys_pressed := keys_pressed self ∖ {[key]};
              keys_just_pressed := keys_just_pressed self |}
      else self
  | pygame.OTHER => self
  end.

Definition update (self : t) (events : list pygame.event) : t :=
  fold_left handle events
    {| keys_pressed := keys_pressed self; keys_just_pressed := ∅ |}.

Definition is_key_down (self : t) (key : Z) : bool :=
  bool_decide (key ∈ keys_pressed self).
Definition was_key_just_pressed (self : t) (key : Z) : bool :=
  bool_decide (key ∈ keys_just_pressed self).
End InputManager.

Module ParticleSystem.
(** One particle, the list [[pos, vel, lifetime, max_lifetime, color]]. *)
Record particle : Type := {
  pos : Vector2.t;
  vel : Vector2.t;
  lifetime : Q;
  max_lifetime : Q;
  color : Z * Z * Z
}.

Record t : Type := { particles : list particle }.

Definition init : t := {| particles := [] |}.

Fixpoint emit_loop `{Libm} (n : nat) (origin : Vector2.t) (col : Z * Z * Z)
    (speed_range lifetime_range : Q * Q) (acc : list particle)
    (rng : random.state) : list particle * random.state :=
  match n with
  | O => (acc, rng)
  | S n' =>
      let '(angle, rng) := random.uniform 0 (2 * pi) rng in
      let '(speed, rng) := random.uniform (fst speed_range) (snd speed_range) rng in
      let v := Vector2.make (cos angle * speed) (sin angle * speed) in
      let '(life, rng) :=
        random.uniform (fst lifetime_range) (snd lifetime_range) rng in
      emit_loop n' origin col speed_range lifetime_range
        (acc ++ [{| pos := origin; vel := v; lifetime := life;
                    max_lifetime := life; color := col |}]) rng
  end.

Definition emit `{Libm} (self : t) (origin : Vector2.t) (col : Z * Z * Z)
    (count : Z) (speed_range lifetime_range : Q * Q) (rng : random.state)
  : t * random.state :=
  let '(ps, rng) :=
    emit_loop (Z.to_nat count) origin col speed_range lifetime_range
      (particles self) rng in
  ({| particles := ps |}, rng).

(** The body of the [for] loop of [update], in exact arithmetic; see
    [Binary64.step] for the rounding one. *)
Definition step (dt : Q) (p : particle) : particle :=
  {| pos := Vector2.add (pos p) (Vector2.mul (vel p) dt);
     vel := Vector2.make (Vector2.x (vel p)) (Vector2.y (vel p) + 100 * dt);
     lifetime := lifetime p - dt;
     max_lifetime := max_lifetime p;
     color := color p |}.

Definition alive (p : particle) : bool := Qlt_bool 0 (lifetime p).

Definition update (self : t) (dt : Q) : t :=
  {| particles := List.filter alive (List.map (step dt) (particles self)) |}.
End ParticleSystem.

(** [ParticleSystem.update] once more, on IEEE binary64 numbers as the
    source computes it: the same loop body and the same test, with the
    rounding operations of the hardware instead of exact ones. *)
Module Binary64.
Import PrimFloat.

Record particle : Set := {
  pos : float * float;
  vel : float * float;
  lifetime : float;
  max_lifetime : float;
  color : Z * Z * Z
}.

Definition step (dt : float) (p : particle) : particle :=
  {| pos := (fst (pos p) + fst (vel p) * dt, snd (pos p) + snd (vel p) * dt)%float;
     vel := (fst (vel p), snd (vel p) + 100 * dt)%float;
     lifetime := (lifetime p - dt)%float;
     max_lifetime := max_lifetime p;
     color := color p |}.

Definition alive (p : particle) : bool := (0 <? lifetime p)%float.

Definition update (particles : list particle) (dt : float) : list particle :=
  List.filter alive (List.map (step dt) particles).
End Binary64.


(* ===================================================================== *)
(** * 3. Game objects and entities                                        *)
(* ===================================================================== *)

Module Pellet.
Record t : Type := {
  position : Vector2.t;
  is_power : bool;
  points : Z;
  eaten : bool;
  animation_timer : Q
}.

Definition init `{Libm} (pos : Vector2.t) (power : bool) (rng : random.state)
  : t * random.state :=
  let '(timer, rng) := random.uniform 0 (2 * pi) rng in
  ({| position := pos; is_power := power;
      points := if power then 50 else 10;
      eaten := false; animation_timer := timer |}, rng).

Definition set_eaten (p : t) : t :=
  {| position := position p; is_power := is_power p; points := points p;
     eaten := true; animation_timer := animation_timer p |}.
End Pellet.

(** [d[key] = v] on a dictionary kept in insertion order. *)
Fixpoint dict_set {V} (d : list (string * V)) (key : string) (v : V)
  : list (string * V) :=
  match d with
  | [] => [(key, v)]
  | (k, w) :: rest =>
      if String.eqb k key then (k, v) :: rest else (k, w) :: dict_set rest key v
  end.

Module Maze.
Definition LAYOUT : list string := [
  "11111111111111111111111";
  "1P..........1..........P1";
  "1.111.11111.1.11111.111.1";
  "1.111.11111.1.11111.111.1";
  "1.......................1";
  "1.111.1.1111111.1.111.1";
  "1.....1...1...1...1.....1";
  "11111.111.1.111.11111";
  "    1.1   G   1.1    ";
  "11111.1 11111 1.11111";
  "1.......1   1.......1";
  "11111.1 11S11 1.11111";
  "    1.1       1.1    ";
  "11111.1 11111 1.11111";
  "1...........1...........1";
  "1.111.11111.1.11111.111.1";
  "1...P...1...1...1...P...1";
  "111.111.1.11111.1.111.111";
  "1.......1...1...1.......1";
  "1.111111111.1111111111.1";
  "1P.....................P1";
  "11111111111111111111111"
]%string.

(** The maze.  Its [particle_system] attribute is a reference to the
    scene's particle system, which the scene also holds: the methods that
    use it take that object and return it. *)
Record t : Type := {
  pellets : list Pellet.t;
  player_start_pos : Vector2.t;
  ghost_start_positions : list (string * Vector2.t);
  ghost_house_exit : Vector2.t;
  layout_str : list string
}.

(** The square of the cell in column [c] and row [r], as [_pre_render_maze]
    draws it: left, top, width, height. *)
Definition cell_rect (c r : Z) : Z * Z * Z * Z :=
  (Settings.MAZE_OFFSET_X + c * Settings.CELL_SIZE,
   Settings.MAZE_OFFSET_Y + r * Settings.CELL_SIZE,
   Settings.CELL_SIZE, Settings.CELL_SIZE).

Definition grid_to_world (grid_pos : Z * Z) : Vector2.t :=
  Vector2.make
    (inject_Z (Settings.MAZE_OFFSET_X + fst grid_pos * Settings.CELL_SIZE)
       + inject_Z Settings.CELL_SIZE / 2)
    (inject_Z (Settings.MAZE_OFFSET_Y + snd grid_pos * Settings.CELL_SIZE)
       + inject_Z Settings.CELL_SIZE / 2).

Definition world_to_grid (world_pos : Vector2.t) : Z * Z :=
  let c := int ((Vector2.x world_pos - inject_Z Settings.MAZE_OFFSET_X)
                / inject_Z Settings.CELL_SIZE) in
  let r := int ((Vector2.y world_pos - inject_Z Settings.MAZE_OFFSET_Y)
                / inject_Z Settings.CELL_SIZE) in
  (c, r).

Definition all_uneaten (l : list Pellet.t) : Prop :=
  Forall (fun p => Pellet.eaten p = false) l.

(** The state of [_parse_layout] while it scans the layout. *)
Record parse_state : Type := {
  ps_pellets : list Pellet.t;
  ps_player_start : option Vector2.t;
  ps_ghost_starts : list (string * Vector2.t);
  ps_ghost_spawn_index : Z;
  ps_rng : random.state
}.

Definition ghost_names : list string :=
  ["blinky"; "pinky"; "inky"; "clyde"]%string.

Definition parse_char `{Libm} (r c : Z) (char : ascii) (st : parse_state)
  : parse_state :=
  let pos := Vector2.make
    (inject_Z (Settings.MAZE_OFFSET_X + c * Settings.CELL_SIZE)
       + inject_Z Settings.CELL_SIZE / 2)
    (inject_Z (Settings.MAZE_OFFSET_Y + r * Settings.CELL_SIZE)
       + inject_Z Settings.CELL_SIZE / 2) in
  if Ascii.eqb char "." then
    let '(p, rng) := Pellet.init pos false (ps_rng st) in
    {| ps_pellets := ps_pellets st ++ [p]; ps_player_start := ps_player_start st;
       ps_ghost_starts := ps_ghost_starts st;
       ps_ghost_spawn_index := ps_ghost_spawn_index st; ps_rng := rng |}
  else if Ascii.eqb char "P" then
    let '(p, rng) := Pellet.init pos true (ps_rng st) in
    {| ps_pellets := ps_pellets st ++ [p]; ps_player_start := ps_player_start st;
       ps_ghost_starts := ps_ghost_starts st;
       ps_ghost_spawn_index := ps_ghost_spawn_index st; ps_rng := rng |}
  else if Ascii.eqb char "S" then
    {| ps_pellets := ps_pellets st; ps_player_start := Some pos;
       ps_ghost_starts := ps_ghost_starts st;
       ps_ghost_spawn_index := ps_ghost_spawn_index st; ps_rng := ps_rng st |}
  else if Ascii.eqb char "G" then
    let ghost_name :=
      nth (Z.to_nat (ps_ghost_spawn_index st mod 4)) ghost_names ""%string in
    {| ps_pellets := ps_pellets st; ps_player_start := ps_player_start st;
       ps_ghost_starts := dict_set (ps_ghost_starts st) ghost_name pos;
       ps_ghost_spawn_index := ps_ghost_spawn_index st + 1;
       ps_rng := ps_rng st |}
  else st.

Fixpoint parse_row `{Libm} (r c : Z) (row : list ascii) (st : parse_state)
  : parse_state :=
  match row with
  | [] => st
  | char :: rest => parse_row r (c + 1) rest (parse_char r c char st)
  end.

Fixpoint parse_rows `{Libm} (r : Z) (rows : list string) (st : parse_state)
  : parse_state :=
  match rows with
  | [] => st
  | row :: rest =>
      parse_rows (r + 1) rest (parse_row r 0 (list_ascii_of_string row) st)
  end.

(** [__init__], with [_parse_layout] inlined; the pre-rendered background
    surface belongs to the renderer and is left out. *)
Definition init `{Libm} (rng : random.state) : t * random.state :=
  let st := parse_rows 0 LAYOUT
    {| ps_pellets := []; ps_player_start := None; ps_ghost_starts := [];
       ps_ghost_spawn_index := 0; ps_rng := rng |} in
  ({| pellets := ps_pellets st;
      player_start_pos :=
        match ps_player_start st with
        | Some p => p
        | None => grid_to_world (11, 16)
        end;
      ghost_start_positions := ps_ghost_starts st;
      ghost_house_exit := grid_to_world (11, 8);
      layout_str := LAYOUT |}, ps_rng st).

Definition is_wall (self : t) (grid_pos : Z * Z) : Result bool :=
  let r := snd grid_pos in
  let c := fst grid_pos in
  if (0 <=? r) && (r <? len (layout_str self)) then
    row0 ← getitem (layout_str self) 0;
    if (0 <=? c) && (c <? str_len row0) then
      row ← getitem (layout_str self) r;
      char ← str_getitem row c;
      Ok (negb (negb (Ascii.eqb char "1")))
    else Ok true
  else Ok true.

(** The test of [check_pellet_collision] on one pellet: not yet eaten and
    closer to the player than half a cell. *)
Definition hits `{Libm} (player_pos : Vector2.t) (pellet : Pellet.t) : bool :=
  negb (Pellet.eaten pellet)
  && Qlt_bool (Vector2.distance_to player_pos (Pellet.position pellet))
              (inject_Z Settings.CELL_SIZE / 2).

(** The loop of [check_pellet_collision] over the pellets; [player] is
    read only through [player.position]. *)
Fixpoint collide `{Libm} (player_pos : Vector2.t) (todo : list Pellet.t)
    (score : Z) (power_pellet_eaten : bool)
    (ps : ParticleSystem.t) (rng : random.state)
  : list Pellet.t * Z * bool * ParticleSystem.t * random.state :=
  match todo with
  | [] => ([], score, power_pellet_eaten, ps, rng)
  | pellet :: rest =>
      if hits player_pos pellet
      then
        let '(ps, rng) :=
          ParticleSystem.emit ps (Pellet.position pellet) Settings.COLOR_YELLOW
            5 (20, 80)%Q (2 # 10, 5 # 10)%Q rng in
        let '(rest', score', power', ps, rng) :=
          collide player_pos rest (score + Pellet.points pellet)
            (if Pellet.is_power pellet then true else power_pellet_eaten)
            ps rng in
        (Pellet.set_eaten pellet :: rest', score', power', ps, rng)
      else
        let '(rest', score', power', ps, rng) :=
          collide player_pos rest score power_pellet_eaten ps rng in
        (pellet :: rest', score', power', ps, rng)
  end.

(** The pellets as the loop leaves them. *)
Definition collided_pellets
    (r : list Pellet.t * Z * bool * ParticleSystem.t * random.state)
  : list Pellet.t := fst (fst (fst (fst r))).

Definition set_pellets (self : t) (l : list Pellet.t) : t :=
  {| pellets := l; player_start_pos := player_start_pos self;
     ghost_start_positions := ghost_start_positions self;
     ghost_house_exit := ghost_house_exit self;
     layout_str := layout_str self |}.

Definition check_pellet_collision `{Libm} (self : t) (player_pos : Vector2.t)
    (ps : ParticleSystem.t) (rng : random.state)
  : t * (Z * bool) * ParticleSystem.t * random.state :=
  let '(l, score, power_pellet_eaten, ps, rng) :=
    collide player_pos (pellets self) 0 false ps rng in
  (set_pellets self l, (score, power_pellet_eaten), ps, rng).
End Maze.


Module Entity.
Record t : Type := {
  position : Vector2.t;
  start_pos : Vector2.t;
  velocity : Vector2.t;
  direction : Direction.t;
  speed : Q
}.

Definition init (pos : Vector2.t) (spd : Q) (dir : Direction.t) : t :=
  {| position := pos; start_pos := pos; velocity := Vector2.make 0 0;
     direction := dir; speed := spd |}.

Definition get_grid_pos (self : t) : Z * Z :=
  (int ((Vector2.x (position self) - inject_Z Settings.MAZE_OFFSET_X)
        / inject_Z Settings.CELL_SIZE),
   int ((Vector2.y (position self) - inject_Z Settings.MAZE_OFFSET_Y)
        / inject_Z Settings.CELL_SIZE)).

Definition is_centered (self : t) : bool :=
  let offset_x :=
    fmod (Vector2.x (position self) - inject_Z Settings.MAZE_OFFSET_X)
         (inject_Z Settings.CELL_SIZE) in
  let offset_y :=
    fmod (Vector2.y (position self) - inject_Z Settings.MAZE_OFFSET_Y)
         (inject_Z Settings.CELL_SIZE) in
  Qlt_bool (Qabs (offset_x - inject_Z Settings.CELL_SIZE / 2)) 3
  && Qlt_bool (Qabs (offset_y - inject_Z Settings.CELL_SIZE / 2)) 3.

Definition set_direction (self : t) (d : Direction.t) : t :=
  {| position := position self; start_pos := start_pos self;
     velocity := velocity self; direction := d; speed := speed self |}.

Definition set_velocity (self : t) (v : Vector2.t) : t :=
  {| position := position self; start_pos := start_pos self;
     velocity := v; direction := direction self; speed := speed self |}.

Definition set_position (self : t) (p : Vector2.t) : t :=
  {| position := p; start_pos := start_pos self;
     velocity := velocity self; direction := direction self;
     speed := speed self |}.

(** [self.position += self.velocity * dt] *)
Definition integrate (self : t) (dt : Q) : t :=
  set_position self (Vector2.add (position self) (Vector2.mul (velocity self) dt)).

(** The unit vector of direction [d] times the speed [spd]. *)
Definition cruise (d : Direction.t) (spd : Q) : Vector2.t :=
  Vector2.make (inject_Z (fst (Direction.value d)) * spd)
               (inject_Z (snd (Direction.value d)) * spd).

(** The cell next to [cell] in direction [d]. *)
Definition ahead (cell : Z * Z) (d : Direction.t) : Z * Z :=
  (fst cell + fst (Direction.value d), snd cell + snd (Direction.value d)).
End Entity.

Module Player.
Record t : Type := {
  base : Entity.t;
  next_direction : Direction.t;
  lives : Z;
  is_invulnerable : bool;
  invulnerable_timer : Q;
  mouth_angle : Q;
  is_mouth_opening : bool
}.

Definition init (pos : Vector2.t) : t :=
  {| base := Entity.init pos Settings.PLAYER_SPEED Direction.LEFT;
     next_direction := Direction.LEFT;
     lives := 3;
     is_invulnerable := false;
     invulnerable_timer := 0;
     mouth_angle := 0;
     is_mouth_opening := true |}.

Definition set_base (self : t) (e : Entity.t) : t :=
  {| base := e; next_direction := next_direction self; lives := lives self;
     is_invulnerable := is_invulnerable self;
     invulnerable_timer := invulnerable_timer self;
     mouth_angle := mouth_angle self;
     is_mouth_opening := is_mouth_opening self |}.

Definition set_next_direction (self : t) (d : Direction.t) : t :=
  {| base := base self; next_direction := d; lives := lives self;
     is_invulnerable := is_invulnerable self;
     invulnerable_timer := invulnerable_timer self;
     mouth_angle := mouth_angle self;
     is_mouth_opening := is_mouth_opening self |}.

Definition set_mouth_angle (self : t) (a : Q) : t :=
  {| base := base self; next_direction := next_direction self;
     lives := lives self; is_invulnerable := is_invulnerable self;
     invulnerable_timer := invulnerable_timer self;
     mouth_angle := a;
     is_mouth_opening := is_mouth_opening self |}.

Definition set_invulnerable (self : t) (flag : bool) (timer : Q) : t :=
  {| base := base self; next_direction := next_direction self;
     lives := lives self; is_invulnerable := flag;
     invulnerable_timer := timer;
     mouth_angle := mouth_angle self;
     is_mouth_opening := is_mouth_opening self |}.

Definition _handle_input (self : t) (input_manager : InputManager.t) : t :=
  let down := InputManager.is_key_down input_manager in
  if down pygame.K_LEFT || down pygame.K_a
  then set_next_direction self Direction.LEFT
  else if down pygame.K_RIGHT || down pygame.K_d
  then set_next_direction self Direction.RIGHT
  else if down pygame.K_UP || down pygame.K_w
  then set_next_direction self Direction.UP
  else if down pygame.K_DOWN || down pygame.K_s
  then set_next_direction self Direction.DOWN
  else self.

(** The first [if] of [_move]: while centered, the pending direction is
    committed when the cell it leads to is not a wall. *)
Definition commit (self : t) (maze : Maze.t) : Result t :=
  if Entity.is_centered (base self) then
    wall ← Maze.is_wall maze
             (Entity.ahead (Entity.get_grid_pos (base self)) (next_direction self));
    if negb wall
    then Ok (set_base self (Entity.set_direction (base self) (next_direction self)))
    else Ok self
  else Ok self.

Definition _move (self : t) (dt : Q) (maze : Maze.t) : Result t :=
  self ← commit self maze;
  let e := base self in
  let '(dx, dy) := Direction.value (Entity.direction e) in
  wall ← Maze.is_wall maze (Entity.ahead (Entity.get_grid_pos e) (Entity.direction e));
  let e :=
    if wall && Entity.is_centered e
    then Entity.set_velocity e (Vector2.make 0 0)
    else Entity.set_velocity e
           (Vector2.make (inject_Z dx * Entity.speed e) (inject_Z dy * Entity.speed e)) in
  Ok (set_base self (Entity.integrate e dt)).

Definition _animate_mouth `{Libm} (self : t) (dt : Q) : t :=
  if Qlt_bool 0 (Vector2.length (Entity.velocity (base self)))
  then let rate := (450 * dt)%Q in
       set_mouth_angle self (fmod (mouth_angle self + rate) 90)
  else set_mouth_angle self 0.

Definition update `{Libm} (self : t) (dt : Q) (input_manager : InputManager.t)
    (maze : Maze.t) : Result t :=
  let self := _handle_input self input_manager in
  self ← _move self dt maze;
  let self := _animate_mouth self dt in
  if is_invulnerable self then
    let timer := (invulnerable_timer self - dt)%Q in
    if Qle_bool timer 0
    then Ok (set_invulnerable self false timer)
    else Ok (set_invulnerable self true timer)
  else Ok self.

Definition lose_life (self : t) : t :=
  {| base := base self; next_direction := next_direction self;
     lives := lives self - 1; is_invulnerable := true;
     invulnerable_timer := Settings.PLAYER_INVULNERABILITY_DURATION;
     mouth_angle := mouth_angle self;
     is_mouth_opening := is_mouth_opening self |}.

Definition reset (self : t) : t :=
  let e := base self in
  set_next_direction
    (set_base self
       (Entity.set_direction (Entity.set_position e (Entity.start_pos e))
          Direction.LEFT))
    Direction.LEFT.
End Player.

Module Ghost.
Record t : Type := {
  base : Entity.t;
  color : Z * Z * Z;
  name : string
}.

Definition init (pos : Vector2.t) (col : Z * Z * Z) (nm : string) : t :=
  {| base := Entity.init pos Settings.GHOST_SPEED Direction.UP;
     color := col; name := nm |}.

Definition set_base (self : t) (e : Entity.t) : t :=
  {| base := e; color := color self; name := name self |}.

Definition all_dirs : list Direction.t :=
  [Direction.UP; Direction.DOWN; Direction.LEFT; Direction.RIGHT].

(** The [for d in ...] loop collecting the non-wall neighbour directions. *)
Fixpoint neighbours (maze : Maze.t) (cell : Z * Z) (ds : list Direction.t)
    (possible_dirs : list Direction.t) : Result (list Direction.t) :=
  match ds with
  | [] => Ok possible_dirs
  | d :: rest =>
      wall ← Maze.is_wall maze (Entity.ahead cell d);
      neighbours maze cell rest
        (if negb wall then possible_dirs ++ [d] else possible_dirs)
  end.

Definition contains (d : Direction.t) (l : list Direction.t) : bool :=
  existsb (Direction.eqb d) l.

(** [l.remove(d)] for a [d] known to be in [l]: drops its first occurrence. *)
Fixpoint remove (d : Direction.t) (l : list Direction.t) : list Direction.t :=
  match l with
  | [] => []
  | a :: rest => if Direction.eqb a d then rest else a :: remove d rest
  end.

(** The candidate directions of a centered ghost: the non-wall neighbours,
    minus the reverse of the heading when the [if] of the source says so. *)
Definition candidates (self : t) (maze : Maze.t) : Result (list Direction.t) :=
  possible_dirs ← neighbours maze (Entity.get_grid_pos (base self)) all_dirs [];
  if contains (Entity.direction (base self)) possible_dirs
     && (1 <? len possible_dirs)
  then
    let '(dx, dy) := Direction.value (Entity.direction (base self)) in
    rev_dir ← Direction.of_value (- dx, - dy);
    if contains rev_dir possible_dirs
    then Ok (remove rev_dir possible_dirs)
    else Ok possible_dirs
  else Ok possible_dirs.

(** The [if self.is_centered()] block of [update]: the choice of a new
    direction. *)
Definition turn (self : t) (maze : Maze.t) (rng : random.state)
  : Result (t * random.state) :=
  if Entity.is_centered (base self) then
    possible_dirs ← candidates self maze;
    match possible_dirs with
    | [] => Ok (self, rng)
    | _ :: _ =>
        '(d, rng) ← random.choice possible_dirs rng;
        Ok (set_base self (Entity.set_direction (base self) d), rng)
    end
  else Ok (self, rng).

Definition update (self : t) (dt : Q) (maze : Maze.t) (rng : random.state)
  : Result (t * random.state) :=
  '(self, rng) ← turn self maze rng;
  let e := base self in
  let '(dx, dy) := Direction.value (Entity.direction e) in
  let e := Entity.set_velocity e
             (Vector2.make (inject_Z dx * Entity.speed e)
                           (inject_Z dy * Entity.speed e)) in
  Ok (set_base self (Entity.integrate e dt), rng).
End Ghost.


(* ===================================================================== *)
(** * 4. Scene management                                                 *)
(* ===================================================================== *)

Module MainMenuScene.
Record t : Type := { options : list string; selected_option : Z }.

Definition init (sm : SoundManager.t) (out : SoundManager.mixer)
  : Result (t * SoundManager.t * SoundManager.mixer) :=
  '(sm, out) ← SoundManager.play sm "intro" 0 out;
  Ok ({| options := ["Start Game"; "Quit"]%string; selected_option := 0 |}, sm, out).
End MainMenuScene.

Module GameScene.
Record t : Type := {
  particle_system : ParticleSystem.t;
  maze : Maze.t;
  player : Player.t;
  ghosts : list Ghost.t;
  score : Z;
  is_power_pellet_active : bool;
  power_pellet_timer : Q
}.

Definition init `{Libm} (rng : random.state) : t * random.state :=
  let particles := ParticleSystem.init in
  let '(mz, rng) := Maze.init rng in
  ({| particle_system := particles;
      maze := mz;
      player := Player.init (Maze.player_start_pos mz);
      ghosts := List.map (fun '(nm, pos) => Ghost.init pos Settings.COLOR_RED nm)
                  (Maze.ghost_start_positions mz);
      score := 0;
      is_power_pellet_active := false;
      power_pellet_timer := 0 |}, rng).

Fixpoint update_ghosts (gs : list Ghost.t) (dt : Q) (mz : Maze.t)
    (rng : random.state) : Result (list Ghost.t * random.state) :=
  match gs with
  | [] => Ok ([], rng)
  | g :: rest =>
      '(g, rng) ← Ghost.update g dt mz rng;
      '(rest, rng) ← update_ghosts rest dt mz rng;
      Ok (g :: rest, rng)
  end.

Definition update `{Libm} (self : t) (dt : Q) (input_manager : InputManager.t)
    (sm : SoundManager.t) (out : SoundManager.mixer) (rng : random.state)
  : Result (t * SoundManager.t * SoundManager.mixer * random.state) :=
  let particles := ParticleSystem.update (particle_system self) dt in
  pl ← Player.update (player self) dt input_manager (maze self);
  '(gs, rng) ← update_ghosts (ghosts self) dt (maze self) rng;
  let '(mz, (score_gain, power_pellet_eaten), particles, rng) :=
    Maze.check_pellet_collision (maze self)
      (Entity.position (Player.base pl)) particles rng in
  '(new_score, sm, out) ←
    (if 0 <? score_gain
     then '(sm, out) ← SoundManager.play sm "eat_pellet" 0 out;
          Ok (score self + score_gain, sm, out)
     else Ok (score self, sm, out));
  '(active, timer, sm, out) ←
    (if power_pellet_eaten
     then '(sm, out) ← SoundManager.play sm "eat_power_pellet" 0 out;
          Ok (true, Settings.POWER_PELLET_DURATION, sm, out)
     else Ok (is_power_pellet_active self, power_pellet_timer self, sm, out));
  let timer := if (active : bool) then (timer - dt)%Q else timer in
  let active := if (active : bool) then negb (Qle_bool timer 0) else false in
  Ok ({| particle_system := particles; maze := mz; player := pl; ghosts := gs;
         score := new_score; is_power_pellet_active := active;
         power_pellet_timer := timer |}, sm, out, rng).
End GameScene.

Inductive Scene : Type :=
| MainMenu (s : MainMenuScene.t)
| Game (s : GameScene.t).

(* ===================================================================== *)
(** * 5. Main game engine                                                 *)
(* ===================================================================== *)

#[export] Instance GameState_eq_dec : EqDecision GameState.
Proof. solve_decision. Defined.

(** The [Enum] values of [GameState]. *)
Definition GameState_value (s : GameState) : nat :=
  match s with
  | MAIN_MENU => 1
  | PLAYING => 2
  | PAUSED => 3
  | GAME_OVER => 4
  | LEVEL_TRANSITION => 5
  end.

Definition GameState_of_value (n : nat) : option GameState :=
  match n with
  | 1%nat => Some MAIN_MENU
  | 2%nat => Some PLAYING
  | 3%nat => Some PAUSED
  | 4%nat => Some GAME_OVER
  | 5%nat => Some LEVEL_TRANSITION
  | _ => None
  end.

#[export] Instance GameState_countable : Countable GameState.
Proof.
  refine (inj_countable GameState_value GameState_of_value _).
  intros []; reflexivity.
Defined.

Module GameEngine.
(** Scenes are objects with an identity: [objects] maps the identity of
    each scene object to its state; the registry [scenes] and
    [current_scene] hold identities, so that two references to one scene
    see the same state. *)
Record t : Type := {
  running : bool;
  sound_manager : SoundManager.t;
  input_manager : InputManager.t;
  objects : gmap nat Scene;
  scenes : gmap GameState nat;
  current_state : GameState;
  current_scene : nat
}.

(** Allocation of a new scene object. *)
Definition new_object (objs : gmap nat Scene) (s : Scene) : nat * gmap nat Scene :=
  let id := fresh (dom objs) in (id, <[id := s]> objs).

(** [__init__] with [_init_scenes], for a sound manager already built. *)
Definition init `{Libm} (sm : SoundManager.t) (out : SoundManager.mixer)
    (rng : random.state)
  : Result (t * SoundManager.mixer * random.state) :=
  '(menu, sm, out) ← MainMenuScene.init sm out;
  let '(game, rng) := GameScene.init rng in
  let '(menu_id, objs) := new_object ∅ (MainMenu menu) in
  let '(game_id, objs) := new_object objs (Game game) in
  let registry : gmap GameState nat :=
    <[PLAYING := game_id]> (<[MAIN_MENU := menu_id]> ∅) in
  match registry !! MAIN_MENU with
  | Some cur =>
      Ok ({| running := true; sound_manager := sm;
             input_manager := {| InputManager.keys_pressed := ∅;
                                 InputManager.keys_just_pressed := ∅ |};
             objects := objs; scenes := registry;
             current_state := MAIN_MENU; current_scene := cur |}, out, rng)
  | None => Raise KeyError
  end.

(** [change_state]; the warning printed for an unregistered state goes
    to the console and is left out. *)
Definition change_state `{Libm} (self : t) (new_state : GameState)
    (rng : random.state) : Result (t * random.state) :=
  if bool_decide (is_Some (scenes self !! new_state)) then
    let '(objs, registry, rng) :=
      if bool_decide (new_state = PLAYING) then
        let '(game, rng) := GameScene.init rng in
        let '(id, objs) := new_object (objects self) (Game game) in
        (objs, <[PLAYING := id]> (scenes self), rng)
      else (objects self, scenes self, rng) in
    match registry !! new_state with
    | Some cur =>
        Ok ({| running := running self; sound_manager := sound_manager self;
               input_manager := input_manager self;
               objects := objs; scenes := registry;
               current_state := new_state; current_scene := cur |}, rng)
    | None => Raise KeyError
    end
  else Ok (self, rng).

(** Every scene identity held by the registry is an allocated object. *)
Definition registry_allocated (self : t) : Prop :=
  forall st id, scenes self !! st = Some id -> id ∈ dom (objects self).

(** The state of the scene the engine currently runs. *)
Definition active_scene (self : t) : option Scene :=
  objects self !! current_scene self.
End GameEngine.


(* ===================================================================== *)
(** * 6. Rendering, sound synthesis and menu input                        *)
(* ===================================================================== *)

(** The functions below can also divide by zero. *)
Inductive exception : Set :=
| Builtin (e : exn)
| ZeroDivisionError.

Inductive Outcome (A : Type) : Type :=
| Done (a : A)
| Raised (e : exception).
Arguments Done {A} a.
Arguments Raised {A} e.

#[export] Instance Outcome_ret : MRet Outcome := @Done.
#[export] Instance Outcome_bind : MBind Outcome :=
  fun A B f r => match r with Done a => f a | Raised e => Raised e end.

Definition lift {A} (r : Result A) : Outcome A :=
  match r with
  | Ok a => Done a
  | Raise e => Raised (Builtin e)
  end.

(** [a / b] on floats. *)
Definition truediv (a b : Q) : Outcome Q :=
  if Qeq_bool b 0 then Raised ZeroDivisionError else Done (a / b)%Q.

(** [a % n] on ints: the result has the sign of [n]. *)
Definition pymod (a n : Z) : Outcome Z :=
  if n =? 0 then Raised ZeroDivisionError else Done (a mod n).

(** [range(n)] *)
Definition range (n : Z) : list Z := List.map Z.of_nat (seq 0 (Z.to_nat n)).

Module Rendering.
(** A call of [pygame.draw.circle]: color, with the alpha channel when the
    source passes one, center and radius.  A surface is the sequence of
    the circles drawn on it. *)
Record circle : Type := {
  rgb : Z * Z * Z;
  alpha : option Z;
  center : Z * Z;
  radius : Z
}.

Definition surface : Type := list circle.

(** The body of the loop of [ParticleSystem.draw]. *)
Definition draw_particle (screen : surface) (p : ParticleSystem.particle)
  : Outcome surface :=
  ratio ← truediv (ParticleSystem.lifetime p) (ParticleSystem.max_lifetime p);
  let a := int (255 * ratio) in
  ratio ← truediv (ParticleSystem.lifetime p) (ParticleSystem.max_lifetime p);
  let size := int (4 * ratio) in
  if 0 <? size
  then Done (screen ++ [{| rgb := ParticleSystem.color p; alpha := Some a;
                           center := Vector2.to_tuple_int (ParticleSystem.pos p);
                           radius := size |}])
  else Done screen.

Fixpoint draw_particles (ps : list ParticleSystem.particle) (screen : surface)
  : Outcome surface :=
  match ps with
  | [] => Done screen
  | p :: rest => screen ← draw_particle screen p; draw_particles rest screen
  end.

(** [ParticleSystem.draw] *)
Definition ParticleSystem_draw (self : ParticleSystem.t) (screen : surface)
  : Outcome surface :=
  draw_particles (ParticleSystem.particles self) screen.

(** [Pellet.draw]: it also advances the animation of a power pellet. *)
Definition Pellet_draw `{Libm} (self : Pellet.t) (screen : surface)
  : Pellet.t * surface :=
  if Pellet.eaten self then (self, screen)
  else if Pellet.is_power self then
    let timer := (Pellet.animation_timer self + (1 # 10))%Q in
    let size := (8 + sin timer * 2)%Q in
    ({| Pellet.position := Pellet.position self;
        Pellet.is_power := Pellet.is_power self;
        Pellet.points := Pellet.points self;
        Pellet.eaten := Pellet.eaten self;
        Pellet.animation_timer := timer |},
     screen ++ [{| rgb := Settings.COLOR_YELLOW; alpha := None;
                   center := Vector2.to_tuple_int (Pellet.position self);
                   radius := int size |}])
  else
    (self,
     screen ++ [{| rgb := Settings.COLOR_YELLOW; alpha := None;
                   center := Vector2.to_tuple_int (Pellet.position self);
                   radius := int 3 |}]).

Fixpoint draw_pellets `{Libm} (l : list Pellet.t) (screen : surface)
  : list Pellet.t * surface :=
  match l with
  | [] => ([], screen)
  | p :: rest =>
      let '(p, screen) := Pellet_draw p screen in
      let '(rest, screen) := draw_pellets rest screen in
      (p :: rest, screen)
  end.

(** [Maze.draw]; the blit of the pre-rendered background is left to the
    renderer. *)
Definition Maze_draw `{Libm} (self : Maze.t) (screen : surface)
  : Maze.t * surface :=
  let '(l, screen) := draw_pellets (Maze.pellets self) screen in
  (Maze.set_pellets self l, screen).
End Rendering.

(** What the game reads of a pellet; the animation timer is not part of
    it. *)
Definition pellet_state (p : Pellet.t) : Vector2.t * bool * Z * bool :=
  (Pellet.position p, Pellet.is_power p, Pellet.points p, Pellet.eaten p).

Definition pellet_uneaten (p : Pellet.t) : bool := negb (Pellet.eaten p).

(** [math.exp], which only the synthesizer uses. *)
Class LibmExp : Type := { exp : Q -> Q }.

(** The sample buffers [buf] that the three generators of [SoundManager]
    compute, for the sample rate the mixer reports; turning a buffer into
    a [pygame] sound is the library's part.  The model has no infinite
    numbers, hence no [ValueError] of [math.sin] or [OverflowError] of
    [int] on one: the properties of the generators are stated for
    parameters within [parameter_bound] and durations up to 16 seconds,
    which keep every intermediate value of the source finite. *)
Module Synthesis.
Fixpoint for_each {A B} (f : A -> Outcome B) (l : list A) : Outcome (list B) :=
  match l with
  | [] => Done []
  | a :: rest => b ← f a; bs ← for_each f rest; Done (b :: bs)
  end.

Definition beep_sample `{Libm} (sample_rate : Z) (freq volume : Q) (i : Z)
  : Outcome Z :=
  a ← truediv (2 * pi * inject_Z i * freq) (inject_Z sample_rate);
  Done (int (volume * sin a)).

Definition _create_beep `{Libm} (sample_rate : Z) (duration freq volume : Q)
  : Outcome (list Z) :=
  let num_samples := int (inject_Z sample_rate * duration) in
  for_each (beep_sample sample_rate freq volume) (range num_samples).

Definition phaser_sample `{Libm} `{LibmExp} (sample_rate num_samples : Z)
    (start_freq end_freq num_phases : Q) (i : Z) : Outcome Z :=
  progress ← truediv (inject_Z i) (inject_Z num_samples);
  let freq := (start_freq + (end_freq - start_freq) * progress)%Q in
  let phase_shift := (sin (2 * pi * num_phases * progress) * (5 # 10))%Q in
  t ← truediv (inject_Z i) (inject_Z sample_rate);
  let angle := (2 * pi * t * freq + phase_shift)%Q in
  Done (int (2000 * exp (-3 * progress) * sin angle)).

Definition _create_phaser_sound `{Libm} `{LibmExp} (sample_rate : Z)
    (duration start_freq end_freq num_phases : Q) : Outcome (list Z) :=
  let num_samples := int (inject_Z sample_rate * duration) in
  for_each (phaser_sample sample_rate num_samples start_freq end_freq num_phases)
    (range num_samples).

Definition explosion_sample `{Libm} `{LibmExp} (sample_rate num_samples : Z)
    (i : Z) (rng : random.state) : Outcome (Z * random.state) :=
  progress ← truediv (inject_Z i) (inject_Z num_samples);
  let freq := (800 * (1 - progress ^ 2) + 100)%Q in
  let '(noise, rng) := random.uniform (-1) 1 rng in
  let volume := (4000 * exp (-5 * progress))%Q in
  a ← truediv (2 * pi * inject_Z i * freq) (inject_Z sample_rate);
  Done (int (volume * noise * sin a), rng).

Fixpoint explosion_loop `{Libm} `{LibmExp} (sample_rate num_samples : Z)
    (l : list Z) (rng : random.state) : Outcome (list Z * random.state) :=
  match l with
  | [] => Done ([], rng)
  | i :: rest =>
      '(s, rng) ← explosion_sample sample_rate num_samples i rng;
      '(ss, rng) ← explosion_loop sample_rate num_samples rest rng;
      Done (s :: ss, rng)
  end.

Definition _create_explosion_sound `{Libm} `{LibmExp} (sample_rate : Z)
    (duration : Q) (rng : random.state) : Outcome (list Z * random.state) :=
  let num_samples := int (inject_Z sample_rate * duration) in
  explosion_loop sample_rate num_samples (range num_samples) rng.
End Synthesis.

Module Menu.
Definition set_scene_state (game : GameEngine.t) (id : nat) (s : Scene)
    (sm : SoundManager.t) : GameEngine.t :=
  {| GameEngine.running := GameEngine.running game;
     GameEngine.sound_manager := sm;
     GameEngine.input_manager := GameEngine.input_manager game;
     GameEngine.objects := <[id := s]> (GameEngine.objects game);
     GameEngine.scenes := GameEngine.scenes game;
     GameEngine.current_state := GameEngine.current_state game;
     GameEngine.current_scene := GameEngine.current_scene game |}.

Definition stop (game : GameEngine.t) : GameEngine.t :=
  {| GameEngine.running := false;
     GameEngine.sound_manager := GameEngine.sound_manager game;
     GameEngine.input_manager := GameEngine.input_manager game;
     GameEngine.objects := GameEngine.objects game;
     GameEngine.scenes := GameEngine.scenes game;
     GameEngine.current_state := GameEngine.current_state game;
     GameEngine.current_scene := GameEngine.current_scene game |}.

(** The step of the selection by [delta], with the sound. *)
Definition select (game : GameEngine.t) (id : nat) (self : MainMenuScene.t)
    (delta : Z) (out : SoundManager.mixer)
  : Outcome (GameEngine.t * SoundManager.mixer) :=
  sel ← pymod (MainMenuScene.selected_option self + delta)
              (len (MainMenuScene.options self));
  '(sm, out) ← lift (SoundManager.play (GameEngine.sound_manager game)
                        "menu_select" 0 out);
  Done (set_scene_state game id
          (MainMenu {| MainMenuScene.options := MainMenuScene.options self;
                       MainMenuScene.selected_option := sel |}) sm, out).

(** [MainMenuScene.handle_events], for the menu object [id] whose state
    is [self]. *)
Definition handle_events `{Libm} (game : GameEngine.t) (id : nat)
    (self : MainMenuScene.t) (out : SoundManager.mixer) (rng : random.state)
  : Outcome (GameEngine.t * SoundManager.mixer * random.state) :=
  let pressed := InputManager.was_key_just_pressed (GameEngine.input_manager game) in
  if pressed pygame.K_DOWN then
    '(game, out) ← select game id self 1 out; Done (game, out, rng)
  else if pressed pygame.K_UP then
    '(game, out) ← select game id self (-1) out; Done (game, out, rng)
  else if pressed pygame.K_RETURN then
    if MainMenuScene.selected_option self =? 0 then
      '(game, rng) ← lift (GameEngine.change_state game PLAYING rng);
      Done (game, out, rng)
    else if MainMenuScene.selected_option self =? 1 then
      Done (stop game, out, rng)
    else Done (game, out, rng)
  else Done (game, out, rng).
End Menu.

(* ===================================================================== *)
(** * Sample inputs                                                       *)
(* ===================================================================== *)

(** A rational stand-in for [math], to run the model on examples: [pi] is
    355/113, [sin] and [cos] are short Taylor polynomials and [sqrt] is the
    integer square root of the floor. *)
Definition sample_libm : Libm :=
  {| pi := 355 # 113;
     sin := fun a => (a - a ^ 3 / 6)%Q;
     cos := fun a => (1 - a ^ 2 / 2)%Q;
     sqrt := fun a => inject_Z (Z.sqrt (Qfloor a)) |}.

Definition sample_rng : random.state :=
  {| random.floats := fun _ => 1 # 2;
     random.ints := fun n => n;
     random.cursor := 0 |}.

(** The maze every session builds from [LAYOUT]. *)
Definition the_maze : Maze.t := fst (@Maze.init sample_libm sample_rng).

(** An entity standing at [pos] and heading [d]. *)
Definition entity_at (pos : Vector2.t) (spd : Q) (d : Direction.t) : Entity.t :=
  Entity.set_direction (Entity.init pos spd d) d.

(** A player standing at [pos], heading [d], with [nd] pending. *)
Definition player_at (pos : Vector2.t) (d nd : Direction.t) : Player.t :=
  Player.set_next_direction
    (Player.set_base (Player.init pos) (entity_at pos Settings.PLAYER_SPEED d)) nd.

(** A ghost standing at [pos] and heading [d]. *)
Definition ghost_at (pos : Vector2.t) (d : Direction.t) : Ghost.t :=
  Ghost.set_base (Ghost.init pos Settings.COLOR_RED "blinky")
    (entity_at pos Settings.GHOST_SPEED d).

(** [sample_libm] with the sine clipped to [-1, 1], as the true sine is. *)
Definition clipped_libm : Libm :=
  {| pi := 355 # 113;
     sin := fun a =>
       let s := (a - a ^ 3 / 6)%Q in
       if Qle_bool 1 s then 1%Q else if Qle_bool s (-1) then (-1)%Q else s;
     cos := fun a => (1 - a ^ 2 / 2)%Q;
     sqrt := fun a => inject_Z (Z.sqrt (Qfloor a)) |}.

(** A rational stand-in for [math.exp]: [1 / (1 - x)] left of zero and
    [1 + x] right of it. *)
Definition sample_exp : LibmExp :=
  {| exp := fun x => if Qle_bool x 0 then (1 / (1 - x))%Q else (1 + x)%Q |}.

(** The first session with the player put on the power pellet of cell
    (1, 1), heading right. *)
Definition scene_on_power_pellet : GameScene.t :=
  let s := fst (@GameScene.init sample_libm sample_rng) in
  {| GameScene.particle_system := GameScene.particle_system s;
     GameScene.maze := GameScene.maze s;
     GameScene.player :=
       player_at (Maze.grid_to_world (1, 1)%Z) Direction.RIGHT Direction.RIGHT;
     GameScene.ghosts := GameScene.ghosts s;
     GameScene.score := GameScene.score s;
     GameScene.is_power_pellet_active := GameScene.is_power_pellet_active s;
     GameScene.power_pellet_timer := GameScene.power_pellet_timer s |}.

(** No key held or pressed, and a sound manager without sounds. *)
Definition no_keys : InputManager.t :=
  {| InputManager.keys_pressed := ∅; InputManager.keys_just_pressed := ∅ |}.

Definition silent : SoundManager.t :=
  {| SoundManager.sounds := ∅; SoundManager.enabled := true |}.

(** An engine showing the menu, with the given keys just pressed and the
    given option selected. *)
Definition sample_menu_engine (keys : gset Z) (selected : Z) : GameEngine.t :=
  {| GameEngine.running := true;
     GameEngine.sound_manager :=
       {| SoundManager.sounds := ∅; SoundManager.enabled := true |};
     GameEngine.input_manager :=
       {| InputManager.keys_pressed := keys;
          InputManager.keys_just_pressed := keys |};
     GameEngine.objects :=
       <[1%nat := Game (fst (@GameScene.init sample_libm sample_rng))]>
         (<[0%nat := MainMenu {| MainMenuScene.options :=
                                   ["Start Game"; "Quit"]%string;
                                 MainMenuScene.selected_option := selected |}]>
            ∅);
     GameEngine.scenes := <[PLAYING := 1%nat]> (<[MAIN_MENU := 0%nat]> ∅);
     GameEngine.current_state := MAIN_MENU;
     GameEngine.current_scene := 0%nat |}.

(* ===================================================================== *)
(** * Properties of the run-time helpers                                  *)
(* ===================================================================== *)

Local Open Scope Q_scope.

Lemma Qlt_bool_iff (a b : Q) : Qlt_bool a b = true <-> a < b.
Proof.
  unfold Qlt_bool. rewrite negb_true_iff.
  split; intros Hab.
  - apply Qnot_le_lt. intros Hle. apply Qle_bool_iff in Hle. congruence.
  - destruct (Qle_bool b a) eqn:E; [|reflexivity].
    apply Qle_bool_iff in E. lra.
Qed.

Lemma Qlt_bool_false_iff (a b : Q) : Qlt_bool a b = false <-> b <= a.
Proof.
  unfold Qlt_bool. rewrite negb_false_iff. apply Qle_bool_iff.
Qed.

Lemma Qfloor_unique (z : Z) (q : Q) :
  inject_Z z <= q -> q < inject_Z z + 1 -> Qfloor q = z.
Proof.
  intros Hlo Hhi.
  pose proof (Qfloor_le q) as Hf. pose proof (Qlt_floor q) as Hc.
  assert (H1 : inject_Z z < inject_Z (Qfloor q + 1)).
  { eapply Qle_lt_trans; eassumption. }
  assert (H2 : inject_Z (Qfloor q) < inject_Z (z + 1)).
  { rewrite inject_Z_plus. simpl (inject_Z 1). eapply Qle_lt_trans; eassumption. }
  rewrite <- Zlt_Qlt in H1, H2. lia.
Qed.

(** On a non-negative float [int] is the floor. *)
Lemma int_nonneg (q : Q) : 0 <= q -> int q = Qfloor q.
Proof.
  destruct q as [n d]. unfold Qle, int, Qfloor. simpl. intros Hn.
  apply Z.quot_div_nonneg; lia.
Qed.

Lemma int_unique (z : Z) (q : Q) :
  (0 <= z)%Z -> inject_Z z <= q -> q < inject_Z z + 1 -> int q = z.
Proof.
  intros Hz Hlo Hhi. rewrite int_nonneg.
  - now apply Qfloor_unique.
  - apply Qle_trans with (inject_Z z); [|assumption].
    change 0 with (inject_Z 0). now rewrite <- Zle_Qle.
Qed.

(** [x % m] is [x] minus a whole number of [m]s and lies in [0, m). *)
Lemma fmod_spec (x m : Q) :
  0 < m ->
  exists k : Z, fmod x m == x - m * inject_Z k /\ 0 <= fmod x m /\ fmod x m < m.
Proof.
  intros Hm. exists (Qfloor (x / m)). unfold fmod.
  pose proof (Qfloor_le (x / m)) as Hf. pose proof (Qlt_floor (x / m)) as Hc.
  rewrite inject_Z_plus in Hc. simpl (inject_Z 1) in Hc.
  set (k := inject_Z (Qfloor (x / m))) in *.
  assert (Hx : x == m * (x / m)) by (field; lra).
  split; [reflexivity|]. split.
  - assert (m * k <= m * (x / m)) by (apply Qmult_le_l; assumption). lra.
  - assert (m * (x / m) < m * (k + 1)) by (apply Qmult_lt_l; assumption). lra.
Qed.

(* ===================================================================== *)
(** * Maze: walls and coordinates                                         *)
(* ===================================================================== *)

Lemma is_wall_layout (m1 m2 : Maze.t) (cell : Z * Z) :
  Maze.layout_str m1 = Maze.layout_str m2 ->
  Maze.is_wall m1 cell = Maze.is_wall m2 cell.
Proof. intros E. unfold Maze.is_wall. now rewrite E. Qed.

Lemma init_layout `{Libm} (rng : random.state) :
  Maze.layout_str (fst (Maze.init rng)) = Maze.LAYOUT.
Proof. reflexivity. Qed.

(** Outside the rectangle of [len(layout_str)] rows and [len(layout_str[0])]
    columns, [is_wall] answers true. *)
Lemma is_wall_outside_rows (self : Maze.t) (c r : Z) :
  (r < 0 \/ len (Maze.layout_str self) <= r)%Z ->
  Maze.is_wall self (c, r) = Ok true.
Proof.
  intros Hr. unfold Maze.is_wall. simpl.
  destruct (0 <=? r)%Z eqn:E1; [|reflexivity].
  destruct (r <? len (Maze.layout_str self))%Z eqn:E2; [|reflexivity].
  lia.
Qed.

Lemma is_wall_outside_columns (self : Maze.t) (row0 : string) (rest : list string)
    (c r : Z) :
  Maze.layout_str self = row0 :: rest ->
  (c < 0 \/ str_len row0 <= c)%Z ->
  Maze.is_wall self (c, r) = Ok true.
Proof.
  intros E Hc. unfold Maze.is_wall. simpl. rewrite E.
  destruct ((0 <=? r)%Z && (r <? len (row0 :: rest))%Z); [|reflexivity].
  simpl.
  destruct (0 <=? c)%Z eqn:E1; [|reflexivity].
  destruct (c <? str_len row0)%Z eqn:E2; [|reflexivity].
  lia.
Qed.

(** C1 (defect).  [is_wall] is meant to answer "wall" for every cell
    outside the maze and never to raise.  Its column guard uses the width
    of row 0 (23) for every row, and rows 7 to 13 of [LAYOUT] have only 21
    characters: in every maze built by [__init__], the query for cell
    (21, 7), which lies beyond the end of row 7, raises [IndexError]
    instead of returning true. *)
Theorem is_wall_raises_on_short_row `{Libm} (rng : random.state) :
  Maze.is_wall (fst (Maze.init rng)) (21, 7)%Z = Raise IndexError.
Proof. reflexivity. Qed.

Lemma axis_cell (origin c : Z) :
  (inject_Z (origin + c * Settings.CELL_SIZE) + inject_Z Settings.CELL_SIZE / 2
   - inject_Z origin) / inject_Z Settings.CELL_SIZE == inject_Z c + (1 # 2).
Proof.
  rewrite inject_Z_plus, inject_Z_mult.
  change (inject_Z Settings.CELL_SIZE) with 32. field.
Qed.

Lemma axis_roundtrip (origin c : Z) :
  (0 <= c)%Z ->
  int ((inject_Z (origin + c * Settings.CELL_SIZE) + inject_Z Settings.CELL_SIZE / 2
        - inject_Z origin) / inject_Z Settings.CELL_SIZE) = c.
Proof.
  intros Hc. apply int_unique; [assumption | |]; rewrite axis_cell; lra.
Qed.

(** C3 (amended).  For every grid cell (c, r) within [cell_bound], of
    either sign, [grid_to_world] gives the geometric center of the cell's
    square; when moreover c >= 0 and r >= 0, which covers every cell of a
    maze, [world_to_grid] maps that point back to (c, r). *)
Theorem world_to_grid_inverts_on_maze_cells (c r : Z) :
  exact_cell (c, r) ->
  (let '(x0, y0, width, height) := Maze.cell_rect c r in
   2 * Vector2.x (Maze.grid_to_world (c, r))
     == inject_Z x0 + inject_Z (x0 + width)
   /\ 2 * Vector2.y (Maze.grid_to_world (c, r))
     == inject_Z y0 + inject_Z (y0 + height))
  /\ ((0 <= c)%Z -> (0 <= r)%Z ->
      Maze.world_to_grid (Maze.grid_to_world (c, r)) = (c, r)).
Proof.
  intros _. split.
  - unfold Maze.cell_rect, Maze.grid_to_world. simpl.
    rewrite !inject_Z_plus, !inject_Z_mult.
    change (inject_Z Settings.CELL_SIZE) with 32. split; field.
  - intros Hc Hr. unfold Maze.world_to_grid, Maze.grid_to_world. simpl.
    now rewrite !axis_roundtrip.
Qed.

Lemma world_to_grid_inverts_on_maze_cells_witness :
  exact_cell (3, 4)%Z
  /\ 2 * Vector2.x (Maze.grid_to_world (3, 4)%Z) == 144 + 176
  /\ 2 * Vector2.y (Maze.grid_to_world (3, 4)%Z) == 248 + 280
  /\ Maze.world_to_grid (Maze.grid_to_world (3, 4)%Z) = (3, 4)%Z.
Proof.
  assert (Hcell : exact_cell (3, 4)%Z) by (split; vm_compute; discriminate).
  split; [exact Hcell|].
  destruct (world_to_grid_inverts_on_maze_cells 3 4 Hcell) as [[Hx Hy] Hround].
  split; [exact Hx|]. split; [exact Hy|]. apply Hround; lia.
Defined.

(** C3, as stated, fails on a negative coordinate: [int] truncates toward
    zero, so the center of cell (-1, 0) is mapped to cell (0, 0). *)
Lemma world_to_grid_truncates_toward_zero :
  Maze.world_to_grid (Maze.grid_to_world (-1, 0)%Z) = (0, 0)%Z
  /\ Maze.world_to_grid (Maze.grid_to_world (-1, 0)%Z) <> (-1, 0)%Z.
Proof. split; [reflexivity | discriminate]. Qed.

(* ===================================================================== *)
(** * Entity: centering                                                   *)
(* ===================================================================== *)

Lemma axis_offset (origin c : Z) (X d : Q) :
  X == inject_Z (origin + c * Settings.CELL_SIZE)
       + inject_Z Settings.CELL_SIZE / 2 + d ->
  X - inject_Z origin == 32 * inject_Z c + 16 + d.
Proof.
  intros ->. rewrite inject_Z_plus, inject_Z_mult.
  change (inject_Z Settings.CELL_SIZE / 2) with (32 # 2).
  change (inject_Z Settings.CELL_SIZE) with 32. ring.
Qed.

Lemma Qabs_cases (x : Q) :
  (0 <= x /\ Qabs x == x) \/ (x <= 0 /\ Qabs x == - x).
Proof.
  destruct (Qlt_le_dec x 0) as [Hn | Hp].
  - right. split; [lra|]. apply Qabs_neg. lra.
  - left. split; [assumption|]. now apply Qabs_pos.
Qed.

Lemma centered_axis (c : Z) (X d : Q) :
  X == 32 * inject_Z c + 16 + d ->
  (d == 0 ->
   Qlt_bool (Qabs (fmod X (inject_Z Settings.CELL_SIZE)
                   - inject_Z Settings.CELL_SIZE / 2)) 3 = true)
  /\ (3 <= Qabs d -> Qabs d <= 29 ->
      Qlt_bool (Qabs (fmod X (inject_Z Settings.CELL_SIZE)
                      - inject_Z Settings.CELL_SIZE / 2)) 3 = false).
Proof.
  intros HX.
  change (inject_Z Settings.CELL_SIZE / 2) with (32 # 2).
  change (inject_Z Settings.CELL_SIZE) with 32.
  destruct (fmod_spec X 32) as (k & Hk & Hlo & Hhi); [reflexivity|].
  set (o := fmod X 32) in *.
  assert (Hj : o - 16 == d + 32 * inject_Z (c - k)).
  { unfold Zminus. rewrite inject_Z_plus, inject_Z_opp. lra. }
  set (j := (c - k)%Z) in *.
  assert (Hcases : inject_Z j <= -1 \/ inject_Z j == 0 \/ 1 <= inject_Z j).
  { assert (Hz : (j <= -1)%Z \/ j = 0%Z \/ (1 <= j)%Z) by lia.
    destruct Hz as [Hn | [Hz | Hp]].
    - left. now rewrite Zle_Qle in Hn.
    - right; left. now rewrite Hz.
    - right; right. now rewrite Zle_Qle in Hp. }
  clear HX Hk. clearbody o. generalize dependent (inject_Z j). intros jq Hj Hcases.
  split.
  - intros Hd. apply Qlt_bool_iff. apply Qabs_Qlt_condition.
    destruct Hcases as [Hn | [Hz | Hp]]; lra.
  - intros H3 H29. apply Qlt_bool_false_iff.
    destruct (Qabs_cases d) as [[Hs Hd] | [Hs Hd]];
      destruct (Qabs_cases (o - (32 # 2))) as [[Ht Ho] | [Ht Ho]];
      destruct Hcases as [Hn | [Hz | Hp]]; lra.
Qed.

(** C6 (amended).  An entity whose position is [grid_to_world(cell)] is
    centered, for every cell within [cell_bound]; an entity displaced from
    that center by d on either axis, with 3 <= |d| <= 29 (at least the
    tolerance and at most the cell size minus the tolerance), is not
    centered. *)
Theorem is_centered_near_cell_center (e : Entity.t) (cell : Z * Z) (dx dy : Q) :
  exact_cell cell ->
  Vector2.x (Entity.position e) == Vector2.x (Maze.grid_to_world cell) + dx ->
  Vector2.y (Entity.position e) == Vector2.y (Maze.grid_to_world cell) + dy ->
  (dx == 0 -> dy == 0 -> Entity.is_centered e = true)
  /\ ((3 <= Qabs dx /\ Qabs dx <= 29) \/ (3 <= Qabs dy /\ Qabs dy <= 29) ->
      Entity.is_centered e = false).
Proof.
  intros _ Hx Hy. unfold Maze.grid_to_world in Hx, Hy. simpl in Hx, Hy.
  apply axis_offset in Hx, Hy.
  destruct (centered_axis _ _ _ Hx) as [Hx1 Hx2].
  destruct (centered_axis _ _ _ Hy) as [Hy1 Hy2].
  unfold Entity.is_centered. split.
  - intros H1 H2. rewrite Hx1, Hy1 by assumption. reflexivity.
  - intros [[H1 H2] | [H1 H2]].
    + rewrite Hx2 by assumption. reflexivity.
    + rewrite Hy2 by assumption. apply andb_false_r.
Qed.

Lemma is_centered_near_cell_center_witness :
  exact_cell (3, 4)%Z
  /\ Entity.is_centered
       (entity_at (Maze.grid_to_world (3, 4)%Z) Settings.GHOST_SPEED Direction.UP) = true
  /\ Entity.is_centered
       (entity_at (Vector2.add (Maze.grid_to_world (3, 4)%Z) (Vector2.make 5 0))
          Settings.GHOST_SPEED Direction.UP) = false.
Proof.
  assert (Hcell : exact_cell (3, 4)%Z) by (split; vm_compute; discriminate).
  split; [exact Hcell|]. split.
  - apply (is_centered_near_cell_center _ (3, 4)%Z 0 0 Hcell); reflexivity.
  - apply (is_centered_near_cell_center _ (3, 4)%Z 5 0 Hcell); [reflexivity .. |].
    left. split; vm_compute; discriminate.
Defined.

(** C6, as stated, fails for a displacement of a whole cell: 32 exceeds
    the tolerance 3, and the entity is centered again, in the next cell. *)
Lemma is_centered_one_cell_away :
  let center := Maze.grid_to_world (0, 0)%Z in
  let e := entity_at (Vector2.add center (Vector2.make 32 0))
             Settings.PLAYER_SPEED Direction.RIGHT in
  3 < Qabs (Vector2.x (Entity.position e) - Vector2.x center)
  /\ Entity.is_centered e = true.
Proof. split; reflexivity. Qed.

(* ===================================================================== *)
(** * SoundManager                                                        *)
(* ===================================================================== *)

(** C9.  When audio is disabled or [sound_name] is not a key of [sounds],
    [play] returns normally, starts no sound and leaves the manager and
    the playback device as they were. *)
Theorem play_unknown_or_disabled_is_noop (self : SoundManager.t)
    (sound_name : string) (loops : Z) (out : SoundManager.mixer) :
  SoundManager.enabled self = false
  \/ SoundManager.sounds self !! sound_name = None ->
  SoundManager.play self sound_name loops out = Ok (self, out).
Proof.
  intros [Hoff | Hmiss]; unfold SoundManager.play.
  - now rewrite Hoff.
  - rewrite Hmiss. rewrite bool_decide_eq_false_2.
    + now rewrite andb_false_r.
    + intros [v Hv]. discriminate.
Qed.

Lemma play_unknown_or_disabled_is_noop_witness :
  SoundManager.play
    {| SoundManager.sounds := ∅; SoundManager.enabled := true |}
    "siren" 0 [] =
  Ok ({| SoundManager.sounds := ∅; SoundManager.enabled := true |}, []).
Proof.
  apply play_unknown_or_disabled_is_noop. right. reflexivity.
Defined.

(** [play] never raises: the lookup is guarded by the membership test. *)
Lemma play_returns (self : SoundManager.t) (sound_name : string) (loops : Z)
    (out : SoundManager.mixer) :
  returns (SoundManager.play self sound_name loops out).
Proof.
  unfold SoundManager.play, returns.
  destruct (SoundManager.enabled self); simpl; [|eauto].
  destruct (SoundManager.sounds self !! sound_name) eqn:E.
  - rewrite bool_decide_eq_true_2 by eauto. eauto.
  - rewrite bool_decide_eq_false_2; [eauto|]. intros [v Hv]. discriminate.
Qed.

(* ===================================================================== *)
(** * ParticleSystem                                                      *)
(* ===================================================================== *)

Section Particles.
Import ParticleSystem.

Lemma step_lifetime (dt : Q) (p : particle) :
  lifetime (step dt p) = lifetime p - dt.
Proof. reflexivity. Qed.

Lemma alive_step (dt : Q) (p : particle) :
  alive (step dt p) = Qlt_bool 0 (lifetime p - dt).
Proof. reflexivity. Qed.

Lemma filter_map_step (dt : Q) (l : list particle) :
  List.filter alive (List.map (step dt) l)
  = List.map (step dt) (List.filter (fun p => Qlt_bool 0 (lifetime p - dt)) l).
Proof.
  induction l as [|p l IH]; simpl; [reflexivity|].
  rewrite alive_step. destruct (Qlt_bool 0 (lifetime p - dt)); simpl; now rewrite IH.
Qed.

Lemma emit_loop_length `{Libm} (n : nat) :
  forall origin col speed_range lifetime_range acc rng,
    length (fst (ParticleSystem.emit_loop n origin col speed_range
                   lifetime_range acc rng))
    = (length acc + n)%nat.
Proof.
  induction n as [|n IH]; intros origin col sr lr acc rng;
    cbn [ParticleSystem.emit_loop]; [cbn [fst]; lia|].
  cbn [random.uniform random.random]. rewrite IH, length_app. cbn [length]. lia.
Qed.

Lemma emit_length `{Libm} (self : ParticleSystem.t) origin col (count : Z)
    speed_range lifetime_range rng :
  length (ParticleSystem.particles
            (fst (ParticleSystem.emit self origin col count speed_range
                    lifetime_range rng)))
  = (length (ParticleSystem.particles self) + Z.to_nat count)%nat.
Proof.
  unfold ParticleSystem.emit.
  pose proof (emit_loop_length (Z.to_nat count) origin col speed_range
                lifetime_range (ParticleSystem.particles self) rng) as Hl.
  destruct (ParticleSystem.emit_loop _ _ _ _ _ _ _) as [ps rng'].
  exact Hl.
Qed.

Lemma update_all_expired (self : t) (dt : Q) :
  Forall (fun p => lifetime p <= dt) (particles self) ->
  particles (update self dt) = [].
Proof.
  unfold update. simpl. induction 1 as [|p l Hp _ IH]; simpl; [reflexivity|].
  rewrite alive_step.
  assert (E : Qlt_bool 0 (lifetime p - dt) = false)
    by (apply Qlt_bool_false_iff; lra).
  now rewrite E.
Qed.

(** C5 (amended).  For dt > 0, [update] keeps, in order, exactly the
    particles whose lifetime minus dt is positive and removes the others;
    each survivor is the old record advanced by one step: position moved
    by velocity times dt, gravity added to the velocity, the same maximal
    lifetime and color, and the remaining lifetime reduced by dt, so
    never larger than before.  On a new particle system, [emit] with
    lifetime range (1, 1) creates [count] particles that live exactly 1,
    and [update(1)] then leaves none of them. *)
Theorem update_removes_expired_particles `{Libm} (self : t) (dt : Q) :
  0 < dt ->
  particles (update self dt)
  = List.map (step dt)
      (List.filter (fun p => Qlt_bool 0 (lifetime p - dt)) (particles self))
  /\ (forall p, In p (particles self) -> lifetime p - dt <= 0 ->
        ~ In (step dt p) (particles (update self dt)))
  /\ (forall q, In q (particles (update self dt)) ->
        exists p, In p (particles self) /\ q = step dt p
                  /\ 0 < lifetime q
                  /\ lifetime q = lifetime p - dt
                  /\ lifetime q <= lifetime p
                  /\ Vector2.x (pos q) = Vector2.x (pos p) + Vector2.x (vel p) * dt
                  /\ Vector2.y (pos q) = Vector2.y (pos p) + Vector2.y (vel p) * dt
                  /\ Vector2.x (vel q) = Vector2.x (vel p)
                  /\ Vector2.y (vel q) = Vector2.y (vel p) + 100 * dt
                  /\ max_lifetime q = max_lifetime p /\ color q = color p)
  /\ (forall origin col count speed_range rng,
        let emitted := fst (emit init origin col count speed_range (1, 1) rng) in
        length (particles emitted) = Z.to_nat count
        /\ Forall (fun p => lifetime p == 1 /\ max_lifetime p == 1
                            /\ pos p = origin /\ color p = col)
             (particles emitted)
        /\ particles (update emitted 1) = []).
Proof.
  intros Hdt.
  assert (E : particles (update self dt)
              = List.map (step dt)
                  (List.filter (fun p => Qlt_bool 0 (lifetime p - dt))
                     (particles self)))
    by apply filter_map_step.
  split; [exact E|]. split; [|split].
  - intros p _ Hexp Hin. rewrite E in Hin.
    apply in_map_iff in Hin. destruct Hin as (p' & Hstep & Hin').
    apply filter_In in Hin'. destruct Hin' as [_ Hpos].
    apply Qlt_bool_iff in Hpos.
    assert (El : lifetime (step dt p') = lifetime (step dt p)) by now rewrite Hstep.
    rewrite !step_lifetime in El. rewrite El in Hpos. lra.
  - intros q Hin. rewrite E in Hin.
    apply in_map_iff in Hin. destruct Hin as (p & Hstep & Hin').
    apply filter_In in Hin'. destruct Hin' as [Hin' Hpos].
    apply Qlt_bool_iff in Hpos.
    exists p. subst q. rewrite step_lifetime.
    repeat split; try assumption; try reflexivity. lra.
  - intros origin col count speed_range rng emitted.
    assert (Hall : Forall (fun p => lifetime p == 1 /\ max_lifetime p == 1
                                    /\ pos p = origin /\ color p = col)
                     (particles emitted)).
    { unfold emitted, emit.
      assert (Hloop : forall n acc rng0,
                Forall (fun p => lifetime p == 1 /\ max_lifetime p == 1
                                 /\ pos p = origin /\ color p = col) acc ->
                Forall (fun p => lifetime p == 1 /\ max_lifetime p == 1
                                 /\ pos p = origin /\ color p = col)
                  (fst (emit_loop n origin col speed_range (1, 1) acc rng0))).
      { induction n as [|n IH]; intros acc rng0 Hacc; simpl; [assumption|].
        apply IH. apply Forall_app. split; [assumption|].
        constructor; [|constructor]. simpl. repeat split; ring. }
      pose proof (Hloop (Z.to_nat count) (particles init) rng) as Hl.
      destruct (emit_loop (Z.to_nat count) origin col speed_range (1, 1)
                  (particles init) rng) as [ps rng'].
      simpl in *. apply Hl. constructor. }
    split; [|split; [exact Hall|]].
    + unfold emitted. rewrite emit_length. reflexivity.
    + apply update_all_expired.
      eapply List.Forall_impl; [|exact Hall]. intros p (Hl & _).
      cbv beta in Hl. lra.
Qed.

Lemma update_removes_expired_particles_witness :
  let old := {| pos := Vector2.make 0 0; vel := Vector2.make 3 4;
                lifetime := 1 # 2; max_lifetime := 1;
                color := Settings.COLOR_YELLOW |} in
  let young := {| pos := Vector2.make 0 0; vel := Vector2.make 3 4;
                  lifetime := 2; max_lifetime := 2;
                  color := Settings.COLOR_YELLOW |} in
  let emitted := fst (@emit sample_libm init (Vector2.make 0 0)
                        Settings.COLOR_YELLOW 5 (0, 0) (1, 1) sample_rng) in
  0 < 1
  /\ particles (update {| particles := [old; young] |} 1) = [step 1 young]
  /\ length (particles emitted) = 5%nat
  /\ particles (update emitted 1) = [].
Proof.
  intros old young emitted. split; [reflexivity|].
  destruct (@update_removes_expired_particles sample_libm
              {| particles := [old; young] |} 1 eq_refl)
    as (Hkept & _ & _ & Hscenario).
  split; [exact Hkept|].
  destruct (Hscenario (Vector2.make 0 0) Settings.COLOR_YELLOW 5%Z (0, 0)
              sample_rng) as (Hlen & _ & Hempty).
  split; [exact Hlen | exact Hempty].
Defined.

End Particles.

Section FloatAgeing.
Import PrimFloat.

(** C5, as stated, fails in the binary64 arithmetic of the source: a time
    step below half an ulp of the lifetime is absorbed by the
    subtraction.  With lifetime 0.5 and dt = 2^-60 > 0 the particle
    survives [update] with its lifetime unchanged, not strictly
    decreased. *)
Lemma update_absorbs_a_small_step :
  let p := {| Binary64.pos := (0, 0)%float; Binary64.vel := (3, 4)%float;
              Binary64.lifetime := 0x1p-1%float;
              Binary64.max_lifetime := 1%float;
              Binary64.color := Settings.COLOR_YELLOW |} in
  let dt := 0x1p-60%float in
  (0 <? dt)%float = true
  /\ exists q, Binary64.update [p] dt = [q]
       /\ Binary64.lifetime q = Binary64.lifetime p
       /\ (Binary64.lifetime q <? Binary64.lifetime p)%float = false.
Proof.
  intros p dt. split; [reflexivity|].
  eexists. split; [reflexivity|]. split; reflexivity.
Qed.
End FloatAgeing.

(* ===================================================================== *)
(** * Pellet collisions                                                   *)
(* ===================================================================== *)

Section Collision.
Context `{Libm}.
Variable player_pos : Vector2.t.

Lemma hits_eaten (pellet : Pellet.t) :
  Pellet.eaten pellet = true -> Maze.hits player_pos pellet = false.
Proof. intros E. unfold Maze.hits. now rewrite E. Qed.

Lemma collide_miss (pellet : Pellet.t) (rest : list Pellet.t) (score : Z)
    (power : bool) (ps : ParticleSystem.t) (rng : random.state) :
  Maze.hits player_pos pellet = false ->
  Maze.collide player_pos (pellet :: rest) score power ps rng
  = let '(rest', score', power', ps', rng') :=
      Maze.collide player_pos rest score power ps rng in
    (pellet :: rest', score', power', ps', rng').
Proof. intros E. cbn [Maze.collide]. now rewrite E. Qed.

(** Where no pellet is hit, the loop changes nothing. *)
Lemma collide_no_hit (l : list Pellet.t) :
  Forall (fun p => Maze.hits player_pos p = false) l ->
  forall score power ps rng,
    Maze.collide player_pos l score power ps rng = (l, score, power, ps, rng).
Proof.
  induction 1 as [|p l Hp _ IH]; intros score power ps rng; [reflexivity|].
  rewrite collide_miss by assumption. now rewrite IH.
Qed.

Lemma collide_hit (pellet : Pellet.t) (rest : list Pellet.t) (score : Z)
    (power : bool) (ps : ParticleSystem.t) (rng : random.state) :
  Maze.hits player_pos pellet = true ->
  Maze.collide player_pos (pellet :: rest) score power ps rng
  = let '(ps1, rng1) :=
      ParticleSystem.emit ps (Pellet.position pellet) Settings.COLOR_YELLOW
        5 (20, 80) (2 # 10, 5 # 10) rng in
    let '(rest', score', power', ps', rng') :=
      Maze.collide player_pos rest (score + Pellet.points pellet)
        (if Pellet.is_power pellet then true else power) ps1 rng1 in
    (Pellet.set_eaten pellet :: rest', score', power', ps', rng').
Proof. intros E. cbn [Maze.collide]. now rewrite E. Qed.

(** After the loop no pellet is hit any more. *)
Lemma collide_leaves_no_hit (l : list Pellet.t) :
  forall score power ps rng,
    Forall (fun p => Maze.hits player_pos p = false)
      (Maze.collided_pellets (Maze.collide player_pos l score power ps rng)).
Proof.
  induction l as [|p l IH]; intros score power ps rng.
  - constructor.
  - destruct (Maze.hits player_pos p) eqn:E.
    + rewrite collide_hit by assumption.
      destruct (ParticleSystem.emit ps (Pellet.position p) Settings.COLOR_YELLOW
                  5 (20, 80) (2 # 10, 5 # 10) rng) as [ps1 rng1].
      specialize (IH (score + Pellet.points p)%Z
                     (if Pellet.is_power p then true else power) ps1 rng1).
      destruct (Maze.collide player_pos l (score + Pellet.points p)%Z
                  (if Pellet.is_power p then true else power) ps1 rng1)
        as [[[[l' s'] pw'] ps'] rng'].
      constructor; [|exact IH]. now apply hits_eaten.
    + rewrite collide_miss by assumption.
      specialize (IH score power ps rng).
      destruct (Maze.collide player_pos l score power ps rng)
        as [[[[l' s'] pw'] ps'] rng'].
      constructor; assumption.
Qed.
End Collision.

(** C4.  An eaten pellet is skipped by the loop of
    [check_pellet_collision]: it stays as it is and adds nothing to the
    score, the power-pellet flag, the particles or the random draws.  A
    second call with the player at the same position returns score 0 and
    flag false and changes neither the maze nor the particle system. *)
Theorem check_pellet_collision_idempotent `{Libm} (self : Maze.t)
    (player_pos : Vector2.t) (ps : ParticleSystem.t) (rng : random.state)
    (pellet : Pellet.t) (rest : list Pellet.t) (score : Z) (power : bool) :
  Pellet.eaten pellet = true ->
  Maze.collide player_pos (pellet :: rest) score power ps rng
  = (let '(rest', score', power', ps', rng') :=
       Maze.collide player_pos rest score power ps rng in
     (pellet :: rest', score', power', ps', rng'))
  /\ (let '(self1, _, _, _) :=
        Maze.check_pellet_collision self player_pos ps rng in
      forall ps2 rng2,
        Maze.check_pellet_collision self1 player_pos ps2 rng2
        = (self1, (0%Z, false), ps2, rng2)).
Proof.
  intros Heaten. split.
  - apply collide_miss. now apply hits_eaten.
  - unfold Maze.check_pellet_collision.
    pose proof (collide_leaves_no_hit player_pos (Maze.pellets self) 0 false ps rng)
      as Hno.
    destruct (Maze.collide player_pos (Maze.pellets self) 0 false ps rng)
      as [[[[l1 s1] pw1] ps1] rng1].
    unfold Maze.collided_pellets in Hno. simpl in Hno.
    intros ps2 rng2. simpl.
    rewrite (collide_no_hit player_pos l1 Hno). reflexivity.
Qed.

Lemma check_pellet_collision_idempotent_witness :
  let player_pos := Maze.grid_to_world (1, 1)%Z in
  let pellet := {| Pellet.position := player_pos; Pellet.is_power := true;
                   Pellet.points := 50; Pellet.eaten := true;
                   Pellet.animation_timer := 0 |} in
  Pellet.eaten pellet = true
  /\ snd (fst (fst (@Maze.check_pellet_collision sample_libm the_maze player_pos
                      ParticleSystem.init sample_rng))) = (50%Z, true)
  /\ (let '(self1, _, _, _) :=
        @Maze.check_pellet_collision sample_libm the_maze player_pos
          ParticleSystem.init sample_rng in
      forall ps2 rng2,
        @Maze.check_pellet_collision sample_libm self1 player_pos ps2 rng2
        = (self1, (0%Z, false), ps2, rng2)).
Proof.
  intros player_pos pellet. split; [reflexivity|]. split.
  - vm_compute. reflexivity.
  - apply (@check_pellet_collision_idempotent sample_libm the_maze player_pos
             ParticleSystem.init sample_rng pellet [] 0%Z false).
    reflexivity.
Defined.

(* ===================================================================== *)
(** * Entity movement                                                     *)
(* ===================================================================== *)

Lemma eqb_eq (a b : Direction.t) : Direction.eqb a b = true <-> a = b.
Proof. destruct a, b; simpl; split; congruence. Qed.

Lemma of_value_opposite (d : Direction.t) :
  Direction.of_value
    (- fst (Direction.value d), - snd (Direction.value d))%Z
  = Ok (Direction.opposite d).
Proof. destruct d; reflexivity. Qed.

Lemma opposite_neq (d : Direction.t) :
  d <> Direction.NONE -> Direction.opposite d <> d.
Proof. destruct d; simpl; congruence. Qed.

Lemma contains_In (d : Direction.t) (l : list Direction.t) :
  Ghost.contains d l = true <-> In d l.
Proof.
  unfold Ghost.contains. rewrite existsb_exists. split.
  - intros (x & Hx & E). apply eqb_eq in E. now subst.
  - intros Hd. exists d. split; [assumption|]. now apply eqb_eq.
Qed.

Lemma remove_In (d d' : Direction.t) (l : list Direction.t) :
  List.NoDup l -> (In d' (Ghost.remove d l) <-> In d' l /\ d' <> d).
Proof.
  induction 1 as [|a l Ha Hl IH]; simpl; [tauto|].
  destruct (Direction.eqb a d) eqn:E.
  - apply eqb_eq in E. subst a. split.
    + intros Hin. split; [now right|]. intros ->. contradiction.
    + intros [[-> | Hin] Hne]; [congruence | assumption].
  - assert (a <> d) by (intros ->; destruct d; discriminate).
    simpl. rewrite IH. split.
    + intros [-> | [Hin Hne]]; [split; [now left | assumption] | split; [now right | assumption]].
    + intros [[-> | Hin] Hne]; [now left | right; now split].
Qed.

Lemma remove_NoDup (d : Direction.t) (l : list Direction.t) :
  List.NoDup l -> List.NoDup (Ghost.remove d l).
Proof.
  induction 1 as [|a l Ha Hl IH]; simpl; [constructor|].
  destruct (Direction.eqb a d); [assumption|].
  constructor; [|assumption]. intros Hin. apply remove_In in Hin; tauto.
Qed.

Lemma remove_length (d : Direction.t) (l : list Direction.t) :
  In d l -> S (length (Ghost.remove d l)) = length l.
Proof.
  induction l as [|a l IH]; simpl; [tauto|].
  destruct (Direction.eqb a d) eqn:E; [reflexivity|].
  intros [-> | Hin]; [destruct d; discriminate|]. simpl. now rewrite IH.
Qed.

(** The loop over the four directions keeps, in order, those whose
    neighbour cell is not a wall. *)
Lemma neighbours_spec (maze : Maze.t) (cell : Z * Z) (ds : list Direction.t) :
  forall acc l,
    Ghost.neighbours maze cell ds acc = Ok l ->
    exists kept, l = acc ++ kept
      /\ (forall d, In d kept <->
            In d ds /\ Maze.is_wall maze (Entity.ahead cell d) = Ok false)
      /\ (List.NoDup ds -> List.NoDup kept).
Proof.
  induction ds as [|d ds IH]; intros acc l Hl; simpl in Hl.
  - inversion Hl; subst. exists []. rewrite app_nil_r.
    split; [reflexivity|]. split; [simpl; tauto | constructor].
  - destruct (Maze.is_wall maze (Entity.ahead cell d)) as [w|] eqn:Ew;
      [|discriminate].
    simpl in Hl. apply IH in Hl. destruct Hl as (kept & -> & Hin & Hnd).
    destruct w; simpl.
    + exists kept. split; [reflexivity|]. split.
      * intros d'. rewrite Hin. split; [tauto|].
        intros [[-> | Hd] Hw]; [congruence | tauto].
      * intros Hds. apply Hnd. now inversion Hds.
    + exists (d :: kept). split; [now rewrite <- app_assoc|]. split.
      * intros d'. simpl. rewrite Hin. split.
        -- intros [-> | [Hd Hw]]; [tauto | tauto].
        -- intros [[-> | Hd] Hw]; [now left | right; tauto].
      * intros Hds. inversion Hds as [|? ? Hnot Hds']; subst.
        constructor; [|now apply Hnd]. rewrite Hin. tauto.
Qed.

Lemma neighbours_returns (maze : Maze.t) (cell : Z * Z) (ds : list Direction.t) :
  (forall d, In d ds -> returns (Maze.is_wall maze (Entity.ahead cell d))) ->
  forall acc, returns (Ghost.neighbours maze cell ds acc).
Proof.
  induction ds as [|d ds IH]; intros Hret acc; simpl.
  - now exists acc.
  - destruct (Hret d) as [w Hw]; [now left|]. rewrite Hw. simpl.
    apply IH. intros d' Hd'. apply Hret. now right.
Qed.

Lemma all_dirs_NoDup : List.NoDup Ghost.all_dirs.
Proof. repeat constructor; simpl; intuition discriminate. Qed.

Lemma choice_nonempty {A} (l : list A) (rng : random.state) :
  l <> [] ->
  exists a, random.choice l rng = Ok (a, random.advance rng)
            /\ nth_error l (random.randbelow (length l) rng) = Some a
            /\ In a l.
Proof.
  intros Hl. unfold random.choice.
  assert (Hlt : (random.randbelow (length l) rng < length l)%nat).
  { unfold random.randbelow. apply Nat.mod_upper_bound.
    destruct l; [congruence | discriminate]. }
  destruct (nth_error l (random.randbelow (length l) rng)) as [a|] eqn:E.
  - exists a. repeat split. eapply nth_error_In; eassumption.
  - apply nth_error_None in E. lia.
Qed.

Lemma candidates_spec (g : Ghost.t) (maze : Maze.t) (possible : list Direction.t) :
  Ghost.neighbours maze (Entity.get_grid_pos (Ghost.base g)) Ghost.all_dirs []
  = Ok possible ->
  Ghost.candidates g maze
  = Ok (if Ghost.contains (Entity.direction (Ghost.base g)) possible
           && (1 <? len possible)%Z
           && Ghost.contains (Direction.opposite (Entity.direction (Ghost.base g)))
                possible
        then Ghost.remove (Direction.opposite (Entity.direction (Ghost.base g)))
               possible
        else possible).
Proof.
  intros Hn. unfold Ghost.candidates. rewrite Hn. simpl.
  destruct (Ghost.contains (Entity.direction (Ghost.base g)) possible
            && (1 <? len possible)%Z); simpl; [|reflexivity].
  pose proof (of_value_opposite (Entity.direction (Ghost.base g))) as Hop.
  destruct (Direction.value (Entity.direction (Ghost.base g))) as [dx dy].
  simpl in Hop. rewrite Hop. simpl.
  now destruct (Ghost.contains _ possible).
Qed.

(** The second half of [update]: velocity from the heading, then one
    integration step. *)
Lemma ghost_update_after_turn (g g1 : Ghost.t) (dt : Q) (maze : Maze.t)
    (rng rng1 : random.state) :
  Ghost.turn g maze rng = Ok (g1, rng1) ->
  exists g', Ghost.update g dt maze rng = Ok (g', rng1)
    /\ Entity.direction (Ghost.base g') = Entity.direction (Ghost.base g1)
    /\ Entity.speed (Ghost.base g') = Entity.speed (Ghost.base g1)
    /\ Entity.velocity (Ghost.base g')
       = Entity.cruise (Entity.direction (Ghost.base g1)) (Entity.speed (Ghost.base g1))
    /\ Entity.position (Ghost.base g')
       = Vector2.add (Entity.position (Ghost.base g1))
           (Vector2.mul (Entity.velocity (Ghost.base g')) dt)
    /\ (let '(dx, dy) := Direction.value (Entity.direction (Ghost.base g1)) in
        Vector2.x (Entity.velocity (Ghost.base g'))
        = inject_Z dx * Entity.speed (Ghost.base g1)
        /\ Vector2.y (Entity.velocity (Ghost.base g'))
           = inject_Z dy * Entity.speed (Ghost.base g1)
        /\ Vector2.x (Entity.position (Ghost.base g'))
           = Vector2.x (Entity.position (Ghost.base g1))
             + inject_Z dx * Entity.speed (Ghost.base g1) * dt
        /\ Vector2.y (Entity.position (Ghost.base g'))
           = Vector2.y (Entity.position (Ghost.base g1))
             + inject_Z dy * Entity.speed (Ghost.base g1) * dt).
Proof.
  intros Ht. unfold Ghost.update. rewrite Ht. simpl. unfold Entity.cruise.
  destruct (Direction.value (Entity.direction (Ghost.base g1))) as [dx dy].
  eexists. split; [reflexivity|]. simpl. repeat split.
Qed.

Lemma turn_returns (g : Ghost.t) (maze : Maze.t) (rng : random.state) :
  (Entity.is_centered (Ghost.base g) = true ->
   forall d, In d Ghost.all_dirs ->
     returns (Maze.is_wall maze
                (Entity.ahead (Entity.get_grid_pos (Ghost.base g)) d))) ->
  exists g1 rng1, Ghost.turn g maze rng = Ok (g1, rng1)
    /\ Entity.position (Ghost.base g1) = Entity.position (Ghost.base g)
    /\ Entity.speed (Ghost.base g1) = Entity.speed (Ghost.base g)
    /\ (Entity.is_centered (Ghost.base g) = false -> g1 = g /\ rng1 = rng)
    /\ (Ghost.neighbours maze (Entity.get_grid_pos (Ghost.base g))
          Ghost.all_dirs [] = Ok [] -> g1 = g /\ rng1 = rng).
Proof.
  intros Hret. unfold Ghost.turn.
  destruct (Entity.is_centered (Ghost.base g)) eqn:Ec.
  - destruct (neighbours_returns maze _ _ (Hret eq_refl) []) as [possible Hn].
    rewrite (candidates_spec _ _ _ Hn), Hn. simpl.
    match goal with |- context [match ?c with [] => _ | _ :: _ => _ end] =>
      destruct c as [|d0 cands] eqn:Ecands end.
    + exists g, rng. repeat split; try discriminate.
    + destruct (choice_nonempty (d0 :: cands) rng) as (d & Hch & _ & _);
        [discriminate|].
      rewrite Hch. simpl.
      eexists _, _. split; [reflexivity|]. simpl.
      split; [reflexivity|]. split; [reflexivity|]. split; [discriminate|].
      intros Hnil. inversion Hnil; subst possible. discriminate.
  - exists g, rng. repeat split.
Qed.

(** Whenever [Ghost.update] completes (it does unless a neighbour query
    of a centered ghost raises), the ghost's velocity is the unit vector
    of its heading times its speed, component by component, and its
    position has advanced by that velocity times dt.  No wall test enters
    the velocity: a ghost that is not centered, or that is centered with
    no non-wall neighbour, keeps its heading, whatever lies ahead. *)
Lemma ghost_never_stops_at_wall (g : Ghost.t) (dt : Q) (maze : Maze.t)
    (rng : random.state) :
  (Entity.is_centered (Ghost.base g) = true ->
   forall d, In d Ghost.all_dirs ->
     returns (Maze.is_wall maze
                (Entity.ahead (Entity.get_grid_pos (Ghost.base g)) d))) ->
  exists g' rng', Ghost.update g dt maze rng = Ok (g', rng')
    /\ Entity.speed (Ghost.base g') = Entity.speed (Ghost.base g)
    /\ (let '(dx, dy) := Direction.value (Entity.direction (Ghost.base g')) in
        Vector2.x (Entity.velocity (Ghost.base g'))
        = inject_Z dx * Entity.speed (Ghost.base g)
        /\ Vector2.y (Entity.velocity (Ghost.base g'))
           = inject_Z dy * Entity.speed (Ghost.base g)
        /\ Vector2.x (Entity.position (Ghost.base g'))
           = Vector2.x (Entity.position (Ghost.base g))
             + inject_Z dx * Entity.speed (Ghost.base g) * dt
        /\ Vector2.y (Entity.position (Ghost.base g'))
           = Vector2.y (Entity.position (Ghost.base g))
             + inject_Z dy * Entity.speed (Ghost.base g) * dt)
    /\ (Entity.is_centered (Ghost.base g) = false ->
        Entity.direction (Ghost.base g') = Entity.direction (Ghost.base g))
    /\ (Ghost.neighbours maze (Entity.get_grid_pos (Ghost.base g))
          Ghost.all_dirs [] = Ok [] ->
        Entity.direction (Ghost.base g') = Entity.direction (Ghost.base g)).
Proof.
  intros Hret.
  destruct (turn_returns g maze rng Hret)
    as (g1 & rng1 & Ht & Hpos & Hspd & Hoff & Hnone).
  destruct (ghost_update_after_turn g g1 dt maze rng rng1 Ht)
    as (g' & Hup & Hd & Hs & _ & _ & Hxy).
  exists g', rng1. split; [exact Hup|].
  split; [congruence|]. split.
  - rewrite Hd. rewrite <- Hspd, <- Hpos. exact Hxy.
  - split.
    + intros Hc. destruct (Hoff Hc) as [-> _]. exact Hd.
    + intros Hn. destruct (Hnone Hn) as [-> _]. exact Hd.
Qed.

Lemma ghost_never_stops_at_wall_witness :
  let g := ghost_at (Vector2.add (Maze.grid_to_world (10, 8)%Z) (Vector2.make 0 (-5)))
             Direction.UP in
  Entity.is_centered (Ghost.base g) = false
  /\ Maze.is_wall the_maze
       (Entity.ahead (Entity.get_grid_pos (Ghost.base g)) Direction.UP) = Ok true
  /\ exists g' rng', Ghost.update g (1 # 60) the_maze sample_rng = Ok (g', rng')
       /\ Entity.direction (Ghost.base g') = Direction.UP
       /\ Vector2.x (Entity.velocity (Ghost.base g')) == 0
       /\ Vector2.y (Entity.velocity (Ghost.base g')) == - (140)
       /\ Vector2.y (Entity.position (Ghost.base g'))
          == Vector2.y (Entity.position (Ghost.base g)) - (140 # 60).
Proof.
  intros g. split; [reflexivity|]. split; [reflexivity|].
  destruct (ghost_never_stops_at_wall g (1 # 60) the_maze sample_rng)
    as (g' & rng' & Hup & Hs & Hxy & Hd & _).
  - intros Hc. vm_compute in Hc. discriminate.
  - exists g', rng'. split; [exact Hup|].
    specialize (Hd eq_refl). split; [exact Hd|].
    rewrite Hd in Hxy. cbn [Direction.value] in Hxy.
    destruct Hxy as (Hvx & Hvy & _ & Hpy).
    rewrite Hvx, Hvy, Hpy. repeat split; reflexivity.
Defined.

(** C10 (code defect).  [Ghost.update] does not complete for every call:
    a ghost centered in the open cell (21, 6) of the maze, whatever its
    heading, the time step and the random generator, asks [is_wall] for
    the cell below it, (21, 7), which lies past the end of the short row
    7, and the [IndexError] of C1 leaves [update] before the velocity is
    set. *)
Theorem ghost_update_raises_beside_short_row (d : Direction.t) (dt : Q)
    (rng : random.state) :
  let g := ghost_at (Maze.grid_to_world (21, 6)%Z) d in
  Maze.is_wall the_maze (21, 6)%Z = Ok false
  /\ Entity.is_centered (Ghost.base g) = true
  /\ Entity.get_grid_pos (Ghost.base g) = (21, 6)%Z
  /\ Maze.is_wall the_maze
       (Entity.ahead (Entity.get_grid_pos (Ghost.base g)) Direction.DOWN)
     = Raise IndexError
  /\ Ghost.update g dt the_maze rng = Raise IndexError.
Proof.
  intros g. repeat (split; [reflexivity|]).
  unfold Ghost.update, Ghost.turn.
  change (Entity.is_centered (Ghost.base g)) with true.
  cbv beta iota.
  assert (E : Ghost.candidates g the_maze = Raise IndexError).
  { unfold Ghost.candidates.
    change (Entity.get_grid_pos (Ghost.base g)) with (21, 6)%Z.
    reflexivity. }
  rewrite E. reflexivity.
Qed.

Lemma neighbours_not_none (maze : Maze.t) (cell : Z * Z)
    (possible : list Direction.t) :
  Ghost.neighbours maze cell Ghost.all_dirs [] = Ok possible ->
  List.NoDup possible /\ ~ In Direction.NONE possible.
Proof.
  intros Hn. apply neighbours_spec in Hn.
  destruct Hn as (kept & -> & Hin & Hnd). simpl. split.
  - apply Hnd, all_dirs_NoDup.
  - rewrite Hin. simpl. intuition discriminate.
Qed.

(** [random.choice] can return every member of a list. *)
Lemma choice_any {A} (l : list A) (a : A) :
  In a l ->
  exists rng, random.choice l rng = Ok (a, random.advance rng).
Proof.
  intros Hin. apply In_nth_error in Hin. destruct Hin as [i Hi].
  assert (Hlt : (i < length l)%nat) by (apply nth_error_Some; congruence).
  exists {| random.floats := fun _ => 0%Q; random.ints := fun _ => i;
            random.cursor := 0 |}.
  unfold random.choice, random.randbelow. cbn [random.ints random.cursor].
  rewrite Nat.mod_small by exact Hlt. now rewrite Hi.
Qed.

(** C2 (amended).  A centered ghost chooses among its non-wall neighbour
    directions.  When both its current heading and the reverse of that
    heading are among them, the reverse is removed from the candidates
    and nothing else is; the new direction is the candidate at the index
    drawn by [random.choice] among the remaining, pairwise distinct
    candidates, so it is never the reverse.  In every other case, in
    particular when the heading is blocked by a wall, no direction is
    excluded: the candidates are all the non-wall neighbour directions,
    and each of them, the reverse included, is the choice for some state
    of the generator. *)
Theorem ghost_excludes_reverse_when_heading_is_free (g : Ghost.t) (dt : Q)
    (maze : Maze.t) (rng : random.state) (possible : list Direction.t) :
  let heading := Entity.direction (Ghost.base g) in
  let cands := Ghost.remove (Direction.opposite heading) possible in
  Entity.is_centered (Ghost.base g) = true ->
  Ghost.neighbours maze (Entity.get_grid_pos (Ghost.base g)) Ghost.all_dirs []
  = Ok possible ->
  (In heading possible ->
   In (Direction.opposite heading) possible ->
   Ghost.candidates g maze = Ok cands
   /\ (forall d, In d cands <-> In d possible /\ d <> Direction.opposite heading)
   /\ List.NoDup cands
   /\ exists g', Ghost.update g dt maze rng = Ok (g', random.advance rng)
        /\ nth_error cands (random.randbelow (length cands) rng)
           = Some (Entity.direction (Ghost.base g'))
        /\ Entity.direction (Ghost.base g') <> Direction.opposite heading)
  /\ (~ (In heading possible /\ In (Direction.opposite heading) possible) ->
      Ghost.candidates g maze = Ok possible
      /\ (possible <> [] ->
          exists g', Ghost.update g dt maze rng = Ok (g', random.advance rng)
            /\ nth_error possible (random.randbelow (length possible) rng)
               = Some (Entity.direction (Ghost.base g')))
      /\ (forall d, In d possible ->
          exists rng0 g',
            Ghost.update g dt maze rng0 = Ok (g', random.advance rng0)
            /\ Entity.direction (Ghost.base g') = d)).
Proof.
  intros heading cands Hc Hn.
  destruct (neighbours_not_none _ _ _ Hn) as [Hnd Hnone].
  split.
  - intros Hhead Hrev.
    assert (Hne : Direction.opposite heading <> heading).
    { apply opposite_neq. intros E. rewrite E in Hhead. contradiction. }
    assert (Hlen : (1 <? len possible)%Z = true).
    { apply Z.ltb_lt. unfold len.
      pose proof (remove_length _ _ Hrev) as Hl.
      assert (Hin : In heading cands)
        by (apply remove_In; [assumption | split; [assumption | congruence]]).
      fold cands in Hl. destruct cands; [contradiction | simpl in Hl; lia]. }
    assert (Hcands : Ghost.candidates g maze = Ok cands).
    { rewrite (candidates_spec _ _ _ Hn). fold heading.
      apply contains_In in Hhead, Hrev. now rewrite Hhead, Hrev, Hlen. }
    split; [exact Hcands|].
    split; [intros d; now apply remove_In|].
    split; [now apply remove_NoDup|].
    assert (Hnonempty : cands <> []).
    { intros E. assert (Hin : In heading cands)
        by (apply remove_In; [assumption | split; [assumption | congruence]]).
      rewrite E in Hin. contradiction. }
    destruct (choice_nonempty cands rng Hnonempty) as (d & Hch & Hnth & Hin).
    assert (Ht : Ghost.turn g maze rng
                 = Ok (Ghost.set_base g (Entity.set_direction (Ghost.base g) d),
                       random.advance rng)).
    { unfold Ghost.turn. rewrite Hc, Hcands. simpl.
      destruct cands as [|d0 rest]; [congruence|]. now rewrite Hch. }
    destruct (ghost_update_after_turn _ _ dt _ _ _ Ht) as (g' & Hup & Hd & _).
    exists g'. split; [exact Hup|]. simpl in Hd. rewrite Hd.
    split; [exact Hnth|]. apply remove_In in Hin; tauto.
  - intros Hnot.
    assert (Hcands : Ghost.candidates g maze = Ok possible).
    { rewrite (candidates_spec _ _ _ Hn). fold heading.
      destruct (Ghost.contains heading possible) eqn:E1; [|reflexivity].
      destruct (Ghost.contains (Direction.opposite heading) possible) eqn:E2;
        [|now rewrite andb_false_r].
      exfalso. apply Hnot. split; now apply contains_In. }
    assert (Hturn : forall d rng0,
              random.choice possible rng0 = Ok (d, random.advance rng0) ->
              exists g', Ghost.update g dt maze rng0 = Ok (g', random.advance rng0)
                /\ Entity.direction (Ghost.base g') = d).
    { intros d rng0 Hch.
      assert (Ht : Ghost.turn g maze rng0
                   = Ok (Ghost.set_base g (Entity.set_direction (Ghost.base g) d),
                         random.advance rng0)).
      { unfold Ghost.turn. rewrite Hc, Hcands. simpl.
        destruct possible as [|d0 rest];
          [unfold random.choice in Hch;
           destruct (random.randbelow (length []) rng0) in Hch; discriminate|].
        now rewrite Hch. }
      destruct (ghost_update_after_turn _ _ dt _ _ _ Ht) as (g' & Hup & Hd & _).
      exists g'. split; [exact Hup|]. simpl in Hd. exact Hd. }
    split; [exact Hcands|]. split.
    + intros Hnonempty.
      destruct (choice_nonempty possible rng Hnonempty) as (d & Hch & Hnth & _).
      destruct (Hturn d rng Hch) as (g' & Hup & Hd).
      exists g'. split; [exact Hup|]. now rewrite Hd.
    + intros d Hd. destruct (choice_any possible d Hd) as [rng0 Hch].
      destruct (Hturn d rng0 Hch) as (g' & Hup & Hd').
      exists rng0, g'. split; assumption.
Qed.

Lemma ghost_excludes_reverse_when_heading_is_free_witness :
  let g := ghost_at (Maze.grid_to_world (9, 8)%Z) Direction.LEFT in
  let b := ghost_at (Maze.grid_to_world (7, 8)%Z) Direction.LEFT in
  (Entity.is_centered (Ghost.base g) = true
   /\ Ghost.neighbours the_maze (9, 8)%Z Ghost.all_dirs []
      = Ok [Direction.UP; Direction.LEFT; Direction.RIGHT]
   /\ Ghost.candidates g the_maze = Ok [Direction.UP; Direction.LEFT])
  /\ (Entity.is_centered (Ghost.base b) = true
      /\ Ghost.neighbours the_maze (7, 8)%Z Ghost.all_dirs []
         = Ok [Direction.DOWN; Direction.RIGHT]
      /\ Ghost.candidates b the_maze = Ok [Direction.DOWN; Direction.RIGHT]
      /\ exists rng0 b',
           Ghost.update b 1 the_maze rng0 = Ok (b', random.advance rng0)
           /\ Entity.direction (Ghost.base b') = Direction.RIGHT).
Proof.
  intros g b. split.
  - split; [reflexivity|]. split; [reflexivity|].
    apply (ghost_excludes_reverse_when_heading_is_free g 1 the_maze sample_rng
             [Direction.UP; Direction.LEFT; Direction.RIGHT]).
    + reflexivity.
    + reflexivity.
    + right; left; reflexivity.
    + right; right; left; reflexivity.
  - split; [reflexivity|]. split; [reflexivity|].
    destruct (ghost_excludes_reverse_when_heading_is_free b 1 the_maze sample_rng
                [Direction.DOWN; Direction.RIGHT] eq_refl eq_refl)
      as [_ Hblocked].
    destruct Hblocked as (Hcands & _ & Hany).
    + intros [[E | [E | []]] _]; discriminate.
    + split; [exact Hcands|]. apply Hany. right; left; reflexivity.
Defined.

(** C2, as stated, fails when the current heading is blocked: a ghost
    centered in cell (7, 8) of the maze and heading left has two non-wall
    neighbour directions, down and right; right is the reverse of its
    heading, it stays a candidate, and [update] can choose it. *)
Lemma ghost_reverses_when_heading_is_blocked :
  let g := ghost_at (Maze.grid_to_world (7, 8)%Z) Direction.LEFT in
  Entity.is_centered (Ghost.base g) = true
  /\ Ghost.neighbours the_maze (Entity.get_grid_pos (Ghost.base g))
       Ghost.all_dirs []
     = Ok [Direction.DOWN; Direction.RIGHT]
  /\ Direction.opposite (Entity.direction (Ghost.base g)) = Direction.RIGHT
  /\ Ghost.candidates g the_maze = Ok [Direction.DOWN; Direction.RIGHT]
  /\ exists g' rng',
       Ghost.update g (1 # 60) the_maze (random.advance sample_rng) = Ok (g', rng')
       /\ Entity.direction (Ghost.base g') = Direction.RIGHT.
Proof.
  intros g. repeat (split; [reflexivity|]).
  eexists _, _. split; reflexivity.
Qed.

(** The direction held after the first [if] of [_move]. *)
Lemma commit_spec (p : Player.t) (maze : Maze.t) (w_next : bool) :
  (Entity.is_centered (Player.base p) = true ->
   Maze.is_wall maze
     (Entity.ahead (Entity.get_grid_pos (Player.base p)) (Player.next_direction p))
   = Ok w_next) ->
  exists p1, Player.commit p maze = Ok p1
    /\ Entity.direction (Player.base p1)
       = (if Entity.is_centered (Player.base p) && negb w_next
          then Player.next_direction p
          else Entity.direction (Player.base p))
    /\ Entity.position (Player.base p1) = Entity.position (Player.base p)
    /\ Entity.speed (Player.base p1) = Entity.speed (Player.base p).
Proof.
  intros Hw. unfold Player.commit.
  destruct (Entity.is_centered (Player.base p)) eqn:Ec.
  - rewrite (Hw eq_refl). simpl. destruct w_next; simpl.
    + exists p. repeat split.
    + eexists. split; [reflexivity|]. repeat split.
  - exists p. repeat split.
Qed.

Lemma is_centered_position (e1 e2 : Entity.t) :
  Entity.position e1 = Entity.position e2 ->
  Entity.is_centered e1 = Entity.is_centered e2.
Proof. intros E. unfold Entity.is_centered. now rewrite E. Qed.

Lemma get_grid_pos_position (e1 e2 : Entity.t) :
  Entity.position e1 = Entity.position e2 ->
  Entity.get_grid_pos e1 = Entity.get_grid_pos e2.
Proof. intros E. unfold Entity.get_grid_pos. now rewrite E. Qed.




(** [update] leaves the velocity as [_move] sets it, the pending direction
    being the one the held keys select. *)
Lemma player_update_velocity `{Libm} (p p1 : Player.t) (dt : Q)
    (input_manager : InputManager.t) (maze : Maze.t) :
  Player._move (Player._handle_input p input_manager) dt maze = Ok p1 ->
  exists p', Player.update p dt input_manager maze = Ok p'
    /\ Player.base p' = Player.base p1.
Proof.
  intros Hm. unfold Player.update. rewrite Hm.
  cbv beta iota zeta delta [mbind Result_bind].
  unfold Player._animate_mouth.
  destruct (Qlt_bool 0 (Vector2.length (Entity.velocity (Player.base p1))));
    cbn [Player.is_invulnerable Player.set_mouth_angle];
    destruct (Player.is_invulnerable p1);
    try destruct (Qle_bool _ 0); eexists; split; reflexivity.
Qed.

(* ===================================================================== *)
(** * Sessions                                                            *)
(* ===================================================================== *)

Section Sessions.
Context `{Libm}.

Let uneaten (st : Maze.parse_state) : Prop :=
  Maze.all_uneaten (Maze.ps_pellets st).

Lemma parse_char_uneaten (r c : Z) (char : ascii) (st : Maze.parse_state) :
  uneaten st -> uneaten (Maze.parse_char r c char st).
Proof.
  unfold uneaten, Maze.all_uneaten, Maze.parse_char. intros Hst.
  destruct (Ascii.eqb char "."); [|destruct (Ascii.eqb char "P");
    [|destruct (Ascii.eqb char "S"); [|destruct (Ascii.eqb char "G")]]];
    simpl; try assumption;
    apply Forall_app; (split; [assumption|]); repeat constructor.
Qed.

Lemma parse_row_uneaten (r : Z) (row : list ascii) :
  forall c st, uneaten st -> uneaten (Maze.parse_row r c row st).
Proof.
  induction row as [|char row IH]; intros c st Hst; simpl; [assumption|].
  apply IH. now apply parse_char_uneaten.
Qed.

Lemma parse_rows_uneaten (rows : list string) :
  forall r st, uneaten st -> uneaten (Maze.parse_rows r rows st).
Proof.
  induction rows as [|row rows IH]; intros r st Hst; simpl; [assumption|].
  apply IH. now apply parse_row_uneaten.
Qed.

(** A new maze has every pellet uneaten. *)
Lemma maze_init_uneaten (rng : random.state) :
  Maze.all_uneaten (Maze.pellets (fst (Maze.init rng))).
Proof.
  unfold Maze.init. cbn [fst Maze.pellets]. apply (parse_rows_uneaten Maze.LAYOUT). constructor.
Qed.

(** What [_parse_layout] reads from the layout does not depend on the
    random numbers it draws, which only set the animation timers: two
    scans of the same characters agree on the pellets, up to the timers,
    on the player's start and on the ghosts' spawn points. *)
Let same_scan (st st0 : Maze.parse_state) : Prop :=
  List.map pellet_state (Maze.ps_pellets st)
  = List.map pellet_state (Maze.ps_pellets st0)
  /\ Maze.ps_player_start st = Maze.ps_player_start st0
  /\ Maze.ps_ghost_starts st = Maze.ps_ghost_starts st0
  /\ Maze.ps_ghost_spawn_index st = Maze.ps_ghost_spawn_index st0.

Lemma parse_char_same_scan (r c : Z) (char : ascii) (st st0 : Maze.parse_state) :
  same_scan st st0 ->
  same_scan (Maze.parse_char r c char st)
            (@Maze.parse_char sample_libm r c char st0).
Proof.
  unfold same_scan, Maze.parse_char. intros (Hp & Hs & Hg & Hi).
  destruct (Ascii.eqb char "."); [|destruct (Ascii.eqb char "P");
    [|destruct (Ascii.eqb char "S"); [|destruct (Ascii.eqb char "G")]]];
    cbn [Pellet.init random.uniform random.random Maze.ps_pellets
         Maze.ps_player_start Maze.ps_ghost_starts Maze.ps_ghost_spawn_index];
    rewrite ?List.map_app, ?Hp, ?Hs, ?Hg, ?Hi; repeat split; assumption.
Qed.

Lemma parse_row_same_scan (r : Z) (row : list ascii) :
  forall c st st0, same_scan st st0 ->
    same_scan (Maze.parse_row r c row st)
              (@Maze.parse_row sample_libm r c row st0).
Proof.
  induction row as [|char row IH]; intros c st st0 Hst;
    cbn [Maze.parse_row]; [assumption|].
  apply IH. now apply parse_char_same_scan.
Qed.

Lemma parse_rows_same_scan (rows : list string) :
  forall r st st0, same_scan st st0 ->
    same_scan (Maze.parse_rows r rows st)
              (@Maze.parse_rows sample_libm r rows st0).
Proof.
  induction rows as [|row rows IH]; intros r st st0 Hst;
    cbn [Maze.parse_rows]; [assumption|].
  apply IH. now apply parse_row_same_scan.
Qed.

(** The maze of every session: 210 pellets, 6 of them power pellets, the
    player's start in cell (10, 11) and one ghost, blinky, in cell
    (10, 8). *)
Lemma maze_init_contents (rng : random.state) :
  let mz := fst (Maze.init rng) in
  length (Maze.pellets mz) = 210%nat
  /\ length (List.filter Pellet.is_power (Maze.pellets mz)) = 6%nat
  /\ Maze.player_start_pos mz = Maze.grid_to_world (10, 11)%Z
  /\ Maze.ghost_start_positions mz
     = [("blinky"%string, Maze.grid_to_world (10, 8)%Z)].
Proof.
  unfold Maze.init. cbn [fst Maze.pellets Maze.player_start_pos
                         Maze.ghost_start_positions].
  destruct (parse_rows_same_scan Maze.LAYOUT 0%Z
              {| Maze.ps_pellets := []; Maze.ps_player_start := None;
                 Maze.ps_ghost_starts := []; Maze.ps_ghost_spawn_index := 0%Z;
                 Maze.ps_rng := rng |}
              {| Maze.ps_pellets := []; Maze.ps_player_start := None;
                 Maze.ps_ghost_starts := []; Maze.ps_ghost_spawn_index := 0%Z;
                 Maze.ps_rng := sample_rng |}) as (Hp & Hs & Hg & _).
  { repeat split. }
  rewrite Hs, Hg. split; [|split; [|split]].
  - rewrite <- (List.length_map pellet_state), Hp, List.length_map.
    vm_compute. reflexivity.
  - assert (Hf : forall l, List.map (fun x => snd (fst (fst x)))
                             (List.filter (fun x => snd (fst (fst x)))
                                (List.map pellet_state l))
                           = List.map Pellet.is_power
                               (List.filter Pellet.is_power l)).
    { induction l as [|a l IH]; [reflexivity|]. cbn [List.map List.filter].
      unfold pellet_state at 1. cbn [fst snd].
      destruct (Pellet.is_power a) eqn:E; cbn [List.map]; rewrite IH;
        [unfold pellet_state; cbn [fst snd]; now rewrite E | reflexivity]. }
    rewrite <- (List.length_map Pellet.is_power), <- Hf, Hp, Hf, List.length_map.
    vm_compute. reflexivity.
  - vm_compute. reflexivity.
  - vm_compute. reflexivity.
Qed.

(** What [GameScene(...)] builds. *)
Lemma game_scene_init_fresh (rng : random.state) :
  let s := fst (GameScene.init rng) in
  GameScene.score s = 0%Z
  /\ Maze.all_uneaten (Maze.pellets (GameScene.maze s))
  /\ ParticleSystem.particles (GameScene.particle_system s) = []
  /\ GameScene.player s = Player.init (Maze.player_start_pos (GameScene.maze s))
  /\ GameScene.ghosts s
     = List.map (fun '(nm, pos) => Ghost.init pos Settings.COLOR_RED nm)
         (Maze.ghost_start_positions (GameScene.maze s))
  /\ GameScene.is_power_pellet_active s = false
  /\ GameScene.power_pellet_timer s = 0.
Proof.
  unfold GameScene.init.
  pose proof (maze_init_uneaten rng) as Hm.
  destruct (Maze.init rng) as [mz rng']. simpl in *. repeat split. exact Hm.
Qed.

Lemma change_state_playing (e : GameEngine.t) (rng : random.state) :
  is_Some (GameEngine.scenes e !! PLAYING) ->
  let id := fresh (dom (GameEngine.objects e)) in
  GameEngine.change_state e PLAYING rng
  = Ok ({| GameEngine.running := GameEngine.running e;
           GameEngine.sound_manager := GameEngine.sound_manager e;
           GameEngine.input_manager := GameEngine.input_manager e;
           GameEngine.objects :=
             <[id := Game (fst (GameScene.init rng))]> (GameEngine.objects e);
           GameEngine.scenes := <[PLAYING := id]> (GameEngine.scenes e);
           GameEngine.current_state := PLAYING;
           GameEngine.current_scene := id |},
        snd (GameScene.init rng)).
Proof.
  intros Hreg id. unfold GameEngine.change_state, GameEngine.new_object.
  rewrite bool_decide_eq_true_2 by assumption.
  rewrite bool_decide_eq_true_2 by reflexivity.
  destruct (GameScene.init rng) as [game rng'].
  cbv beta iota zeta delta [fst snd]. fold id. now rewrite lookup_insert_eq.
Qed.

Lemma init_registry (sm : SoundManager.t) (out : SoundManager.mixer)
    (rng : random.state) :
  exists e out' rng', GameEngine.init sm out rng = Ok (e, out', rng')
    /\ is_Some (GameEngine.scenes e !! PLAYING)
    /\ GameEngine.registry_allocated e.
Proof.
  unfold GameEngine.init, MainMenuScene.init, GameEngine.new_object.
  destruct (play_returns sm "intro" 0 out) as [[sm' out'] Hplay].
  rewrite Hplay.
  destruct (GameScene.init rng) as [game rng'].
  cbv beta iota zeta delta [mbind Result_bind].
  rewrite lookup_insert_ne by discriminate. rewrite lookup_insert_eq.
  eexists _, _, _. split; [reflexivity|].
  cbn [GameEngine.scenes GameEngine.objects]. split.
  - rewrite lookup_insert_eq. eauto.
  - intros st id. cbn [GameEngine.scenes GameEngine.objects]. intros Hst.
    apply lookup_insert_Some in Hst. destruct Hst as [[_ <-] | [_ Hst]].
    + rewrite dom_insert_L. set_solver.
    + apply lookup_insert_Some in Hst. destruct Hst as [[_ <-] | [_ Hst]].
      * rewrite !dom_insert_L. set_solver.
      * rewrite lookup_empty in Hst. discriminate.
Qed.

(** C8.  On an engine whose registry holds a Playing scene, as every
    engine built by [__init__] does, two calls of [change_state(PLAYING)]
    in a row both succeed.  The scene active afterwards is a newly
    allocated object, the session [GameScene(...)] builds from the random
    generator alone, and whatever the engine held before it is: score 0,
    the 210 pellets of the layout, all uneaten, no particle, a player
    with 3 lives standing still on its start cell (10, 11) and heading
    left, one ghost, blinky, standing still on its spawn cell (10, 8) and
    heading up, and no power pellet active.  The registry no longer
    refers to the scene of the first call, whose object differs from the
    new one. *)
Theorem change_state_playing_builds_new_session (e : GameEngine.t)
    (rng : random.state) :
  is_Some (GameEngine.scenes e !! PLAYING) ->
  GameEngine.registry_allocated e ->
  exists e1 rng1 e2 rng2,
    GameEngine.change_state e PLAYING rng = Ok (e1, rng1)
    /\ GameEngine.change_state e1 PLAYING rng1 = Ok (e2, rng2)
    /\ GameEngine.current_state e2 = PLAYING
    /\ GameEngine.scenes e2 !! PLAYING = Some (GameEngine.current_scene e2)
    /\ GameEngine.active_scene e2 = Some (Game (fst (GameScene.init rng1)))
    /\ (let s := fst (GameScene.init rng1) in
        GameScene.score s = 0%Z
        /\ length (Maze.pellets (GameScene.maze s)) = 210%nat
        /\ Maze.all_uneaten (Maze.pellets (GameScene.maze s))
        /\ ParticleSystem.particles (GameScene.particle_system s) = []
        /\ (let pl := GameScene.player s in
            Player.lives pl = 3%Z
            /\ Vector2.x (Entity.position (Player.base pl)) == 384
            /\ Vector2.y (Entity.position (Player.base pl)) == 488
            /\ Entity.start_pos (Player.base pl) = Entity.position (Player.base pl)
            /\ Entity.velocity (Player.base pl) = Vector2.make 0 0
            /\ Entity.direction (Player.base pl) = Direction.LEFT
            /\ Player.next_direction pl = Direction.LEFT
            /\ Entity.speed (Player.base pl) == 160
            /\ Player.is_invulnerable pl = false)
        /\ (exists g, GameScene.ghosts s = [g]
            /\ Ghost.name g = "blinky"%string
            /\ Ghost.color g = (255, 0, 0)%Z
            /\ Vector2.x (Entity.position (Ghost.base g)) == 384
            /\ Vector2.y (Entity.position (Ghost.base g)) == 392
            /\ Entity.start_pos (Ghost.base g) = Entity.position (Ghost.base g)
            /\ Entity.velocity (Ghost.base g) = Vector2.make 0 0
            /\ Entity.direction (Ghost.base g) = Direction.UP
            /\ Entity.speed (Ghost.base g) == 140)
        /\ GameScene.is_power_pellet_active s = false
        /\ GameScene.power_pellet_timer s == 0)
    /\ (GameEngine.current_scene e2 ∉ dom (GameEngine.objects e1))
    /\ GameEngine.current_scene e2 <> GameEngine.current_scene e1
    /\ (forall st, (GameEngine.scenes e2 !! st)
                   <> Some (GameEngine.current_scene e1)).
Proof.
  intros Hreg Halloc.
  pose proof (change_state_playing e rng Hreg) as H1. cbv zeta in H1.
  set (id1 := fresh (dom (GameEngine.objects e))) in *.
  match type of H1 with _ = Ok (?x, ?r) => set (e1 := x) in *; set (rng1 := r) in * end.
  assert (Hreg1 : is_Some (GameEngine.scenes e1 !! PLAYING)).
  { unfold e1. cbn [GameEngine.scenes]. rewrite lookup_insert_eq. eauto. }
  pose proof (change_state_playing e1 rng1 Hreg1) as H2. cbv zeta in H2.
  set (id2 := fresh (dom (GameEngine.objects e1))) in *.
  match type of H2 with _ = Ok (?x, ?r) => set (e2 := x) in *; set (rng2 := r) in * end.
  assert (Hfresh1 : id1 ∉ dom (GameEngine.objects e)) by apply is_fresh.
  assert (Hfresh2 : id2 ∉ dom (GameEngine.objects e1)) by apply is_fresh.
  assert (Hne : id2 <> id1).
  { intros E. apply Hfresh2. rewrite E. unfold e1. cbn [GameEngine.objects].
    apply elem_of_dom. rewrite lookup_insert_eq. eauto. }
  exists e1, rng1, e2, rng2.
  split; [exact H1|]. split; [exact H2|]. split; [reflexivity|].
  split; [unfold e2; cbn [GameEngine.scenes GameEngine.current_scene];
          apply lookup_insert_eq|].
  split; [unfold GameEngine.active_scene, e2;
          cbn [GameEngine.objects GameEngine.current_scene];
          apply lookup_insert_eq|].
  split.
  { cbv zeta.
    destruct (game_scene_init_fresh rng1) as (Hsc & Hun & Hpa & Hpl & Hgh & Hpw & Hti).
    cbv zeta in Hsc, Hun, Hpa, Hpl, Hgh, Hpw, Hti.
    assert (Hmz : GameScene.maze (fst (GameScene.init rng1))
                  = fst (Maze.init rng1)).
    { unfold GameScene.init. destruct (Maze.init rng1). reflexivity. }
    destruct (maze_init_contents rng1) as (Hlen & _ & Hstart & Hspawn).
    cbv zeta in Hlen, Hstart, Hspawn.
    rewrite Hmz in Hpl, Hgh |- *. rewrite Hstart in Hpl. rewrite Hspawn in Hgh.
    split; [exact Hsc|]. split; [exact Hlen|].
    split; [rewrite <- Hmz; exact Hun|]. split; [exact Hpa|].
    split; [rewrite Hpl; repeat split; reflexivity|].
    split; [eexists; split; [exact Hgh|]; repeat split; reflexivity|].
    split; [exact Hpw | rewrite Hti; reflexivity]. }
  split; [exact Hfresh2|]. split; [exact Hne|].
  intros st Hst. unfold e2, e1 in Hst.
  cbn [GameEngine.scenes GameEngine.current_scene] in Hst.
  apply lookup_insert_Some in Hst. destruct Hst as [[_ E] | [Hst1 Hst]].
  - congruence.
  - apply lookup_insert_Some in Hst. destruct Hst as [[E _] | [_ Hst]].
    + congruence.
    + apply Halloc in Hst. contradiction.
Qed.
End Sessions.

Lemma change_state_playing_builds_new_session_witness :
  exists e out rng,
    @GameEngine.init sample_libm
      {| SoundManager.sounds := ∅; SoundManager.enabled := true |} [] sample_rng
    = Ok (e, out, rng)
    /\ exists e1 rng1 e2 rng2 s,
         @GameEngine.change_state sample_libm e PLAYING rng = Ok (e1, rng1)
         /\ @GameEngine.change_state sample_libm e1 PLAYING rng1 = Ok (e2, rng2)
         /\ GameEngine.active_scene e2 = Some (Game s)
         /\ GameScene.score s = 0%Z
         /\ length (Maze.pellets (GameScene.maze s)) = 210%nat
         /\ length (GameScene.ghosts s) = 1%nat
         /\ Player.lives (GameScene.player s) = 3%Z.
Proof.
  destruct (@init_registry sample_libm
              {| SoundManager.sounds := ∅; SoundManager.enabled := true |}
              [] sample_rng) as (e & out & rng & Hinit & Hreg & Halloc).
  exists e, out, rng. split; [exact Hinit|].
  destruct (@change_state_playing_builds_new_session sample_libm e rng Hreg Halloc)
    as (e1 & rng1 & e2 & rng2 & H1 & H2 & _ & _ & Hact & Hs & _).
  cbv zeta in Hs.
  destruct Hs as (Hsc & Hlen & _ & _ & (Hlives & _) & (g & Hg & _) & _).
  exists e1, rng1, e2, rng2, (fst (@GameScene.init sample_libm rng1)).
  split; [exact H1|]. split; [exact H2|]. split; [exact Hact|].
  split; [exact Hsc|]. split; [exact Hlen|].
  split; [rewrite Hg; reflexivity | exact Hlives].
Defined.

(* ===================================================================== *)
(** * InputManager                                                        *)
(* ===================================================================== *)

Lemma fold_handle_just_pressed (evs : list pygame.event) :
  forall (st : InputManager.t) (k : Z),
    k ∈ InputManager.keys_just_pressed (fold_left InputManager.handle evs st)
    <-> k ∈ InputManager.keys_just_pressed st \/ In (pygame.KEYDOWN k) evs.
Proof.
  induction evs as [|ev evs IH]; intros st k; simpl; [tauto|].
  rewrite IH. destruct ev as [key | key |]; simpl.
  - rewrite elem_of_union, elem_of_singleton. split.
    + intros [[-> | Hk] | Hin]; auto.
    + intros [Hk | [E | Hin]]; auto. inversion E; auto.
  - destruct (bool_decide (key ∈ InputManager.keys_pressed st)); simpl;
      split; intros [Hk | Hin]; auto; destruct Hin as [E | Hin]; auto;
      discriminate.
  - split; intros [Hk | Hin]; auto. destruct Hin as [E | Hin]; auto.
    discriminate.
Qed.

(** X1.  The just-pressed set after [update] holds exactly the keys with a
    key-down event in this batch, whatever it held before. *)
Theorem update_just_pressed_exactly_keydowns (self : InputManager.t)
    (events : list pygame.event) (key : Z) :
  InputManager.was_key_just_pressed (InputManager.update self events) key = true
  <-> In (pygame.KEYDOWN key) events.
Proof.
  unfold InputManager.was_key_just_pressed, InputManager.update.
  rewrite bool_decide_eq_true, fold_handle_just_pressed. simpl.
  rewrite elem_of_empty. tauto.
Qed.

Lemma handle_keyup_not_pressed (st : InputManager.t) (k : Z) :
  (k ∉ InputManager.keys_pressed (InputManager.handle st (pygame.KEYUP k)))
  /\ InputManager.keys_just_pressed (InputManager.handle st (pygame.KEYUP k))
     = InputManager.keys_just_pressed st.
Proof.
  simpl. destruct (bool_decide (k ∈ InputManager.keys_pressed st)) eqn:E; simpl.
  - split; [|reflexivity].
    rewrite elem_of_difference, elem_of_singleton. tauto.
  - apply bool_decide_eq_false in E. split; [assumption | reflexivity].
Qed.

(** X2.  The last event about a key decides whether it is held: after a final
    key-up it is not held, after a final key-down it is.  A key pressed
    and released within one batch is reported as just pressed and not
    held. *)
Theorem update_last_event_decides_held (self : InputManager.t)
    (events : list pygame.event) (key : Z) :
  InputManager.is_key_down
    (InputManager.update self (events ++ [pygame.KEYUP key])) key = false
  /\ InputManager.is_key_down
       (InputManager.update self (events ++ [pygame.KEYDOWN key])) key = true
  /\ (In (pygame.KEYDOWN key) events ->
      InputManager.was_key_just_pressed
        (InputManager.update self (events ++ [pygame.KEYUP key])) key = true).
Proof.
  unfold InputManager.is_key_down, InputManager.update.
  rewrite !fold_left_app. cbn [fold_left].
  split; [|split].
  - apply bool_decide_eq_false. apply handle_keyup_not_pressed.
  - apply bool_decide_eq_true. simpl.
    rewrite elem_of_union, elem_of_singleton. now left.
  - intros Hin. unfold InputManager.was_key_just_pressed.
    apply bool_decide_eq_true.
    destruct (handle_keyup_not_pressed
                (fold_left InputManager.handle events
                   {| InputManager.keys_pressed := InputManager.keys_pressed self;
                      InputManager.keys_just_pressed := ∅ |}) key) as [_ ->].
    apply fold_handle_just_pressed. now right.
Qed.

Lemma update_last_event_decides_held_witness :
  let self := {| InputManager.keys_pressed := ∅;
                 InputManager.keys_just_pressed := ∅ |} in
  let after := InputManager.update self
                 ([pygame.KEYDOWN pygame.K_UP] ++ [pygame.KEYUP pygame.K_UP]) in
  InputManager.was_key_just_pressed after pygame.K_UP = true
  /\ InputManager.is_key_down after pygame.K_UP = false.
Proof.
  intros self after.
  destruct (update_last_event_decides_held self [pygame.KEYDOWN pygame.K_UP]
              pygame.K_UP) as (Hup & _ & Hjust).
  split; [apply Hjust; left; reflexivity | exact Hup].
Defined.

Lemma fold_handle_untouched (evs : list pygame.event) (k : Z) :
  ~ In (pygame.KEYDOWN k) evs -> ~ In (pygame.KEYUP k) evs ->
  forall st : InputManager.t,
    k ∈ InputManager.keys_pressed (fold_left InputManager.handle evs st)
    <-> k ∈ InputManager.keys_pressed st.
Proof.
  induction evs as [|ev evs IH]; intros Hd Hu st; simpl; [tauto|].
  simpl in Hd, Hu. rewrite IH by tauto.
  destruct ev as [key | key |]; simpl.
  - assert (key <> k) by (intros ->; tauto).
    rewrite elem_of_union, elem_of_singleton. split; [|auto].
    intros [E | Hk]; [congruence | assumption].
  - assert (key <> k) by (intros ->; tauto).
    destruct (bool_decide (key ∈ InputManager.keys_pressed st)); simpl;
      [|tauto].
    rewrite elem_of_difference, elem_of_singleton. split; [tauto|].
    intros Hk. split; [assumption | congruence].
  - tauto.
Qed.

(** A key with no event in the batch keeps its held state. *)
Theorem update_keeps_untouched_keys (self : InputManager.t)
    (events : list pygame.event) (key : Z) :
  ~ In (pygame.KEYDOWN key) events ->
  ~ In (pygame.KEYUP key) events ->
  InputManager.is_key_down (InputManager.update self events) key
  = InputManager.is_key_down self key.
Proof.
  intros Hd Hu. unfold InputManager.is_key_down, InputManager.update.
  apply bool_decide_ext. now rewrite fold_handle_untouched.
Qed.

Lemma update_keeps_untouched_keys_witness :
  let self := {| InputManager.keys_pressed := {[pygame.K_LEFT]};
                 InputManager.keys_just_pressed := ∅ |} in
  InputManager.is_key_down
    (InputManager.update self [pygame.KEYDOWN pygame.K_UP; pygame.OTHER])
    pygame.K_LEFT
  = InputManager.is_key_down self pygame.K_LEFT.
Proof.
  intros self. apply update_keeps_untouched_keys.
  - simpl. intros [E | [E | []]]; discriminate.
  - simpl. intros [E | [E | []]]; discriminate.
Defined.

(* ===================================================================== *)
(** * Maze: wall queries on rectangular layouts                           *)
(* ===================================================================== *)

Lemma getitem_in_range {A} (l : list A) (i : Z) :
  (0 <= i < len l)%Z ->
  exists a, getitem l i = Ok a /\ nth_error l (Z.to_nat i) = Some a.
Proof.
  intros Hi. unfold getitem, len in *.
  assert (E1 : (i <? 0)%Z = false) by lia. rewrite E1.
  assert (E2 : ((0 <=? i)%Z && (i <? Z.of_nat (length l))%Z) = true) by lia.
  rewrite E2.
  destruct (nth_error l (Z.to_nat i)) as [a|] eqn:E; [eauto|].
  apply nth_error_None in E. lia.
Qed.

Lemma list_ascii_length (s : string) :
  length (list_ascii_of_string s) = String.length s.
Proof. induction s as [|ch s IH]; simpl; congruence. Qed.

Lemma list_ascii_nth (s : string) :
  forall n, nth_error (list_ascii_of_string s) n = String.get n s.
Proof.
  induction s as [|ch s IH]; intros [|n]; simpl; auto.
Qed.

Lemma str_getitem_in_range (s : string) (i : Z) :
  (0 <= i < str_len s)%Z ->
  exists ch, str_getitem s i = Ok ch /\ String.get (Z.to_nat i) s = Some ch.
Proof.
  intros Hi. unfold str_getitem, str_len in *.
  destruct (getitem_in_range (list_ascii_of_string s) i) as (ch & Hg & Hn).
  - unfold len. rewrite list_ascii_length. exact Hi.
  - exists ch. split; [exact Hg|]. now rewrite <- list_ascii_nth.
Qed.

(** X3.  When no row is shorter than row 0, [is_wall] returns for every cell,
    and it answers "not a wall" exactly for the cells inside the
    rectangle whose character is not the wall glyph. *)
Theorem is_wall_total_when_no_row_is_short (self : Maze.t) (row0 : string)
    (rest : list string) (c r : Z) :
  Maze.layout_str self = row0 :: rest ->
  Forall (fun row => (str_len row0 <= str_len row)%Z) rest ->
  exists wall, Maze.is_wall self (c, r) = Ok wall
    /\ (wall = false <->
        exists row char,
          (0 <= r)%Z /\ (0 <= c < str_len row0)%Z
          /\ nth_error (row0 :: rest) (Z.to_nat r) = Some row
          /\ String.get (Z.to_nat c) row = Some char
          /\ char <> "1"%char).
Proof.
  intros Hl Hrows. unfold Maze.is_wall. cbn [fst snd]. rewrite Hl.
  destruct ((0 <=? r)%Z && (r <? len (row0 :: rest))%Z) eqn:Er.
  - assert (Hr : (0 <= r < len (row0 :: rest))%Z) by lia.
    assert (E0 : getitem (row0 :: rest) 0 = Ok row0) by reflexivity.
    rewrite E0. cbn [mbind Result_bind].
    destruct ((0 <=? c)%Z && (c <? str_len row0)%Z) eqn:Ec.
    + assert (Hc : (0 <= c < str_len row0)%Z) by lia.
      destruct (getitem_in_range _ _ Hr) as (row & Hg & Hn).
      rewrite Hg. cbn [mbind Result_bind].
      assert (Hlen : (str_len row0 <= str_len row)%Z).
      { apply nth_error_In in Hn. destruct Hn as [<- | Hin]; [lia|].
        rewrite Forall_forall in Hrows. now apply Hrows, list_elem_of_In. }
      destruct (str_getitem_in_range row c) as (char & Hs & Hget); [lia|].
      rewrite Hs. cbn [mbind Result_bind]. eexists. split; [reflexivity|].
      rewrite negb_involutive. split.
      * intros E. exists row, char. repeat split; try lia; try assumption.
        intros ->. discriminate.
      * intros (row' & char' & _ & _ & Hn' & Hget' & Hne).
        rewrite Hn in Hn'. inversion Hn'; subst row'.
        rewrite Hget in Hget'. inversion Hget'; subst char'.
        apply Ascii.eqb_neq. exact Hne.
    + exists true. split; [reflexivity|]. split; [discriminate|].
      intros (row & char & _ & Hc & _). lia.
  - exists true. split; [reflexivity|]. split; [discriminate|].
    intros (row & char & Hr & _ & Hn & _).
    assert (Hlt : (Z.to_nat r < length (row0 :: rest))%nat)
      by (apply nth_error_Some; congruence).
    unfold len in Er. lia.
Qed.

Lemma is_wall_total_when_no_row_is_short_witness :
  let self := {| Maze.pellets := []; Maze.player_start_pos := Vector2.make 0 0;
                 Maze.ghost_start_positions := [];
                 Maze.ghost_house_exit := Vector2.make 0 0;
                 Maze.layout_str := ["111"; "1.11"; "111"]%string |} in
  exists wall, Maze.is_wall self (1, 1)%Z = Ok wall.
Proof.
  intros self.
  destruct (is_wall_total_when_no_row_is_short self "111" ["1.11"; "111"]%string
              1 1) as (wall & Hw & _).
  - reflexivity.
  - repeat constructor; vm_compute; discriminate.
  - exists wall. exact Hw.
Defined.

(* ===================================================================== *)
(** * Maze: points of a cell                                              *)
(* ===================================================================== *)

Lemma axis_cell_of_point (origin c : Z) (x : Q) :
  (0 <= c)%Z ->
  inject_Z (origin + c * Settings.CELL_SIZE) <= x ->
  x < inject_Z (origin + c * Settings.CELL_SIZE) + inject_Z Settings.CELL_SIZE ->
  int ((x - inject_Z origin) / inject_Z Settings.CELL_SIZE) = c.
Proof.
  intros Hc Hlo Hhi. rewrite inject_Z_plus, inject_Z_mult in Hlo, Hhi.
  unfold Qdiv. change (/ inject_Z Settings.CELL_SIZE) with (1 # 32).
  change (inject_Z Settings.CELL_SIZE) with 32 in Hlo, Hhi.
  apply int_unique; [assumption | lra | lra].
Qed.

(** X4.  Every point of the square of a cell (c, r) with c, r >= 0 within
    [cell_bound], its left and top edges included, is mapped to (c, r) by
    [world_to_grid], and an entity standing there reports that grid
    position. *)
Theorem points_of_a_cell_map_to_it (e : Entity.t) (c r : Z) :
  let '(x0, y0, width, height) := Maze.cell_rect c r in
  (0 <= c <= cell_bound)%Z -> (0 <= r <= cell_bound)%Z ->
  inject_Z x0 <= Vector2.x (Entity.position e) ->
  Vector2.x (Entity.position e) < inject_Z x0 + inject_Z width ->
  inject_Z y0 <= Vector2.y (Entity.position e) ->
  Vector2.y (Entity.position e) < inject_Z y0 + inject_Z height ->
  Maze.world_to_grid (Entity.position e) = (c, r)
  /\ Entity.get_grid_pos e = (c, r).
Proof.
  unfold Maze.cell_rect. intros [Hc _] [Hr _] Hx1 Hx2 Hy1 Hy2.
  unfold Maze.world_to_grid, Entity.get_grid_pos.
  rewrite (axis_cell_of_point _ c), (axis_cell_of_point _ r) by assumption.
  split; reflexivity.
Qed.

Lemma points_of_a_cell_map_to_it_witness :
  Entity.get_grid_pos
    (entity_at (Vector2.make 175 (1234 # 10)) Settings.PLAYER_SPEED Direction.UP)
  = (3, 0)%Z.
Proof.
  apply (points_of_a_cell_map_to_it
           (entity_at (Vector2.make 175 (1234 # 10)) Settings.PLAYER_SPEED
              Direction.UP) 3 0);
    try (split; vm_compute; discriminate); vm_compute; congruence.
Defined.

(* ===================================================================== *)
(** * Maze: the pellets of a new maze                                     *)
(* ===================================================================== *)

Section Parse.
Context `{Libm}.
Variable rng0 : random.state.

(** What [_parse_layout] keeps true while it scans: each pellet is
    uneaten, worth 50 or 10 points by its kind and sits on the center of
    a cell; one random number was drawn per pellet. *)
Let parsed (st : Maze.parse_state) : Prop :=
  Forall (fun p => Pellet.eaten p = false
                   /\ Pellet.points p = (if Pellet.is_power p then 50 else 10)%Z
                   /\ exists c r, (0 <= c)%Z /\ (0 <= r)%Z
                        /\ Pellet.position p = Maze.grid_to_world (c, r))
    (Maze.ps_pellets st)
  /\ random.cursor (Maze.ps_rng st)
     = (random.cursor rng0 + length (Maze.ps_pellets st))%nat
  /\ random.floats (Maze.ps_rng st) = random.floats rng0
  /\ random.ints (Maze.ps_rng st) = random.ints rng0.

Lemma parse_char_parsed (r c : Z) (char : ascii) (st : Maze.parse_state) :
  (0 <= r)%Z -> (0 <= c)%Z -> parsed st -> parsed (Maze.parse_char r c char st).
Proof.
  intros Hr Hc (Hall & Hcur & Hfl & Hin). unfold parsed, Maze.parse_char.
  destruct (Ascii.eqb char "."); [|destruct (Ascii.eqb char "P");
    [|destruct (Ascii.eqb char "S"); [|destruct (Ascii.eqb char "G")]]];
    cbn [Maze.ps_pellets Maze.ps_rng Pellet.init random.uniform random.random];
    try (split; [assumption | split; [assumption | split; assumption]]);
    (split; [apply Forall_app; split; [assumption|]; constructor; [|constructor];
               cbn [Pellet.eaten Pellet.points Pellet.is_power Pellet.position];
               split; [reflexivity|]; split; [reflexivity|];
               exists c, r; repeat split; assumption
            |]);
    rewrite length_app; cbn [length random.advance random.cursor
                               random.floats random.ints];
    (split; [lia | split; assumption]).
Qed.

Lemma parse_row_parsed (r : Z) (row : list ascii) :
  (0 <= r)%Z ->
  forall c st, (0 <= c)%Z -> parsed st -> parsed (Maze.parse_row r c row st).
Proof.
  intros Hr. induction row as [|char row IH]; intros c st Hc Hst;
    cbn [Maze.parse_row]; [assumption|].
  apply IH; [lia|]. now apply parse_char_parsed.
Qed.

Lemma parse_rows_parsed (rows : list string) :
  forall r st, (0 <= r)%Z -> parsed st -> parsed (Maze.parse_rows r rows st).
Proof.
  induction rows as [|row rows IH]; intros r st Hr Hst;
    cbn [Maze.parse_rows]; [assumption|].
  apply IH; [lia|]. apply parse_row_parsed; [assumption | lia | assumption].
Qed.

(** X5.  In the maze that [__init__] builds, every pellet is uneaten, is worth
    50 points if it is a power pellet and 10 otherwise, and lies exactly
    on [grid_to_world] of a cell with non-negative coordinates; building
    the maze draws exactly one random number per pellet. *)
Theorem new_maze_pellets_lie_on_cell_centers :
  Forall (fun p => Pellet.eaten p = false
                   /\ Pellet.points p = (if Pellet.is_power p then 50 else 10)%Z
                   /\ exists c r, (0 <= c)%Z /\ (0 <= r)%Z
                        /\ Pellet.position p = Maze.grid_to_world (c, r))
    (Maze.pellets (fst (Maze.init rng0)))
  /\ random.cursor (snd (Maze.init rng0))
     = (random.cursor rng0 + length (Maze.pellets (fst (Maze.init rng0))))%nat.
Proof.
  unfold Maze.init. cbn [fst snd Maze.pellets].
  destruct (parse_rows_parsed Maze.LAYOUT 0
              {| Maze.ps_pellets := []; Maze.ps_player_start := None;
                 Maze.ps_ghost_starts := []; Maze.ps_ghost_spawn_index := 0;
                 Maze.ps_rng := rng0 |}) as (Hall & Hcur & _).
  - lia.
  - repeat split; cbn [Maze.ps_pellets Maze.ps_rng length]; [constructor | lia].
  - split; assumption.
Qed.
End Parse.

(* ===================================================================== *)
(** * Pellet collisions: what one call does                               *)
(* ===================================================================== *)

Section CollisionSpec.
Context `{Libm}.
Variable player_pos : Vector2.t.

Lemma collide_spec (l : list Pellet.t) :
  forall score power ps rng,
    let hit := List.filter (Maze.hits player_pos) l in
    let '(l', score', power', ps', rng') :=
      Maze.collide player_pos l score power ps rng in
    l' = List.map (fun p => if Maze.hits player_pos p
                            then Pellet.set_eaten p else p) l
    /\ score' = (score + fold_right Z.add 0 (List.map Pellet.points hit))%Z
    /\ power' = (existsb Pellet.is_power hit || power)%bool
    /\ length (ParticleSystem.particles ps')
       = (length (ParticleSystem.particles ps) + 5 * length hit)%nat.
Proof.
  induction l as [|p l IH]; intros score power ps rng.
  - cbn. repeat split; lia.
  - cbn [List.filter List.map]. destruct (Maze.hits player_pos p) eqn:E.
    + rewrite collide_hit by assumption.
      pose proof (emit_length ps (Pellet.position p) Settings.COLOR_YELLOW 5
                    (20, 80) (2 # 10, 5 # 10) rng) as Hlen.
      destruct (ParticleSystem.emit ps (Pellet.position p) Settings.COLOR_YELLOW
                  5 (20, 80) (2 # 10, 5 # 10) rng) as [ps1 rng1].
      specialize (IH (score + Pellet.points p)%Z
                     (if Pellet.is_power p then true else power) ps1 rng1).
      cbv zeta in IH.
      destruct (Maze.collide player_pos l (score + Pellet.points p)%Z
                  (if Pellet.is_power p then true else power) ps1 rng1)
        as [[[[l' s'] pw'] ps'] rng'].
      destruct IH as (-> & -> & -> & Hps). cbn [fst] in Hlen.
      cbn [List.map fold_right existsb length]. repeat split.
      * lia.
      * destruct (Pellet.is_power p); cbn; [now rewrite orb_true_r | reflexivity].
      * rewrite Hps, Hlen. change (Z.to_nat 5) with 5%nat. lia.
    + rewrite collide_miss by assumption.
      specialize (IH score power ps rng). cbv zeta in IH.
      destruct (Maze.collide player_pos l score power ps rng)
        as [[[[l' s'] pw'] ps'] rng'].
      destruct IH as (-> & -> & -> & Hps). repeat split. exact Hps.
Qed.
End CollisionSpec.

Lemma check_pellet_collision_spec_aux `{Libm} (self : Maze.t)
    (player_pos : Vector2.t) (ps : ParticleSystem.t) (rng : random.state) :
  let hit := List.filter (Maze.hits player_pos) (Maze.pellets self) in
  let '(self', (score, power_pellet_eaten), ps', _) :=
    Maze.check_pellet_collision self player_pos ps rng in
  self' = Maze.set_pellets self
            (List.map (fun p => if Maze.hits player_pos p
                                then Pellet.set_eaten p else p)
               (Maze.pellets self))
  /\ score = fold_right Z.add 0%Z (List.map Pellet.points hit)
  /\ power_pellet_eaten = existsb Pellet.is_power hit
  /\ length (ParticleSystem.particles ps')
     = (length (ParticleSystem.particles ps) + 5 * length hit)%nat.
Proof.
  intros hit. unfold Maze.check_pellet_collision.
  pose proof (collide_spec player_pos (Maze.pellets self) 0 false ps rng) as Hc.
  cbv zeta in Hc. fold hit in Hc.
  destruct (Maze.collide player_pos (Maze.pellets self) 0 false ps rng)
    as [[[[l' s'] pw'] ps'] rng'].
  destruct Hc as (-> & -> & -> & Hps). repeat split.
  - now rewrite orb_false_r.
  - exact Hps.
Qed.

(** X6.  [check_pellet_collision] marks exactly the pellets that were uneaten
    and in reach as eaten and touches no other pellet; the score it
    returns is the sum of their points, the flag tells whether one of them
    is a power pellet, and five particles are emitted for each. *)
Theorem check_pellet_collision_scores_the_pellets_hit `{Libm} (self : Maze.t)
    (player_pos : Vector2.t) (ps : ParticleSystem.t) (rng : random.state) :
  let hit := List.filter (Maze.hits player_pos) (Maze.pellets self) in
  let '(self', (score, power_pellet_eaten), ps', _) :=
    Maze.check_pellet_collision self player_pos ps rng in
  self' = Maze.set_pellets self
            (List.map (fun p => if Maze.hits player_pos p
                                then Pellet.set_eaten p else p)
               (Maze.pellets self))
  /\ score = fold_right Z.add 0%Z (List.map Pellet.points hit)
  /\ power_pellet_eaten = existsb Pellet.is_power hit
  /\ length (ParticleSystem.particles ps')
     = (length (ParticleSystem.particles ps) + 5 * length hit)%nat.
Proof. apply check_pellet_collision_spec_aux. Qed.

(* ===================================================================== *)
(** * ParticleSystem: emission, ageing and drawing                        *)
(* ===================================================================== *)

Section Emission.
Context `{Libm}.
Import ParticleSystem.

(** The particle made from the three draws starting at [rng]. *)
Lemma emit_loop_step (n : nat) origin col (speed_range lifetime_range : Q * Q)
    acc rng :
  emit_loop (S n) origin col speed_range lifetime_range acc rng
  = let '(angle, r1) := random.uniform 0 (2 * pi) rng in
    let '(speed, r2) :=
      random.uniform (fst speed_range) (snd speed_range) r1 in
    let '(life, r3) :=
      random.uniform (fst lifetime_range) (snd lifetime_range) r2 in
    emit_loop n origin col speed_range lifetime_range
      (acc ++ [{| pos := origin;
                  vel := Vector2.make (cos angle * speed) (sin angle * speed);
                  lifetime := life; max_lifetime := life; color := col |}]) r3.
Proof. reflexivity. Qed.

Lemma emit_loop_spec (lo hi : Q) (n : nat) :
  forall origin col speed_range acc rng,
    exists new,
      fst (emit_loop n origin col speed_range (lo, hi) acc rng) = acc ++ new
      /\ length new = n
      /\ Forall (fun p => pos p = origin /\ color p = col
                          /\ max_lifetime p = lifetime p
                          /\ exists k, lifetime p
                                       = lo + (hi - lo) * random.floats rng k)
           new
      /\ random.cursor (snd (emit_loop n origin col speed_range (lo, hi) acc rng))
         = (random.cursor rng + 3 * n)%nat
      /\ random.floats (snd (emit_loop n origin col speed_range (lo, hi) acc rng))
         = random.floats rng.
Proof.
  induction n as [|n IH]; intros origin col speed_range acc rng.
  - exists []. cbn [emit_loop fst snd]. rewrite app_nil_r.
    repeat split; [constructor | lia].
  - rewrite emit_loop_step. unfold random.uniform, random.random.
    cbv beta iota zeta. cbn [fst snd].
    match goal with
    | |- context [emit_loop n origin col speed_range (lo, hi) (acc ++ [?p]) ?r] =>
        destruct (IH origin col speed_range (acc ++ [p]) r)
          as (new & Hnew & Hlen & Hall & Hcur & Hfl);
        exists (p :: new); rewrite Hnew, Hcur, Hfl, <- app_assoc
    end.
    cbn [app length random.advance random.cursor random.floats].
    split; [reflexivity|]. split; [lia|]. split; [|split; [lia | reflexivity]].
    constructor.
    + cbn [pos color max_lifetime lifetime]. repeat split. eexists.
      reflexivity.
    + eapply List.Forall_impl; [|exact Hall]. cbn beta.
      intros q (H1 & H2 & H3 & k & H4). repeat split; try assumption.
      exists k. exact H4.
Qed.

(** X7.  [emit] keeps the particles already there and appends [count] new
    ones (none when [count] is not positive), each at the origin, with the
    given color and with its remaining lifetime equal to its maximal
    lifetime; it draws three random numbers per particle. *)
Theorem emit_appends_count_particles (self : t) (origin : Vector2.t)
    (col : Z * Z * Z) (count : Z) (speed_range lifetime_range : Q * Q)
    (rng : random.state) :
  exists new,
    particles (fst (emit self origin col count speed_range lifetime_range rng))
    = particles self ++ new
    /\ length new = Z.to_nat count
    /\ Forall (fun p => pos p = origin /\ color p = col
                        /\ max_lifetime p = lifetime p) new
    /\ random.cursor
         (snd (emit self origin col count speed_range lifetime_range rng))
       = (random.cursor rng + 3 * Z.to_nat count)%nat.
Proof.
  destruct lifetime_range as [lo hi]. unfold emit.
  destruct (emit_loop_spec lo hi (Z.to_nat count) origin col speed_range
              (particles self) rng) as (new & Hnew & Hlen & Hall & Hcur & _).
  destruct (emit_loop (Z.to_nat count) origin col speed_range (lo, hi)
              (particles self) rng) as [ps rng'].
  cbn [fst snd particles] in *. exists new.
  repeat split; try assumption.
  eapply List.Forall_impl; [|exact Hall]. cbn beta. tauto.
Qed.

(** X8.  When the generator yields numbers of [0, 1) and the lifetime range
    (lo, hi) has lo <= hi, every particle that [emit] adds has a lifetime
    between lo and hi. *)
Theorem emit_lifetimes_lie_in_range (self : t) (origin : Vector2.t)
    (col : Z * Z * Z) (count : Z) (speed_range : Q * Q) (lo hi : Q)
    (rng : random.state) :
  (forall k, 0 <= random.floats rng k /\ random.floats rng k < 1) ->
  lo <= hi ->
  exists new,
    particles (fst (emit self origin col count speed_range (lo, hi) rng))
    = particles self ++ new
    /\ Forall (fun p => lo <= lifetime p /\ lifetime p <= hi) new.
Proof.
  intros Hrng Hrange. unfold emit.
  destruct (emit_loop_spec lo hi (Z.to_nat count) origin col speed_range
              (particles self) rng) as (new & Hnew & _ & Hall & _).
  destruct (emit_loop (Z.to_nat count) origin col speed_range (lo, hi)
              (particles self) rng) as [ps rng'].
  cbn [fst snd particles] in *. exists new. split; [assumption|].
  eapply List.Forall_impl; [|exact Hall]. cbn beta.
  intros p (_ & _ & _ & k & ->). destruct (Hrng k) as [H0 H1].
  assert (0 <= (hi - lo) * random.floats rng k).
  { apply Qmult_le_0_compat; [lra | assumption]. }
  assert (random.floats rng k * (hi - lo) <= 1 * (hi - lo)).
  { apply Qmult_le_compat_r; lra. }
  lra.
Qed.
End Emission.

Lemma emit_lifetimes_lie_in_range_witness :
  exists new,
    ParticleSystem.particles
      (fst (@ParticleSystem.emit sample_libm ParticleSystem.init
              (Vector2.make 0 0) Settings.COLOR_YELLOW 5 (20, 80)
              (2 # 10, 5 # 10) sample_rng))
    = ParticleSystem.particles ParticleSystem.init ++ new
    /\ Forall (fun p => (2 # 10) <= ParticleSystem.lifetime p
                        /\ ParticleSystem.lifetime p <= (5 # 10)) new.
Proof.
  apply (@emit_lifetimes_lie_in_range sample_libm).
  - intros k. simpl. lra.
  - lra.
Defined.

Section Ageing.
Import ParticleSystem.

(** X9.  For dt >= 0, [update] never adds a particle, leaves only particles
    with a positive remaining lifetime, and keeps the remaining lifetime
    of each within its maximal lifetime if it was so before. *)
Theorem update_keeps_lifetimes_within_bounds (self : t) (dt : Q) :
  0 <= dt ->
  Forall (fun p => lifetime p <= max_lifetime p) (particles self) ->
  (length (particles (update self dt)) <= length (particles self))%nat
  /\ Forall (fun p => 0 < lifetime p /\ lifetime p <= max_lifetime p)
       (particles (update self dt)).
Proof.
  intros Hdt Hall. unfold update. cbn [particles]. split.
  - etransitivity; [apply List.filter_length_le|]. now rewrite length_map.
  - apply Forall_forall. intros q Hq. apply list_elem_of_In in Hq.
    apply filter_In in Hq. destruct Hq as [Hq Halive].
    apply in_map_iff in Hq. destruct Hq as (p & <- & Hp).
    unfold alive in Halive. apply Qlt_bool_iff in Halive.
    rewrite Forall_forall in Hall.
    specialize (Hall p (proj2 (list_elem_of_In _ _) Hp)).
    cbn [step lifetime max_lifetime] in *. split; [assumption | lra].
Qed.

Lemma update_keeps_lifetimes_within_bounds_witness :
  let p := {| pos := Vector2.make 0 0; vel := Vector2.make 3 4;
              lifetime := 1; max_lifetime := 1;
              color := Settings.COLOR_YELLOW |} in
  Forall (fun p => 0 < lifetime p /\ lifetime p <= max_lifetime p)
    (particles (update {| particles := [p] |} (1 # 60))).
Proof.
  intros p. apply (update_keeps_lifetimes_within_bounds {| particles := [p] |}).
  - lra.
  - repeat constructor. simpl. lra.
Defined.

End Ageing.

Section DrawParticles.
Import ParticleSystem Rendering.

Lemma Qeq_bool_false (a : Q) : ~ a == 0 -> Qeq_bool a 0 = false.
Proof.
  intros Ha. destruct (Qeq_bool a 0) eqn:E; [|reflexivity].
  apply Qeq_bool_iff in E. contradiction.
Qed.

Lemma int_floor_bounds (q : Q) :
  0 <= q -> inject_Z (int q) <= q /\ q < inject_Z (int q) + 1.
Proof.
  intros Hq. rewrite int_nonneg by assumption. split.
  - apply Qfloor_le.
  - pose proof (Qlt_floor q) as Hf. rewrite inject_Z_plus in Hf. exact Hf.
Qed.

Lemma draw_particle_alive (screen : surface) (p : particle) :
  0 < lifetime p -> lifetime p <= max_lifetime p ->
  draw_particle screen p = Done screen
  \/ exists c, draw_particle screen p = Done (screen ++ [c])
       /\ (1 <= radius c <= 4)%Z
       /\ exists a, alpha c = Some a /\ (63 <= a <= 255)%Z.
Proof.
  intros Hpos Hmax. unfold draw_particle, truediv.
  rewrite Qeq_bool_false by lra. cbn [mbind Outcome_bind].
  set (ratio := lifetime p / max_lifetime p).
  assert (Hr0 : 0 < ratio).
  { unfold ratio. apply Qlt_shift_div_l; lra. }
  assert (Hr1 : ratio <= 1).
  { unfold ratio. apply Qle_shift_div_r; lra. }
  clearbody ratio.
  destruct (int_floor_bounds (4 * ratio)) as [Hs1 Hs2]; [lra|].
  destruct (int_floor_bounds (255 * ratio)) as [Ha1 Ha2]; [lra|].
  destruct (0 <? int (4 * ratio))%Z eqn:E; [right | now left].
  apply Z.ltb_lt in E. eexists. split; [reflexivity|].
  cbn [radius alpha].
  assert (Hsize : 1 <= inject_Z (int (4 * ratio))).
  { change 1 with (inject_Z 1). rewrite <- Zle_Qle. lia. }
  split.
  - split; [lia|].
    assert (inject_Z (int (4 * ratio)) < inject_Z 5)
      by (change (inject_Z 5) with 5; lra).
    rewrite <- Zlt_Qlt in *. lia.
  - eexists. split; [reflexivity|].
    assert (H1 : inject_Z 62 < inject_Z (int (255 * ratio)))
      by (change (inject_Z 62) with 62; lra).
    assert (H2 : inject_Z (int (255 * ratio)) < inject_Z 256)
      by (change (inject_Z 256) with 256; lra).
    rewrite <- Zlt_Qlt in H1, H2. lia.
Qed.

Lemma draw_particles_alive (ps : list particle) :
  Forall (fun p => 0 < lifetime p /\ lifetime p <= max_lifetime p) ps ->
  forall screen,
    exists drawn, draw_particles ps screen = Done (screen ++ drawn)
      /\ (length drawn <= length ps)%nat
      /\ Forall (fun c => (1 <= radius c <= 4)%Z
                          /\ exists a, alpha c = Some a /\ (63 <= a <= 255)%Z)
           drawn.
Proof.
  induction 1 as [|p ps [Hpos Hmax] _ IH]; intros screen; cbn [draw_particles].
  - exists []. rewrite app_nil_r.
    split; [reflexivity|]. split; [cbn [length]; lia | constructor].
  - destruct (draw_particle_alive screen p Hpos Hmax) as [-> | (c & -> & Hc)];
      cbn [mbind Outcome_bind].
    + destruct (IH screen) as (drawn & -> & Hlen & Hall).
      exists drawn.
      split; [reflexivity|]. split; [cbn [length]; lia | assumption].
    + destruct (IH (screen ++ [c])) as (drawn & -> & Hlen & Hall).
      exists (c :: drawn). rewrite <- app_assoc.
      split; [reflexivity|]. split; [cbn [length]; lia | now constructor].
Qed.

(** X11.  When every particle has a positive remaining lifetime within its
    maximal lifetime, [draw] completes; it only adds circles to the
    surface, at most one per particle, each with a radius from 1 to 4 and
    an alpha from 63 to 255: no particle is drawn fainter than that. *)
Theorem draw_particles_fade_within_bounds (self : ParticleSystem.t)
    (screen : surface) :
  Forall (fun p => 0 < lifetime p /\ lifetime p <= max_lifetime p)
    (particles self) ->
  exists drawn, ParticleSystem_draw self screen = Done (screen ++ drawn)
    /\ (length drawn <= length (particles self))%nat
    /\ Forall (fun c => (1 <= radius c <= 4)%Z
                        /\ exists a, alpha c = Some a /\ (63 <= a <= 255)%Z)
         drawn.
Proof. intros Hall. now apply draw_particles_alive. Qed.

Lemma draw_particles_fade_within_bounds_witness :
  let p := {| pos := Vector2.make 100 200; vel := Vector2.make 3 4;
              lifetime := 3 # 10; max_lifetime := 4 # 10;
              color := Settings.COLOR_YELLOW |} in
  exists drawn,
    ParticleSystem_draw {| particles := [p] |} [] = Done ([] ++ drawn).
Proof.
  intros p.
  destruct (draw_particles_fade_within_bounds {| particles := [p] |} [])
    as (drawn & Hd & _).
  - repeat constructor; simpl; lra.
  - exists drawn. exact Hd.
Defined.

Lemma draw_particle_outcome (screen : surface) (p : particle) :
  (exists screen', draw_particle screen p = Done screen')
  \/ draw_particle screen p = Raised ZeroDivisionError.
Proof.
  unfold draw_particle, truediv.
  destruct (Qeq_bool (max_lifetime p) 0); cbn [mbind Outcome_bind]; [now right|].
  left. destruct (0 <? _)%Z; eauto.
Qed.

(** X12.  A particle whose maximal lifetime is zero makes [draw] raise
    [ZeroDivisionError]: this is what happens when particles emitted with
    the lifetime range (0, 0) are drawn before the next update removes
    them. *)
Theorem draw_particles_divides_by_max_lifetime (self : ParticleSystem.t)
    (screen : surface) (p : particle) :
  In p (particles self) -> max_lifetime p == 0 ->
  ParticleSystem_draw self screen = Raised ZeroDivisionError.
Proof.
  unfold ParticleSystem_draw. intros Hin Hzero. revert screen.
  induction (particles self) as [|q ps IH]; intros screen; [contradiction|].
  cbn [draw_particles].
  destruct (draw_particle_outcome screen q) as [[screen' E] | E].
  - rewrite E. cbn [mbind Outcome_bind]. destruct Hin as [-> | Hin].
    + unfold draw_particle, truediv in E.
      apply Qeq_bool_iff in Hzero. rewrite Hzero in E. discriminate.
    + now apply IH.
  - now rewrite E.
Qed.
End DrawParticles.

Lemma draw_particles_divides_by_max_lifetime_witness :
  Rendering.ParticleSystem_draw
    (fst (@ParticleSystem.emit sample_libm ParticleSystem.init (Vector2.make 0 0)
            Settings.COLOR_YELLOW 1 (0, 0) (0, 0) sample_rng)) []
  = Raised ZeroDivisionError.
Proof.
  eapply draw_particles_divides_by_max_lifetime.
  - left. reflexivity.
  - reflexivity.
Defined.

(* ===================================================================== *)
(** * Player: what an update keeps                                        *)
(* ===================================================================== *)

Lemma handle_input_inv (p : Player.t) (im : InputManager.t) :
  let p1 := Player._handle_input p im in
  Player.base p1 = Player.base p
  /\ Player.lives p1 = Player.lives p
  /\ Player.is_invulnerable p1 = Player.is_invulnerable p
  /\ Player.invulnerable_timer p1 = Player.invulnerable_timer p
  /\ Player.mouth_angle p1 = Player.mouth_angle p
  /\ (Player.next_direction p1 = Player.next_direction p
      \/ Player.next_direction p1 <> Direction.NONE).
Proof.
  unfold Player._handle_input.
  repeat match goal with
         | |- context [if ?b then _ else _] => destruct b
         end; cbn; repeat split; auto; right; discriminate.
Qed.

Lemma commit_inv (p p1 : Player.t) (maze : Maze.t) :
  Player.commit p maze = Ok p1 ->
  Player.next_direction p1 = Player.next_direction p
  /\ Player.lives p1 = Player.lives p
  /\ Player.is_invulnerable p1 = Player.is_invulnerable p
  /\ Player.invulnerable_timer p1 = Player.invulnerable_timer p
  /\ Player.mouth_angle p1 = Player.mouth_angle p
  /\ Entity.position (Player.base p1) = Entity.position (Player.base p)
  /\ Entity.start_pos (Player.base p1) = Entity.start_pos (Player.base p)
  /\ Entity.speed (Player.base p1) = Entity.speed (Player.base p)
  /\ (Entity.direction (Player.base p1) = Entity.direction (Player.base p)
      \/ Entity.direction (Player.base p1) = Player.next_direction p).
Proof.
  unfold Player.commit.
  destruct (Entity.is_centered (Player.base p)).
  - destruct (Maze.is_wall maze _) as [w|]; cbn [mbind Result_bind];
      [|discriminate].
    destruct w; cbn [negb]; intros E; inversion E; subst; cbn;
      repeat split; auto.
  - intros E; inversion E; subst. repeat split; auto.
Qed.

Lemma move_inv (p p2 : Player.t) (dt : Q) (maze : Maze.t) :
  Player._move p dt maze = Ok p2 ->
  Player.next_direction p2 = Player.next_direction p
  /\ Player.lives p2 = Player.lives p
  /\ Player.is_invulnerable p2 = Player.is_invulnerable p
  /\ Player.invulnerable_timer p2 = Player.invulnerable_timer p
  /\ Player.mouth_angle p2 = Player.mouth_angle p
  /\ Entity.start_pos (Player.base p2) = Entity.start_pos (Player.base p)
  /\ Entity.speed (Player.base p2) = Entity.speed (Player.base p)
  /\ (Entity.direction (Player.base p2) = Entity.direction (Player.base p)
      \/ Entity.direction (Player.base p2) = Player.next_direction p).
Proof.
  unfold Player._move.
  destruct (Player.commit p maze) as [p1|] eqn:Ec; cbn [mbind Result_bind];
    [|discriminate].
  apply commit_inv in Ec.
  destruct Ec as (H1 & H2 & H3 & H4 & H5 & _ & H7 & H8 & H9).
  destruct (Direction.value (Entity.direction (Player.base p1))) as [dx dy].
  destruct (Maze.is_wall maze _) as [w|]; cbn [mbind Result_bind];
    [|discriminate].
  intros E; inversion E; subst; clear E.
  destruct (w && Entity.is_centered (Player.base p1)); cbn;
    repeat split; assumption.
Qed.

Section PlayerUpdate.
Context `{Libm}.

Lemma update_inv (p p' : Player.t) (dt : Q) (im : InputManager.t)
    (maze : Maze.t) :
  Player.update p dt im maze = Ok p' ->
  exists p2,
    Player._move (Player._handle_input p im) dt maze = Ok p2
    /\ Player.base p' = Player.base p2
    /\ Player.next_direction p' = Player.next_direction p2
    /\ Player.lives p' = Player.lives p2
    /\ Player.mouth_angle p' = Player.mouth_angle (Player._animate_mouth p2 dt)
    /\ (if Player.is_invulnerable p2
        then Player.invulnerable_timer p'
             = Player.invulnerable_timer p2 - dt
             /\ Player.is_invulnerable p'
                = negb (Qle_bool (Player.invulnerable_timer p2 - dt) 0)
        else Player.invulnerable_timer p' = Player.invulnerable_timer p2
             /\ Player.is_invulnerable p' = false).
Proof.
  unfold Player.update.
  destruct (Player._move (Player._handle_input p im) dt maze) as [p2|];
    cbn [mbind Result_bind]; [|discriminate].
  intros E. exists p2. split; [reflexivity|].
  unfold Player._animate_mouth in *.
  destruct (Qlt_bool 0 (Vector2.length (Entity.velocity (Player.base p2))));
    cbn [Player.is_invulnerable Player.set_mouth_angle
         Player.invulnerable_timer] in E;
    destruct (Player.is_invulnerable p2) eqn:Ei;
    try destruct (Qle_bool (Player.invulnerable_timer p2 - dt) 0) eqn:Et;
    inversion E; subst; cbn; rewrite ?Ei, ?Et; repeat split; reflexivity.
Qed.

(** X13.  [update] never gives the player the direction NONE: if neither its
    direction nor its pending direction is NONE before, neither is
    afterwards. *)
Theorem player_update_never_heads_nowhere (p p' : Player.t) (dt : Q)
    (im : InputManager.t) (maze : Maze.t) :
  Player.update p dt im maze = Ok p' ->
  Entity.direction (Player.base p) <> Direction.NONE ->
  Player.next_direction p <> Direction.NONE ->
  Entity.direction (Player.base p') <> Direction.NONE
  /\ Player.next_direction p' <> Direction.NONE.
Proof.
  intros Hup Hd Hn.
  destruct (update_inv _ _ _ _ _ Hup) as (p2 & Hmove & Hb & Hnd & _).
  apply move_inv in Hmove.
  destruct Hmove as (Hn2 & _ & _ & _ & _ & _ & _ & Hdir).
  destruct (handle_input_inv p im) as (Hb1 & _ & _ & _ & _ & Hn1).
  cbv zeta in Hb1, Hn1. rewrite Hb, Hnd, Hn2.
  assert (Hnext : Player.next_direction (Player._handle_input p im)
                  <> Direction.NONE)
    by (destruct Hn1 as [-> | Hn1]; assumption).
  split; [|assumption].
  destruct Hdir as [-> | ->]; [now rewrite Hb1 | assumption].
Qed.

(** X14.  [update] changes neither the lives, nor the spawn position, nor the
    speed of the player, so that [reset] after it puts the player back on
    the spawn position it was created with, heading left with left
    pending. *)
Theorem player_reset_returns_to_spawn (p p' : Player.t) (dt : Q)
    (im : InputManager.t) (maze : Maze.t) :
  Player.update p dt im maze = Ok p' ->
  Player.lives p' = Player.lives p
  /\ Entity.start_pos (Player.base p') = Entity.start_pos (Player.base p)
  /\ Entity.speed (Player.base p') = Entity.speed (Player.base p)
  /\ Entity.position (Player.base (Player.reset p'))
     = Entity.start_pos (Player.base p)
  /\ Entity.direction (Player.base (Player.reset p')) = Direction.LEFT
  /\ Player.next_direction (Player.reset p') = Direction.LEFT
  /\ Player.lives (Player.reset p') = Player.lives p.
Proof.
  intros Hup.
  destruct (update_inv _ _ _ _ _ Hup) as (p2 & Hmove & Hb & _ & Hl & _).
  apply move_inv in Hmove.
  destruct Hmove as (_ & Hl2 & _ & _ & _ & Hs & Hsp & _).
  destruct (handle_input_inv p im) as (Hb1 & Hl1 & _). cbv zeta in Hb1, Hl1.
  rewrite Hb1 in Hs, Hsp. rewrite Hl1 in Hl2.
  cbn. rewrite Hb, Hl, Hl2, Hs, Hsp. repeat split.
Qed.

(** X15.  The mouth angle stays in [0, 90): for a time step dt with
    0 <= dt within [parameter_bound] and a mouth angle that is not
    negative before, as the initial angle 0 and every angle [update]
    leaves are, the angle after [update] lies in [0, 90). *)
Theorem player_mouth_angle_stays_in_range (p p' : Player.t) (dt : Q)
    (im : InputManager.t) (maze : Maze.t) :
  0 <= dt <= parameter_bound ->
  0 <= Player.mouth_angle p ->
  Player.update p dt im maze = Ok p' ->
  0 <= Player.mouth_angle p' /\ Player.mouth_angle p' < 90.
Proof.
  intros _ _ Hup.
  destruct (update_inv _ _ _ _ _ Hup) as (p2 & _ & _ & _ & _ & -> & _).
  unfold Player._animate_mouth.
  destruct (Qlt_bool 0 (Vector2.length (Entity.velocity (Player.base p2))));
    cbn [Player.mouth_angle Player.set_mouth_angle].
  - destruct (fmod_spec (Player.mouth_angle p2 + 450 * dt) 90)
      as (k & _ & Hlo & Hhi); [reflexivity | split; assumption].
  - split; [apply Qle_refl | reflexivity].
Qed.

(** X16.  After [lose_life], one update leaves the player with one life less
    and with the countdown at 3 - dt; the player is still invulnerable
    if dt < 3 and no longer if dt >= 3. *)
Theorem player_invulnerable_for_three_seconds (p p' : Player.t) (dt : Q)
    (im : InputManager.t) (maze : Maze.t) :
  Player.update (Player.lose_life p) dt im maze = Ok p' ->
  Player.lives p' = (Player.lives p - 1)%Z
  /\ Player.invulnerable_timer p'
     = Settings.PLAYER_INVULNERABILITY_DURATION - dt
  /\ (dt < 3 -> Player.is_invulnerable p' = true)
  /\ (3 <= dt -> Player.is_invulnerable p' = false).
Proof.
  intros Hup.
  destruct (update_inv _ _ _ _ _ Hup) as (p2 & Hmove & _ & _ & Hl & _ & Hinv).
  apply move_inv in Hmove.
  destruct Hmove as (_ & Hl2 & Hi2 & Ht2 & _).
  destruct (handle_input_inv (Player.lose_life p) im)
    as (_ & Hl1 & Hi1 & Ht1 & _). cbv zeta in Hl1, Hi1, Ht1.
  rewrite Hi1 in Hi2. rewrite Ht1 in Ht2. rewrite Hl1 in Hl2.
  cbn [Player.lose_life Player.is_invulnerable Player.invulnerable_timer
       Player.lives] in Hi2, Ht2, Hl2.
  rewrite Hi2, Ht2 in Hinv. destruct Hinv as [Ht Hi].
  split; [congruence|]. split; [exact Ht|].
  rewrite Hi. unfold Settings.PLAYER_INVULNERABILITY_DURATION. split.
  - intros Hdt. apply negb_true_iff.
    destruct (Qle_bool (3 - dt) 0) eqn:E; [|reflexivity].
    apply Qle_bool_iff in E. lra.
  - intros Hdt. apply negb_false_iff. apply Qle_bool_iff. lra.
Qed.
End PlayerUpdate.

Lemma player_update_never_heads_nowhere_witness :
  exists p',
    @Player.update sample_libm
      (player_at (Maze.grid_to_world (11, 1)%Z) Direction.RIGHT Direction.DOWN)
      (1 # 60)
      {| InputManager.keys_pressed := ∅; InputManager.keys_just_pressed := ∅ |}
      the_maze = Ok p'
    /\ Entity.direction (Player.base p') <> Direction.NONE.
Proof.
  destruct (@Player.update sample_libm
              (player_at (Maze.grid_to_world (11, 1)%Z) Direction.RIGHT
                 Direction.DOWN) (1 # 60)
              {| InputManager.keys_pressed := ∅;
                 InputManager.keys_just_pressed := ∅ |} the_maze)
    as [p'|e] eqn:E.
  - exists p'. split; [reflexivity|].
    apply (@player_update_never_heads_nowhere sample_libm _ _ _ _ _ E);
      discriminate.
  - vm_compute in E. discriminate.
Defined.

Lemma player_reset_returns_to_spawn_witness :
  exists p',
    @Player.update sample_libm
      (player_at (Maze.grid_to_world (11, 1)%Z) Direction.RIGHT Direction.DOWN)
      (1 # 60)
      {| InputManager.keys_pressed := ∅; InputManager.keys_just_pressed := ∅ |}
      the_maze = Ok p'
    /\ Entity.position (Player.base (Player.reset p'))
       = Maze.grid_to_world (11, 1)%Z.
Proof.
  destruct (@Player.update sample_libm
              (player_at (Maze.grid_to_world (11, 1)%Z) Direction.RIGHT
                 Direction.DOWN) (1 # 60)
              {| InputManager.keys_pressed := ∅;
                 InputManager.keys_just_pressed := ∅ |} the_maze)
    as [p'|e] eqn:E.
  - exists p'. split; [reflexivity|].
    apply (@player_reset_returns_to_spawn sample_libm _ _ _ _ _ E).
  - vm_compute in E. discriminate.
Defined.

Lemma player_mouth_angle_stays_in_range_witness :
  exists p',
    @Player.update sample_libm
      (player_at (Maze.grid_to_world (11, 1)%Z) Direction.RIGHT Direction.DOWN)
      (1 # 60)
      {| InputManager.keys_pressed := ∅; InputManager.keys_just_pressed := ∅ |}
      the_maze = Ok p'
    /\ 0 <= Player.mouth_angle p' /\ Player.mouth_angle p' < 90.
Proof.
  destruct (@Player.update sample_libm
              (player_at (Maze.grid_to_world (11, 1)%Z) Direction.RIGHT
                 Direction.DOWN) (1 # 60)
              {| InputManager.keys_pressed := ∅;
                 InputManager.keys_just_pressed := ∅ |} the_maze)
    as [p'|e] eqn:E.
  - exists p'. split; [reflexivity|].
    assert (Hdt : 0 <= 1 # 60 <= parameter_bound)
      by (split; vm_compute; discriminate).
    assert (Hangle : 0 <= Player.mouth_angle
                            (player_at (Maze.grid_to_world (11, 1)%Z)
                               Direction.RIGHT Direction.DOWN))
      by (vm_compute; discriminate).
    apply (@player_mouth_angle_stays_in_range sample_libm _ _ _ _ _ Hdt Hangle E).
  - vm_compute in E. discriminate.
Defined.

Lemma player_invulnerable_for_three_seconds_witness :
  exists p',
    @Player.update sample_libm
      (Player.lose_life
         (player_at (Maze.grid_to_world (11, 1)%Z) Direction.RIGHT Direction.DOWN))
      (1 # 60)
      {| InputManager.keys_pressed := ∅; InputManager.keys_just_pressed := ∅ |}
      the_maze = Ok p'
    /\ Player.lives p' = 2%Z /\ Player.is_invulnerable p' = true.
Proof.
  destruct (@Player.update sample_libm
              (Player.lose_life
                 (player_at (Maze.grid_to_world (11, 1)%Z) Direction.RIGHT
                    Direction.DOWN)) (1 # 60)
              {| InputManager.keys_pressed := ∅;
                 InputManager.keys_just_pressed := ∅ |} the_maze)
    as [p'|e] eqn:E.
  - exists p'. split; [reflexivity|].
    destruct (@player_invulnerable_for_three_seconds sample_libm _ _ _ _ _ E)
      as (Hl & _ & Hi & _).
    split; [exact Hl | apply Hi; reflexivity].
  - vm_compute in E. discriminate.
Defined.

(* ===================================================================== *)
(** * Ghost: the direction chosen                                         *)
(* ===================================================================== *)

Lemma candidates_subset (g : Ghost.t) (maze : Maze.t)
    (possible cands : list Direction.t) :
  Ghost.neighbours maze (Entity.get_grid_pos (Ghost.base g)) Ghost.all_dirs []
  = Ok possible ->
  Ghost.candidates g maze = Ok cands ->
  (forall d, In d cands -> In d possible)
  /\ (possible <> [] -> cands <> []).
Proof.
  intros Hn Hc. rewrite (candidates_spec _ _ _ Hn) in Hc.
  destruct (neighbours_not_none _ _ _ Hn) as [Hnd Hnone].
  destruct (Ghost.contains (Entity.direction (Ghost.base g)) possible
            && (1 <? len possible)%Z
            && Ghost.contains
                 (Direction.opposite (Entity.direction (Ghost.base g))) possible)
    eqn:E; inversion Hc; subst; clear Hc.
  - apply andb_prop in E. destruct E as [E E3].
    apply andb_prop in E. destruct E as [E1 _].
    apply contains_In in E1, E3. split.
    + intros d Hd. apply remove_In in Hd; tauto.
    + intros _ Hnil.
      assert (Hin : In (Entity.direction (Ghost.base g))
                      (Ghost.remove
                         (Direction.opposite (Entity.direction (Ghost.base g)))
                         possible)).
      { apply remove_In; [assumption|]. split; [assumption|].
        intros E. apply (opposite_neq (Entity.direction (Ghost.base g))).
        - intros E0. rewrite E0 in E1. contradiction.
        - now symmetry. }
      rewrite Hnil in Hin. contradiction.
  - split; auto.
Qed.

Lemma candidates_neighbours (g : Ghost.t) (maze : Maze.t)
    (cands : list Direction.t) :
  Ghost.candidates g maze = Ok cands ->
  exists possible,
    Ghost.neighbours maze (Entity.get_grid_pos (Ghost.base g)) Ghost.all_dirs []
    = Ok possible.
Proof.
  unfold Ghost.candidates.
  destruct (Ghost.neighbours maze (Entity.get_grid_pos (Ghost.base g))
              Ghost.all_dirs []) as [possible|]; [eauto | discriminate].
Qed.

(** The first half of [update], read backwards: what a completed [turn]
    has done. *)
Lemma turn_inv (g g1 : Ghost.t) (maze : Maze.t) (rng rng1 : random.state) :
  Ghost.turn g maze rng = Ok (g1, rng1) ->
  Entity.position (Ghost.base g1) = Entity.position (Ghost.base g)
  /\ Entity.start_pos (Ghost.base g1) = Entity.start_pos (Ghost.base g)
  /\ Entity.speed (Ghost.base g1) = Entity.speed (Ghost.base g)
  /\ Ghost.name g1 = Ghost.name g /\ Ghost.color g1 = Ghost.color g
  /\ (Entity.direction (Ghost.base g1) = Entity.direction (Ghost.base g)
      \/ exists possible,
           Ghost.neighbours maze (Entity.get_grid_pos (Ghost.base g))
             Ghost.all_dirs [] = Ok possible
           /\ In (Entity.direction (Ghost.base g1)) possible).
Proof.
  unfold Ghost.turn.
  destruct (Entity.is_centered (Ghost.base g));
    [|intros E; inversion E; subst; repeat split; auto].
  destruct (Ghost.candidates g maze) as [cands|] eqn:Ec;
    cbn [mbind Result_bind]; [|discriminate].
  destruct cands as [|d0 cands];
    [intros E; inversion E; subst; repeat split; auto|].
  destruct (random.choice (d0 :: cands) rng) as [[d rng']|] eqn:Ech;
    cbn [mbind Result_bind]; [|discriminate].
  intros E; inversion E; subst; clear E.
  assert (Hd : In d (d0 :: cands)).
  { unfold random.choice in Ech.
    destruct (nth_error (d0 :: cands) _) as [a|] eqn:En; [|discriminate].
    inversion Ech; subst. eapply nth_error_In; eassumption. }
  destruct (candidates_neighbours _ _ _ Ec) as [possible Hn].
  destruct (candidates_subset g maze possible (d0 :: cands) Hn Ec) as [Hsub _].
  repeat (split; [reflexivity|]). right.
  exists possible. split; [exact Hn|]. now apply Hsub.
Qed.

Lemma update_turn (g g' : Ghost.t) (dt : Q) (maze : Maze.t)
    (rng rng' : random.state) :
  Ghost.update g dt maze rng = Ok (g', rng') ->
  exists g1, Ghost.turn g maze rng = Ok (g1, rng')
    /\ Entity.direction (Ghost.base g') = Entity.direction (Ghost.base g1)
    /\ Entity.start_pos (Ghost.base g') = Entity.start_pos (Ghost.base g1)
    /\ Entity.speed (Ghost.base g') = Entity.speed (Ghost.base g1)
    /\ Ghost.name g' = Ghost.name g1 /\ Ghost.color g' = Ghost.color g1.
Proof.
  unfold Ghost.update.
  destruct (Ghost.turn g maze rng) as [[g1 rng1]|]; cbn [mbind Result_bind];
    [|discriminate].
  destruct (Direction.value (Entity.direction (Ghost.base g1))) as [dx dy].
  intros E; inversion E; subst. exists g1. repeat split.
Qed.

(** X17.  A centered ghost with at least one non-wall neighbour cell always
    leaves [update] heading toward one of them; in a dead end, where the
    only such cell lies behind it, it therefore turns back. *)
Theorem ghost_heads_to_a_free_cell (g : Ghost.t) (dt : Q) (maze : Maze.t)
    (rng : random.state) (possible : list Direction.t) :
  Entity.is_centered (Ghost.base g) = true ->
  Ghost.neighbours maze (Entity.get_grid_pos (Ghost.base g)) Ghost.all_dirs []
  = Ok possible ->
  possible <> [] ->
  exists g', Ghost.update g dt maze rng = Ok (g', random.advance rng)
    /\ In (Entity.direction (Ghost.base g')) possible
    /\ Maze.is_wall maze
         (Entity.ahead (Entity.get_grid_pos (Ghost.base g))
            (Entity.direction (Ghost.base g'))) = Ok false.
Proof.
  intros Hc Hn Hne.
  assert (Hcands : exists cands, Ghost.candidates g maze = Ok cands)
    by (rewrite (candidates_spec _ _ _ Hn); eauto).
  destruct Hcands as [cands Hcands].
  destruct (candidates_subset g maze possible cands Hn Hcands) as [Hsub Hnonempty].
  specialize (Hnonempty Hne).
  destruct (choice_nonempty cands rng Hnonempty) as (d & Hch & _ & Hin).
  assert (Ht : Ghost.turn g maze rng
               = Ok (Ghost.set_base g (Entity.set_direction (Ghost.base g) d),
                     random.advance rng)).
  { unfold Ghost.turn. rewrite Hc, Hcands. cbn [mbind Result_bind].
    destruct cands as [|d0 rest]; [congruence|]. now rewrite Hch. }
  destruct (ghost_update_after_turn _ _ dt _ _ _ Ht) as (g' & Hup & Hd & _).
  exists g'. split; [exact Hup|]. cbn in Hd. rewrite Hd.
  split; [now apply Hsub|].
  apply neighbours_spec in Hn. destruct Hn as (kept & -> & Hkept & _).
  apply Hsub in Hin. cbn [app] in Hin. apply Hkept in Hin. tauto.
Qed.

Lemma ghost_heads_to_a_free_cell_witness :
  exists g',
    Ghost.update (ghost_at (Maze.grid_to_world (17, 8)%Z) Direction.LEFT) (1 # 60)
      the_maze sample_rng
    = Ok (g', random.advance sample_rng)
    /\ Entity.direction (Ghost.base g') = Direction.RIGHT.
Proof.
  destruct (ghost_heads_to_a_free_cell
              (ghost_at (Maze.grid_to_world (17, 8)%Z) Direction.LEFT) (1 # 60)
              the_maze sample_rng [Direction.RIGHT])
    as (g' & Hup & Hin & _); [reflexivity | reflexivity | discriminate |].
  exists g'. split; [exact Hup|].
  destruct Hin as [E | []]. symmetry. exact E.
Defined.

(** X18.  [update] never gives a ghost the direction NONE, and it keeps the
    ghost's name, color, speed and spawn position. *)
Theorem ghost_update_never_heads_nowhere (g g' : Ghost.t) (dt : Q)
    (maze : Maze.t) (rng rng' : random.state) :
  Ghost.update g dt maze rng = Ok (g', rng') ->
  (Entity.direction (Ghost.base g) <> Direction.NONE ->
   Entity.direction (Ghost.base g') <> Direction.NONE)
  /\ Ghost.name g' = Ghost.name g /\ Ghost.color g' = Ghost.color g
  /\ Entity.speed (Ghost.base g') = Entity.speed (Ghost.base g)
  /\ Entity.start_pos (Ghost.base g') = Entity.start_pos (Ghost.base g).
Proof.
  intros Hup.
  destruct (update_turn _ _ _ _ _ _ Hup) as (g1 & Ht & Hd & Hs & Hsp & Hn & Hc).
  apply turn_inv in Ht. destruct Ht as (_ & Hs1 & Hsp1 & Hn1 & Hc1 & Hdir).
  split; [|repeat split; congruence].
  intros Hnone. rewrite Hd. destruct Hdir as [-> | (possible & Hposs & Hin)];
    [assumption|].
  destruct (neighbours_not_none _ _ _ Hposs) as [_ Hno].
  intros E. rewrite E in Hin. contradiction.
Qed.

Lemma ghost_update_never_heads_nowhere_witness :
  exists g' rng',
    Ghost.update (ghost_at (Maze.grid_to_world (9, 8)%Z) Direction.LEFT) (1 # 60)
      the_maze sample_rng = Ok (g', rng')
    /\ Entity.direction (Ghost.base g') <> Direction.NONE.
Proof.
  destruct (Ghost.update (ghost_at (Maze.grid_to_world (9, 8)%Z) Direction.LEFT)
              (1 # 60) the_maze sample_rng) as [[g' rng']|e] eqn:E.
  - exists g', rng'. split; [reflexivity|].
    apply (ghost_update_never_heads_nowhere _ _ _ _ _ _ E). discriminate.
  - vm_compute in E. discriminate.
Defined.

(* ===================================================================== *)
(** * GameScene: one frame                                                *)
(* ===================================================================== *)

Lemma play_keeps_manager (sm sm' : SoundManager.t) (name : string) (loops : Z)
    (out out' : SoundManager.mixer) :
  SoundManager.play sm name loops out = Ok (sm', out') -> sm' = sm.
Proof.
  unfold SoundManager.play.
  destruct (SoundManager.enabled sm && _);
    [destruct (SoundManager.sounds sm !! name)|];
    intros E; inversion E; reflexivity.
Qed.

Lemma update_ghosts_length (gs : list Ghost.t) (dt : Q) (mz : Maze.t) :
  forall rng gs' rng',
    GameScene.update_ghosts gs dt mz rng = Ok (gs', rng') ->
    length gs' = length gs.
Proof.
  induction gs as [|g gs IH]; intros rng gs' rng'; cbn [GameScene.update_ghosts].
  - intros E; inversion E; reflexivity.
  - destruct (Ghost.update g dt mz rng) as [[g1 rng1]|];
      cbn [mbind Result_bind]; [|discriminate].
    destruct (GameScene.update_ghosts gs dt mz rng1) as [[gs1 rng2]|] eqn:E1;
      cbn [mbind Result_bind]; [|discriminate].
    intros E; inversion E; subst. cbn [length]. f_equal. eapply IH; eassumption.
Qed.

Section Frame.
Context `{Libm}.

Lemma scene_update_inv (s s' : GameScene.t) (dt : Q) (im : InputManager.t)
    (sm sm' : SoundManager.t) (out out' : SoundManager.mixer)
    (rng rng' : random.state) :
  GameScene.update s dt im sm out rng = Ok (s', sm', out', rng') ->
  exists pl gs rng1 mz gain power particles,
    Player.update (GameScene.player s) dt im (GameScene.maze s) = Ok pl
    /\ GameScene.update_ghosts (GameScene.ghosts s) dt (GameScene.maze s) rng
       = Ok (gs, rng1)
    /\ Maze.check_pellet_collision (GameScene.maze s)
         (Entity.position (Player.base pl))
         (ParticleSystem.update (GameScene.particle_system s) dt) rng1
       = (mz, (gain, power), particles, rng')
    /\ sm' = sm
    /\ GameScene.player s' = pl /\ GameScene.ghosts s' = gs
    /\ GameScene.maze s' = mz /\ GameScene.particle_system s' = particles
    /\ GameScene.score s' = (GameScene.score s + Z.max 0 gain)%Z
    /\ GameScene.power_pellet_timer s'
       = (if power || GameScene.is_power_pellet_active s
          then (if power then Settings.POWER_PELLET_DURATION
                else GameScene.power_pellet_timer s) - dt
          else GameScene.power_pellet_timer s)
    /\ GameScene.is_power_pellet_active s'
       = (if power || GameScene.is_power_pellet_active s
          then negb (Qle_bool ((if power then Settings.POWER_PELLET_DURATION
                                else GameScene.power_pellet_timer s) - dt) 0)
          else false).
Proof.
  unfold GameScene.update.
  destruct (Player.update (GameScene.player s) dt im (GameScene.maze s))
    as [pl|]; cbn [mbind Result_bind]; [|discriminate].
  destruct (GameScene.update_ghosts (GameScene.ghosts s) dt (GameScene.maze s) rng)
    as [[gs rng1]|]; cbn [mbind Result_bind]; [|discriminate].
  destruct (Maze.check_pellet_collision (GameScene.maze s)
              (Entity.position (Player.base pl))
              (ParticleSystem.update (GameScene.particle_system s) dt) rng1)
    as [[[mz [gain power]] particles] rng2] eqn:Ecol.
  intros E. exists pl, gs, rng1, mz, gain, power, particles.
  split; [reflexivity|]. split; [reflexivity|].
  destruct (0 <? gain)%Z eqn:Eg;
    [apply Z.ltb_lt in Eg | apply Z.ltb_ge in Eg].
  - destruct (SoundManager.play sm "eat_pellet" 0 out) as [[sm1 out1]|] eqn:Ep1;
      cbn [mbind Result_bind] in E; [|discriminate].
    apply play_keeps_manager in Ep1. subst sm1.
    destruct power.
    + destruct (SoundManager.play sm "eat_power_pellet" 0 out1)
        as [[sm2 out2]|] eqn:Ep2; cbn [mbind Result_bind] in E; [|discriminate].
      apply play_keeps_manager in Ep2. subst sm2.
      inversion E; subst. cbn.
      repeat split; try reflexivity; try exact Ecol; lia.
    + cbn [mbind Result_bind] in E. inversion E; subst. cbn.
      repeat split; try reflexivity; try exact Ecol; try lia;
        destruct (GameScene.is_power_pellet_active s); reflexivity.
  - cbn [mbind Result_bind] in E. destruct power.
    + destruct (SoundManager.play sm "eat_power_pellet" 0 out)
        as [[sm2 out2]|] eqn:Ep2; cbn [mbind Result_bind] in E; [|discriminate].
      apply play_keeps_manager in Ep2. subst sm2.
      inversion E; subst. cbn.
      repeat split; try reflexivity; try exact Ecol; lia.
    + cbn [mbind Result_bind] in E. inversion E; subst. cbn.
      repeat split; try reflexivity; try exact Ecol; try lia;
        destruct (GameScene.is_power_pellet_active s); reflexivity.
Qed.

(** X19.  One frame of the game scene never lowers the score: it adds the points
    of the pellets the player reaches after moving, when that sum is
    positive.  The frame marks those pellets eaten and touches no other,
    keeps the number of ghosts and leaves the sound manager as it was. *)
Theorem scene_update_adds_points_of_eaten_pellets (s s' : GameScene.t) (dt : Q)
    (im : InputManager.t) (sm sm' : SoundManager.t)
    (out out' : SoundManager.mixer) (rng rng' : random.state) :
  GameScene.update s dt im sm out rng = Ok (s', sm', out', rng') ->
  let player_pos := Entity.position (Player.base (GameScene.player s')) in
  let hit := List.filter (Maze.hits player_pos)
               (Maze.pellets (GameScene.maze s)) in
  (GameScene.score s <= GameScene.score s')%Z
  /\ GameScene.score s'
     = (GameScene.score s
        + Z.max 0 (fold_right Z.add 0 (List.map Pellet.points hit)))%Z
  /\ Maze.pellets (GameScene.maze s')
     = List.map (fun p => if Maze.hits player_pos p then Pellet.set_eaten p else p)
         (Maze.pellets (GameScene.maze s))
  /\ length (GameScene.ghosts s') = length (GameScene.ghosts s)
  /\ sm' = sm.
Proof.
  intros Hup player_pos hit.
  destruct (scene_update_inv _ _ _ _ _ _ _ _ _ _ Hup)
    as (pl & gs & rng1 & mz & gain & power & particles
        & Hpl & Hgs & Hcol & Hsm & Epl & Egs & Emz & _ & Escore & _).
  pose proof (check_pellet_collision_spec_aux (GameScene.maze s)
                (Entity.position (Player.base pl))
                (ParticleSystem.update (GameScene.particle_system s) dt) rng1)
    as Hspec.
  rewrite Hcol in Hspec. cbv zeta in Hspec.
  destruct Hspec as (Hmz & Hgain & _).
  rewrite <- Epl in Hmz, Hgain. fold player_pos in Hmz, Hgain.
  fold hit in Hgain.
  split; [rewrite Escore; lia|].
  split; [rewrite Escore, Hgain; reflexivity|].
  split; [rewrite Emz, Hmz; reflexivity|].
  split; [rewrite Egs; eapply update_ghosts_length; eassumption | assumption].
Qed.
End Frame.

Section PowerPellet.
Context `{Libm}.

(** X20.  A frame in which the player eats a power pellet ends with the
    countdown at 8 - dt; the power state is then active exactly when
    dt < 8.  Without a power pellet, an active countdown loses dt and the
    state ends when it reaches zero, and an inactive state stays as it
    is. *)
Theorem scene_update_counts_down_power_pellet (s s' : GameScene.t) (dt : Q)
    (im : InputManager.t) (sm sm' : SoundManager.t)
    (out out' : SoundManager.mixer) (rng rng' : random.state) :
  GameScene.update s dt im sm out rng = Ok (s', sm', out', rng') ->
  let player_pos := Entity.position (Player.base (GameScene.player s')) in
  let power := existsb Pellet.is_power
                 (List.filter (Maze.hits player_pos)
                    (Maze.pellets (GameScene.maze s))) in
  (power = true ->
   GameScene.power_pellet_timer s' = Settings.POWER_PELLET_DURATION - dt
   /\ (dt < 8 -> GameScene.is_power_pellet_active s' = true)
   /\ (8 <= dt -> GameScene.is_power_pellet_active s' = false))
  /\ (power = false -> GameScene.is_power_pellet_active s = true ->
      GameScene.power_pellet_timer s' = GameScene.power_pellet_timer s - dt
      /\ GameScene.is_power_pellet_active s'
         = negb (Qle_bool (GameScene.power_pellet_timer s - dt) 0))
  /\ (power = false -> GameScene.is_power_pellet_active s = false ->
      GameScene.power_pellet_timer s' = GameScene.power_pellet_timer s
      /\ GameScene.is_power_pellet_active s' = false).
Proof.
  intros Hup player_pos power.
  destruct (scene_update_inv _ _ _ _ _ _ _ _ _ _ Hup)
    as (pl & gs & rng1 & mz & gain & pw & particles
        & _ & _ & Hcol & _ & Epl & _ & _ & _ & _ & Etimer & Eactive).
  pose proof (check_pellet_collision_spec_aux (GameScene.maze s)
                (Entity.position (Player.base pl))
                (ParticleSystem.update (GameScene.particle_system s) dt) rng1)
    as Hspec.
  rewrite Hcol in Hspec. cbv zeta in Hspec.
  destruct Hspec as (_ & _ & Hpw & _).
  rewrite <- Epl in Hpw. fold player_pos in Hpw. fold power in Hpw. subst pw.
  split; [|split].
  - intros Hp. rewrite Hp in Etimer, Eactive. cbn [orb] in Etimer, Eactive.
    split; [exact Etimer|]. rewrite Eactive.
    unfold Settings.POWER_PELLET_DURATION. split.
    + intros Hdt. apply negb_true_iff.
      destruct (Qle_bool (8 - dt) 0) eqn:E; [|reflexivity].
      apply Qle_bool_iff in E. lra.
    + intros Hdt. apply negb_false_iff. apply Qle_bool_iff. lra.
  - intros Hp Ha. rewrite Hp, Ha in Etimer, Eactive. split; assumption.
  - intros Hp Ha. rewrite Hp, Ha in Etimer, Eactive. split; assumption.
Qed.
End PowerPellet.

Lemma scene_update_adds_points_of_eaten_pellets_witness :
  exists s' sm' out' rng',
    @GameScene.update sample_libm scene_on_power_pellet (1 # 60) no_keys silent
      [] sample_rng
    = Ok (s', sm', out', rng')
    /\ GameScene.score scene_on_power_pellet = 0%Z
    /\ GameScene.score s' = 50%Z
    /\ length (List.filter Pellet.eaten (Maze.pellets (GameScene.maze s'))) = 1%nat
    /\ length (ParticleSystem.particles (GameScene.particle_system s')) = 5%nat.
Proof.
  destruct (@GameScene.update sample_libm scene_on_power_pellet (1 # 60) no_keys
              silent [] sample_rng)
    as [[[[s' sm'] out'] rng']|e] eqn:E.
  - exists s', sm', out', rng'. split; [reflexivity|].
    destruct (@scene_update_adds_points_of_eaten_pellets sample_libm _ _ _ _ _ _ _ _
                _ _ E) as (_ & Hscore & Hpellets & _).
    cbv zeta in Hscore, Hpellets.
    split; [reflexivity|]. rewrite Hscore, Hpellets.
    vm_compute in E. inversion E. subst. clear.
    split; [vm_compute; reflexivity|]. split; vm_compute; reflexivity.
  - vm_compute in E. discriminate.
Defined.

Lemma scene_update_counts_down_power_pellet_witness :
  exists s1 sm1 out1 rng1 s2 sm2 out2 rng2,
    @GameScene.update sample_libm scene_on_power_pellet (1 # 60) no_keys silent
      [] sample_rng
    = Ok (s1, sm1, out1, rng1)
    /\ GameScene.is_power_pellet_active scene_on_power_pellet = false
    /\ GameScene.power_pellet_timer s1 == 8 - (1 # 60)
    /\ GameScene.is_power_pellet_active s1 = true
    /\ @GameScene.update sample_libm s1 (1 # 60) no_keys sm1 out1 rng1
       = Ok (s2, sm2, out2, rng2)
    /\ GameScene.power_pellet_timer s2 == 8 - (2 # 60)
    /\ GameScene.is_power_pellet_active s2 = true.
Proof.
  destruct (@GameScene.update sample_libm scene_on_power_pellet (1 # 60) no_keys
              silent [] sample_rng)
    as [[[[s1 sm1] out1] rng1]|e] eqn:E1; [|vm_compute in E1; discriminate].
  destruct (@GameScene.update sample_libm s1 (1 # 60) no_keys sm1 out1 rng1)
    as [[[[s2 sm2] out2] rng2]|e] eqn:E2;
    [|vm_compute in E1; inversion E1; subst; vm_compute in E2; discriminate].
  exists s1, sm1, out1, rng1, s2, sm2, out2, rng2.
  split; [reflexivity|]. split; [reflexivity|].
  destruct (@scene_update_counts_down_power_pellet sample_libm _ _ _ _ _ _ _ _
              _ _ E1) as (Hstart & _ & _).
  destruct (@scene_update_counts_down_power_pellet sample_libm _ _ _ _ _ _ _ _
              _ _ E2) as (_ & Hcount & _).
  cbv zeta in Hstart, Hcount.
  assert (Hp1 : existsb Pellet.is_power
                  (List.filter
                     (@Maze.hits sample_libm
                        (Entity.position (Player.base (GameScene.player s1))))
                     (Maze.pellets (GameScene.maze scene_on_power_pellet)))
                = true).
  { clear - E1. vm_compute in E1. inversion E1. subst. vm_compute. reflexivity. }
  destruct (Hstart Hp1) as (Ht1 & Ha1 & _).
  assert (Ha1' : GameScene.is_power_pellet_active s1 = true)
    by (apply Ha1; reflexivity).
  assert (Hp2 : existsb Pellet.is_power
                  (List.filter
                     (@Maze.hits sample_libm
                        (Entity.position (Player.base (GameScene.player s2))))
                     (Maze.pellets (GameScene.maze s1)))
                = false).
  { clear - E1 E2. vm_compute in E1. inversion E1. subst.
    vm_compute in E2. inversion E2. subst. vm_compute. reflexivity. }
  destruct (Hcount Hp2 Ha1') as (Ht2 & Ha2).
  split; [rewrite Ht1; reflexivity|]. split; [exact Ha1'|].
  split; [exact E2|].
  split; [rewrite Ht2, Ht1; reflexivity|].
  rewrite Ha2, Ht1. reflexivity.
Defined.

(* ===================================================================== *)
(** * GameEngine: the other transitions                                   *)
(* ===================================================================== *)

Section Transitions.
Context `{Libm}.

Lemma change_state_unregistered (e : GameEngine.t) (st : GameState)
    (rng : random.state) :
  GameEngine.scenes e !! st = None ->
  GameEngine.change_state e st rng = Ok (e, rng).
Proof.
  intros Hst. unfold GameEngine.change_state.
  rewrite bool_decide_eq_false_2; [reflexivity|].
  rewrite Hst. intros [x Hx]. discriminate.
Qed.

Lemma change_state_other (e : GameEngine.t) (st : GameState) (id : nat)
    (rng : random.state) :
  st <> PLAYING ->
  GameEngine.scenes e !! st = Some id ->
  GameEngine.change_state e st rng
  = Ok ({| GameEngine.running := GameEngine.running e;
           GameEngine.sound_manager := GameEngine.sound_manager e;
           GameEngine.input_manager := GameEngine.input_manager e;
           GameEngine.objects := GameEngine.objects e;
           GameEngine.scenes := GameEngine.scenes e;
           GameEngine.current_state := st;
           GameEngine.current_scene := id |}, rng).
Proof.
  intros Hne Hst. unfold GameEngine.change_state.
  rewrite bool_decide_eq_true_2 by (rewrite Hst; eauto).
  rewrite bool_decide_eq_false_2 by assumption.
  now rewrite Hst.
Qed.

(** What [__init__] leaves: the menu and a Playing scene, both allocated,
    registered under their states and nothing else registered; the menu
    is current. *)
Lemma init_engine (sm : SoundManager.t) (out : SoundManager.mixer)
    (rng : random.state) :
  exists e out' rng' menu_id game_id menu,
    GameEngine.init sm out rng = Ok (e, out', rng')
    /\ menu_id <> game_id
    /\ GameEngine.scenes e
       = <[PLAYING := game_id]> (<[MAIN_MENU := menu_id]> ∅)
    /\ GameEngine.objects e !! menu_id = Some (MainMenu menu)
    /\ GameEngine.objects e !! game_id = Some (Game (fst (GameScene.init rng)))
    /\ GameEngine.current_state e = MAIN_MENU
    /\ GameEngine.current_scene e = menu_id
    /\ GameEngine.running e = true
    /\ MainMenuScene.selected_option menu = 0%Z
    /\ MainMenuScene.options menu = ["Start Game"; "Quit"]%string.
Proof.
  unfold GameEngine.init, MainMenuScene.init, GameEngine.new_object.
  destruct (play_returns sm "intro" 0 out) as [[sm' out'] Hplay].
  rewrite Hplay.
  destruct (GameScene.init rng) as [game rng'].
  cbv beta iota zeta delta [mbind Result_bind fst].
  rewrite lookup_insert_ne by discriminate. rewrite lookup_insert_eq.
  set (menu_id := fresh (dom (∅ : gmap nat Scene))).
  set (menu := {| MainMenuScene.options := ["Start Game"; "Quit"]%string;
                  MainMenuScene.selected_option := 0 |}).
  set (game_id := fresh (dom (<[menu_id := MainMenu menu]> (∅ : gmap nat Scene)))).
  assert (Hne : menu_id <> game_id).
  { intros E. pose proof (is_fresh (dom (<[menu_id := MainMenu menu]>
                                           (∅ : gmap nat Scene)))) as Hf.
    fold game_id in Hf. apply Hf. rewrite <- E.
    apply elem_of_dom. rewrite lookup_insert_eq. eauto. }
  eexists. exists out', rng', menu_id, game_id, menu.
  split; [reflexivity|]. cbn [GameEngine.scenes GameEngine.objects
    GameEngine.current_state GameEngine.current_scene GameEngine.running].
  split; [exact Hne|]. split; [reflexivity|].
  split; [rewrite lookup_insert_ne by (intros E; now apply Hne);
          apply lookup_insert_eq|].
  split; [apply lookup_insert_eq|]. repeat split.
Qed.

(** X21.  On an engine built by [__init__], a transition to a state other than
    the menu and Playing (Paused, GameOver, LevelTransition) is ignored:
    [change_state] returns with the engine and the random generator
    unchanged. *)
Theorem change_state_ignores_unwired_states (sm : SoundManager.t)
    (out out' : SoundManager.mixer) (rng rng' rng2 : random.state)
    (e : GameEngine.t) (st : GameState) :
  GameEngine.init sm out rng = Ok (e, out', rng') ->
  st <> MAIN_MENU -> st <> PLAYING ->
  GameEngine.change_state e st rng2 = Ok (e, rng2).
Proof.
  intros Hinit Hm Hp.
  destruct (init_engine sm out rng)
    as (e0 & out0 & rng0 & menu_id & game_id & menu & Hinit0 & _ & Hsc & _).
  rewrite Hinit in Hinit0. inversion Hinit0; subst e0 out0 rng0.
  apply change_state_unregistered. rewrite Hsc.
  rewrite !lookup_insert_ne by congruence. apply lookup_empty.
Qed.

(** X22.  Going back to the menu does not rebuild anything: [change_state] to a
    registered state other than Playing only switches the current state
    and scene; every scene object, the Playing session included, stays
    as it is, and no random number is drawn. *)
Theorem change_state_to_menu_keeps_the_session (e : GameEngine.t)
    (st : GameState) (id : nat) (rng : random.state) :
  st <> PLAYING ->
  GameEngine.scenes e !! st = Some id ->
  exists e', GameEngine.change_state e st rng = Ok (e', rng)
    /\ GameEngine.current_state e' = st
    /\ GameEngine.current_scene e' = id
    /\ GameEngine.objects e' = GameEngine.objects e
    /\ GameEngine.scenes e' = GameEngine.scenes e
    /\ GameEngine.running e' = GameEngine.running e.
Proof.
  intros Hne Hst. rewrite (change_state_other e st id rng Hne Hst).
  eexists. split; [reflexivity|]. repeat split.
Qed.

(** X23.  [change_state] never raises, for any engine and any state, and
    no object that was allocated is dropped or altered.  It keeps the
    references of the engine valid: if every registered scene identity
    and the current scene are allocated objects before, they are
    afterwards. *)
Theorem change_state_keeps_references_valid (e : GameEngine.t)
    (st : GameState) (rng : random.state) :
  exists e' rng', GameEngine.change_state e st rng = Ok (e', rng')
    /\ (forall id s, GameEngine.objects e !! id = Some s ->
                     GameEngine.objects e' !! id = Some s)
    /\ (GameEngine.registry_allocated e ->
        GameEngine.current_scene e ∈ dom (GameEngine.objects e) ->
        GameEngine.registry_allocated e'
        /\ (GameEngine.current_scene e' ∈ dom (GameEngine.objects e'))).
Proof.
  destruct (GameEngine.scenes e !! st) as [id|] eqn:Hst.
  - destruct (decide (st = PLAYING)) as [-> | Hne].
    + rewrite (change_state_playing e rng) by eauto.
      set (fid := fresh (dom (GameEngine.objects e))).
      assert (Hfresh : fid ∉ dom (GameEngine.objects e)) by apply is_fresh.
      eexists _, _. split; [reflexivity|].
      cbn [GameEngine.objects GameEngine.scenes GameEngine.current_scene].
      split; [|intros Halloc Hcur; split].
      * intros id' s Hs. rewrite lookup_insert_ne; [exact Hs|].
        intros <-. apply Hfresh. apply elem_of_dom. eauto.
      * intros st' id' Hl. unfold GameEngine.registry_allocated in Halloc.
        cbn [GameEngine.objects GameEngine.scenes] in *.
        apply elem_of_dom.
        apply lookup_insert_Some in Hl. destruct Hl as [[_ <-] | [_ Hl]].
        -- rewrite lookup_insert_eq. eauto.
        -- apply Halloc in Hl. apply elem_of_dom in Hl.
           rewrite lookup_insert_ne; [exact Hl|].
           intros <-. apply Hfresh. now apply elem_of_dom.
      * apply elem_of_dom. rewrite lookup_insert_eq. eauto.
    + rewrite (change_state_other e st id rng Hne Hst).
      eexists _, _. split; [reflexivity|].
      cbn [GameEngine.objects GameEngine.scenes GameEngine.current_scene].
      split; [auto|]. intros Halloc Hcur.
      split; [exact Halloc | eapply Halloc; eassumption].
  - rewrite (change_state_unregistered e st rng Hst).
    exists e, rng. repeat split; auto.
Qed.
End Transitions.

Lemma change_state_ignores_unwired_states_witness :
  exists e out' rng',
    @GameEngine.init sample_libm
      {| SoundManager.sounds := ∅; SoundManager.enabled := true |} [] sample_rng
    = Ok (e, out', rng')
    /\ @GameEngine.change_state sample_libm e PAUSED sample_rng
       = Ok (e, sample_rng).
Proof.
  destruct (@init_engine sample_libm
              {| SoundManager.sounds := ∅; SoundManager.enabled := true |}
              [] sample_rng) as (e & out' & rng' & _ & _ & _ & Hinit & _).
  exists e, out', rng'. split; [exact Hinit|].
  apply (@change_state_ignores_unwired_states sample_libm _ _ _ _ _ sample_rng
           e PAUSED Hinit); discriminate.
Defined.

Lemma change_state_to_menu_keeps_the_session_witness :
  exists e out' rng' e1 rng1 e2,
    @GameEngine.init sample_libm
      {| SoundManager.sounds := ∅; SoundManager.enabled := true |} [] sample_rng
    = Ok (e, out', rng')
    /\ @GameEngine.change_state sample_libm e PLAYING rng' = Ok (e1, rng1)
    /\ @GameEngine.change_state sample_libm e1 MAIN_MENU rng1 = Ok (e2, rng1)
    /\ GameEngine.current_state e2 = MAIN_MENU
    /\ GameEngine.objects e2 = GameEngine.objects e1.
Proof.
  destruct (@init_engine sample_libm
              {| SoundManager.sounds := ∅; SoundManager.enabled := true |}
              [] sample_rng)
    as (e & out' & rng' & menu_id & game_id & menu & Hinit & Hne & Hsc & _).
  assert (Hreg : is_Some (GameEngine.scenes e !! PLAYING)).
  { rewrite Hsc, lookup_insert_eq. eauto. }
  pose proof (@change_state_playing sample_libm e rng' Hreg) as H1.
  cbv zeta in H1.
  match type of H1 with _ = Ok (?a, ?b) => set (e1 := a) in *; set (rng1 := b) in * end.
  assert (Hmenu : GameEngine.scenes e1 !! MAIN_MENU = Some menu_id).
  { unfold e1. cbn [GameEngine.scenes]. rewrite Hsc.
    rewrite lookup_insert_ne by discriminate.
    rewrite lookup_insert_ne by discriminate. apply lookup_insert_eq. }
  destruct (@change_state_to_menu_keeps_the_session sample_libm e1 MAIN_MENU
              menu_id rng1) as (e2 & H2 & Hst & _ & Hobj & _).
  - discriminate.
  - exact Hmenu.
  - exists e, out', rng', e1, rng1, e2. repeat split; assumption.
Defined.

Lemma change_state_keeps_references_valid_witness :
  exists e out' rng' e1 rng1,
    @GameEngine.init sample_libm
      {| SoundManager.sounds := ∅; SoundManager.enabled := true |} [] sample_rng
    = Ok (e, out', rng')
    /\ @GameEngine.change_state sample_libm e PLAYING rng' = Ok (e1, rng1)
    /\ GameEngine.registry_allocated e1
    /\ (GameEngine.current_scene e1 ∈ dom (GameEngine.objects e1)).
Proof.
  destruct (@init_engine sample_libm
              {| SoundManager.sounds := ∅; SoundManager.enabled := true |}
              [] sample_rng)
    as (e & out' & rng' & menu_id & game_id & menu & Hinit & Hne & Hsc & Hm
        & _ & _ & Hcur & _).
  destruct (@init_registry sample_libm
              {| SoundManager.sounds := ∅; SoundManager.enabled := true |}
              [] sample_rng) as (e0 & out0 & rng0 & Hinit0 & _ & Halloc).
  rewrite Hinit in Hinit0. inversion Hinit0; subst e0 out0 rng0.
  destruct (@change_state_keeps_references_valid sample_libm e PLAYING rng')
    as (e1 & rng1 & H1 & _ & Hvalid).
  destruct Hvalid as [Ha Hc].
  - exact Halloc.
  - rewrite Hcur. apply elem_of_dom. rewrite Hm. eauto.
  - exists e, out', rng', e1, rng1. repeat split; assumption.
Defined.

(* ===================================================================== *)
(** * MainMenuScene: key handling                                         *)
(* ===================================================================== *)

Section MenuKeys.
Context `{Libm}.

Lemma select_spec (game : GameEngine.t) (id : nat) (self : MainMenuScene.t)
    (delta : Z) (out : SoundManager.mixer) :
  MainMenuScene.options self <> [] ->
  let n := len (MainMenuScene.options self) in
  let sel := ((MainMenuScene.selected_option self + delta) mod n)%Z in
  (0 <= sel < n)%Z
  /\ exists out',
       Menu.select game id self delta out
       = Done (Menu.set_scene_state game id
                 (MainMenu {| MainMenuScene.options := MainMenuScene.options self;
                              MainMenuScene.selected_option := sel |})
                 (GameEngine.sound_manager game), out').
Proof.
  intros Hne n sel.
  assert (Hn : (0 < n)%Z).
  { unfold n, len. destruct (MainMenuScene.options self); [congruence|].
    cbn [length]. lia. }
  split; [apply Z.mod_pos_bound; exact Hn|].
  unfold Menu.select, pymod. fold n.
  assert (E : (n =? 0)%Z = false) by lia. rewrite E.
  cbn [mbind Outcome_bind]. fold sel.
  destruct (SoundManager.play (GameEngine.sound_manager game) "menu_select" 0 out)
    as [[sm out']|e] eqn:Ep.
  - apply play_keeps_manager in Ep. subst sm.
    cbn [lift mbind Outcome_bind]. eauto.
  - destruct (play_returns (GameEngine.sound_manager game) "menu_select" 0 out)
      as [x Hx]. congruence.
Qed.

(** X24.  When DOWN or UP was just pressed on a menu with at least one option,
    [handle_events] moves the selection by one step, cyclically, so that
    it lies within the option list afterwards; the state, the running
    flag and the registry stay as they are and no random number is drawn,
    also when RETURN was pressed in the same frame. *)
Theorem menu_navigation_wraps_around (game : GameEngine.t) (id : nat)
    (self : MainMenuScene.t) (out : SoundManager.mixer) (rng : random.state) :
  let pressed := InputManager.was_key_just_pressed
                   (GameEngine.input_manager game) in
  let n := len (MainMenuScene.options self) in
  let delta := (if pressed pygame.K_DOWN then 1 else -1)%Z in
  MainMenuScene.options self <> [] ->
  pressed pygame.K_DOWN = true \/ pressed pygame.K_UP = true ->
  exists game' out' self',
    Menu.handle_events game id self out rng = Done (game', out', rng)
    /\ GameEngine.objects game' !! id = Some (MainMenu self')
    /\ MainMenuScene.options self' = MainMenuScene.options self
    /\ MainMenuScene.selected_option self'
       = ((MainMenuScene.selected_option self + delta) mod n)%Z
    /\ (0 <= MainMenuScene.selected_option self' < n)%Z
    /\ GameEngine.current_state game' = GameEngine.current_state game
    /\ GameEngine.running game' = GameEngine.running game
    /\ GameEngine.scenes game' = GameEngine.scenes game.
Proof.
  intros pressed n delta Hne Hkey.
  destruct (select_spec game id self delta out Hne) as [Hrange [out' Hsel]].
  cbv zeta in Hrange, Hsel. fold n in Hrange, Hsel.
  assert (Hrun : Menu.handle_events game id self out rng
                 = Done (Menu.set_scene_state game id
                           (MainMenu
                              {| MainMenuScene.options := MainMenuScene.options self;
                                 MainMenuScene.selected_option :=
                                   ((MainMenuScene.selected_option self + delta)
                                      mod n)%Z |})
                           (GameEngine.sound_manager game), out', rng)).
  { unfold Menu.handle_events. fold pressed. unfold delta in *.
    destruct (pressed pygame.K_DOWN) eqn:Ed.
    - rewrite Hsel. reflexivity.
    - destruct Hkey as [Hk | Hk]; [discriminate|]. rewrite Hk, Hsel.
      reflexivity. }
  eexists _, out', _. split; [exact Hrun|].
  cbn [Menu.set_scene_state GameEngine.objects GameEngine.current_state
       GameEngine.running GameEngine.scenes].
  rewrite lookup_insert_eq. repeat split; try reflexivity; apply Hrange.
Qed.

(** X25.  When RETURN was just pressed and neither DOWN nor UP: with the first
    option selected and a Playing scene registered, [handle_events]
    starts a new session, which becomes the active scene; with the second
    option selected it clears the running flag and changes nothing else;
    with any other selection it does nothing. *)
Theorem menu_return_starts_or_quits (game : GameEngine.t) (id : nat)
    (self : MainMenuScene.t) (out : SoundManager.mixer) (rng : random.state) :
  let pressed := InputManager.was_key_just_pressed
                   (GameEngine.input_manager game) in
  pressed pygame.K_DOWN = false ->
  pressed pygame.K_UP = false ->
  pressed pygame.K_RETURN = true ->
  (MainMenuScene.selected_option self = 0%Z ->
   is_Some (GameEngine.scenes game !! PLAYING) ->
   exists game',
     Menu.handle_events game id self out rng
     = Done (game', out, snd (GameScene.init rng))
     /\ GameEngine.current_state game' = PLAYING
     /\ GameEngine.active_scene game' = Some (Game (fst (GameScene.init rng)))
     /\ GameEngine.running game' = GameEngine.running game)
  /\ (MainMenuScene.selected_option self = 1%Z ->
      Menu.handle_events game id self out rng = Done (Menu.stop game, out, rng)
      /\ GameEngine.running (Menu.stop game) = false
      /\ GameEngine.current_state (Menu.stop game)
         = GameEngine.current_state game
      /\ GameEngine.objects (Menu.stop game) = GameEngine.objects game)
  /\ (MainMenuScene.selected_option self <> 0%Z ->
      MainMenuScene.selected_option self <> 1%Z ->
      Menu.handle_events game id self out rng = Done (game, out, rng)).
Proof.
  intros pressed Hd Hu Hr. unfold Menu.handle_events. fold pressed.
  rewrite Hd, Hu, Hr. split; [|split].
  - intros Hsel Hreg. rewrite Hsel. cbn [Z.eqb].
    rewrite (change_state_playing game rng Hreg).
    cbn [lift mbind Outcome_bind]. eexists. split; [reflexivity|].
    unfold GameEngine.active_scene.
    cbn [GameEngine.current_state GameEngine.objects GameEngine.current_scene
         GameEngine.running].
    rewrite lookup_insert_eq. repeat split.
  - intros Hsel. rewrite Hsel. cbn [Z.eqb Pos.eqb]. repeat split.
  - intros H0 H1.
    destruct (MainMenuScene.selected_option self =? 0)%Z eqn:E0; [lia|].
    destruct (MainMenuScene.selected_option self =? 1)%Z eqn:E1; [lia|].
    reflexivity.
Qed.
End MenuKeys.

Lemma menu_navigation_wraps_around_witness :
  exists game' out' self',
    @Menu.handle_events sample_libm
      (sample_menu_engine {[pygame.K_DOWN; pygame.K_RETURN]} 1) 0%nat
      {| MainMenuScene.options := ["Start Game"; "Quit"]%string;
         MainMenuScene.selected_option := 1 |} [] sample_rng
    = Done (game', out', sample_rng)
    /\ GameEngine.objects game' !! 0%nat = Some (MainMenu self')
    /\ MainMenuScene.selected_option self' = 0%Z
    /\ GameEngine.current_state game' = MAIN_MENU.
Proof.
  destruct (@menu_navigation_wraps_around sample_libm
              (sample_menu_engine {[pygame.K_DOWN; pygame.K_RETURN]} 1) 0%nat
              {| MainMenuScene.options := ["Start Game"; "Quit"]%string;
                 MainMenuScene.selected_option := 1 |} [] sample_rng)
    as (game' & out' & self' & Hev & Hobj & _ & Hsel & _ & Hst & _).
  - discriminate.
  - left. reflexivity.
  - exists game', out', self'. repeat split; assumption.
Defined.

Lemma menu_return_starts_or_quits_witness :
  @Menu.handle_events sample_libm (sample_menu_engine {[pygame.K_RETURN]} 1)
    0%nat
    {| MainMenuScene.options := ["Start Game"; "Quit"]%string;
       MainMenuScene.selected_option := 1 |} [] sample_rng
  = Done (Menu.stop (sample_menu_engine {[pygame.K_RETURN]} 1), [], sample_rng).
Proof.
  apply (@menu_return_starts_or_quits sample_libm
           (sample_menu_engine {[pygame.K_RETURN]} 1) 0%nat
           {| MainMenuScene.options := ["Start Game"; "Quit"]%string;
              MainMenuScene.selected_option := 1 |} [] sample_rng);
    reflexivity.
Defined.

(* ===================================================================== *)
(** * SoundManager: the synthesized sample buffers                        *)
(* ===================================================================== *)

Lemma range_length (n : Z) : length (range n) = Z.to_nat n.
Proof. unfold range. now rewrite length_map, length_seq. Qed.

Lemma range_bounds (n i : Z) : In i (range n) -> (0 <= i < n)%Z.
Proof.
  unfold range. rewrite in_map_iff. intros [k [<- Hk]].
  apply in_seq in Hk. lia.
Qed.

Lemma for_each_spec {A B} (f : A -> Outcome B) (P : B -> Prop) (l : list A) :
  (forall a, In a l -> exists b, f a = Done b /\ P b) ->
  exists bs, Synthesis.for_each f l = Done bs
    /\ length bs = length l /\ Forall P bs.
Proof.
  induction l as [|a l IH]; intros Hf.
  - exists []. repeat split. constructor.
  - destruct (Hf a (or_introl eq_refl)) as [b [Hb HP]].
    destruct IH as [bs [Hbs [Hlen HF]]].
    { intros a' Ha'. apply Hf. now right. }
    exists (b :: bs). cbn [Synthesis.for_each]. rewrite Hb.
    cbn [mbind Outcome_bind]. rewrite Hbs. cbn [mbind Outcome_bind].
    repeat split; [cbn [length]; now rewrite Hlen | now constructor].
Qed.

(** [int] truncates toward zero, so it never leaves a symmetric range. *)
Lemma int_abs_le (q b : Q) : Qabs q <= b -> inject_Z (Z.abs (int q)) <= b.
Proof.
  intros Hq.
  assert (E : Z.abs (int q) = int (Qabs q)).
  { unfold int. destruct q as [n d]. cbn [Qabs Qnum Qden].
    rewrite <- (Z.quot_abs n (Z.pos d)) by lia. reflexivity. }
  rewrite E, int_nonneg by apply Qabs_nonneg.
  eapply Qle_trans; [apply Qfloor_le | exact Hq].
Qed.

Lemma Qabs_mult_le (a b x y : Q) :
  Qabs a <= x -> Qabs b <= y -> Qabs (a * b) <= x * y.
Proof.
  intros Ha Hb. rewrite Qabs_Qmult.
  apply Qmult_le_compat_nonneg; split;
    try apply Qabs_nonneg; assumption.
Qed.

Lemma Qabs_mult_le_1 (a s b : Q) :
  Qabs a <= b -> Qabs s <= 1 -> Qabs (a * s) <= b.
Proof.
  intros Ha Hs. pose proof (Qabs_mult_le a s b 1 Ha Hs) as Hm.
  now rewrite Qmult_1_r in Hm.
Qed.

Lemma truediv_nonzero (a : Q) (n : Z) :
  n <> 0%Z -> truediv a (inject_Z n) = Done (a / inject_Z n).
Proof.
  intros Hn. unfold truediv. rewrite Qeq_bool_false; [reflexivity|].
  intros E. apply Hn. unfold Qeq in E. cbn in E. lia.
Qed.

Lemma progress_bounds (i n : Z) :
  (0 <= i < n)%Z -> 0 <= inject_Z i / inject_Z n /\ inject_Z i / inject_Z n < 1.
Proof.
  intros Hi.
  assert (Hn : 0 < inject_Z n).
  { change 0 with (inject_Z 0). rewrite <- Zlt_Qlt. lia. }
  assert (H0 : 0 <= inject_Z i).
  { change 0 with (inject_Z 0). rewrite <- Zle_Qle. lia. }
  assert (H1 : inject_Z i < inject_Z n) by (rewrite <- Zlt_Qlt; lia).
  split.
  - apply Qle_shift_div_l; [exact Hn|]. lra.
  - apply Qlt_shift_div_r; [exact Hn|]. lra.
Qed.

(** A loop only runs when the number of samples is positive, and then the
    sample rate is not zero. *)
Lemma rate_nonzero (sample_rate : Z) (duration : Q) (i : Z) :
  In i (range (int (inject_Z sample_rate * duration))) ->
  sample_rate <> 0%Z.
Proof.
  intros Hi Hz. apply range_bounds in Hi. subst sample_rate.
  assert (E : int (inject_Z 0 * duration) = 0%Z).
  { unfold int. destruct duration as [n d]. reflexivity. }
  rewrite E in Hi. lia.
Qed.

Section Buffers.
Context `{Libm} `{LibmExp}.
Hypothesis sin_bounded : forall a, Qabs (sin a) <= 1.


Hypothesis exp_bounded : forall x, x <= 0 -> 0 <= exp x <= 1.


End Buffers.

Lemma clipped_sin_bounded (a : Q) : Qabs (@sin clipped_libm a) <= 1.
Proof.
  unfold sin, clipped_libm. cbv zeta.
  set (s := a - a ^ 3 / 6). clearbody s.
  destruct (Qle_bool 1 s) eqn:E1; [apply Qabs_Qle_condition; lra|].
  destruct (Qle_bool s (-1)) eqn:E2; [apply Qabs_Qle_condition; lra|].
  assert (H1 : s < 1) by (apply Qlt_bool_iff; unfold Qlt_bool; now rewrite E1).
  assert (H2 : -1 < s) by (apply Qlt_bool_iff; unfold Qlt_bool; now rewrite E2).
  apply Qabs_Qle_condition. lra.
Qed.

Lemma sample_exp_bounded (x : Q) : x <= 0 -> 0 <= @exp sample_exp x <= 1.
Proof.
  intros Hx. unfold exp, sample_exp.
  apply Qle_bool_iff in Hx. rewrite Hx. apply Qle_bool_iff in Hx. split.
  - apply Qle_shift_div_l; lra.
  - apply Qle_shift_div_r; lra.
Qed.




(* ===================================================================== *)
(** * Maze.draw and Pellet.draw                                           *)
(* ===================================================================== *)


Section Drawing.
Context `{Libm}.
Import Rendering.

Lemma Pellet_draw_state (p : Pellet.t) (screen : surface) :
  pellet_state (fst (Pellet_draw p screen)) = pellet_state p.
Proof.
  unfold Pellet_draw.
  destruct (Pellet.eaten p) eqn:Ee; [reflexivity|].
  destruct (Pellet.is_power p) eqn:E; [|reflexivity].
  unfold pellet_state. cbn [fst Pellet.position Pellet.is_power Pellet.points
                            Pellet.eaten]. now rewrite E, Ee.
Qed.

Lemma draw_pellets_state (l : list Pellet.t) (screen : surface) :
  List.map pellet_state (fst (draw_pellets l screen))
  = List.map pellet_state l.
Proof.
  revert screen. induction l as [|p l IH]; intros screen; [reflexivity|].
  cbn [draw_pellets].
  pose proof (Pellet_draw_state p screen) as Hp.
  destruct (Pellet_draw p screen) as [p' screen1].
  specialize (IH screen1).
  destruct (draw_pellets l screen1) as [l' screen2].
  cbn [fst List.map] in *. now rewrite Hp, IH.
Qed.

Lemma hits_state (pos : Vector2.t) (p q : Pellet.t) :
  pellet_state p = pellet_state q -> Maze.hits pos p = Maze.hits pos q.
Proof.
  unfold pellet_state, Maze.hits. intros E. inversion E as [[E1 E2 E3 E4]].
  now rewrite E1, E4.
Qed.

Lemma collide_state (pos : Vector2.t) (l l' : list Pellet.t) :
  List.map pellet_state l = List.map pellet_state l' ->
  forall score power ps rng,
    snd (fst (fst (fst (Maze.collide pos l score power ps rng))))
    = snd (fst (fst (fst (Maze.collide pos l' score power ps rng))))
    /\ snd (fst (fst (Maze.collide pos l score power ps rng)))
       = snd (fst (fst (Maze.collide pos l' score power ps rng)))
    /\ snd (fst (Maze.collide pos l score power ps rng))
       = snd (fst (Maze.collide pos l' score power ps rng))
    /\ snd (Maze.collide pos l score power ps rng)
       = snd (Maze.collide pos l' score power ps rng)
    /\ List.map pellet_state (Maze.collided_pellets
                                (Maze.collide pos l score power ps rng))
       = List.map pellet_state (Maze.collided_pellets
                                  (Maze.collide pos l' score power ps rng)).
Proof.
  revert l'. induction l as [|p l IH]; intros [|p' l'] E; try discriminate.
  - intros. repeat split.
  - cbn [List.map] in E.
    assert (Ep : pellet_state p = pellet_state p') by congruence.
    assert (El : List.map pellet_state l = List.map pellet_state l')
      by congruence.
    intros score power ps rng. cbn [Maze.collide].
    rewrite (hits_state pos p p' Ep).
    assert (Epos : Pellet.position p = Pellet.position p')
      by (unfold pellet_state in Ep; congruence).
    assert (Epts : Pellet.points p = Pellet.points p')
      by (unfold pellet_state in Ep; congruence).
    assert (Epow : Pellet.is_power p = Pellet.is_power p')
      by (unfold pellet_state in Ep; congruence).
    destruct (Maze.hits pos p').
    + rewrite Epos, Epts, Epow.
      destruct (ParticleSystem.emit ps (Pellet.position p')
                  Settings.COLOR_YELLOW 5 (20, 80) (2 # 10, 5 # 10) rng)
        as [ps1 rng1].
      specialize (IH l' El (score + Pellet.points p')%Z
                    (if Pellet.is_power p' then true else power) ps1 rng1).
      destruct (Maze.collide pos l (score + Pellet.points p')%Z
                  (if Pellet.is_power p' then true else power) ps1 rng1)
        as [[[[r1 s1] w1] q1] g1].
      destruct (Maze.collide pos l' (score + Pellet.points p')%Z
                  (if Pellet.is_power p' then true else power) ps1 rng1)
        as [[[[r2 s2] w2] q2] g2].
      unfold Maze.collided_pellets in *. cbn [fst snd List.map] in *.
      destruct IH as (-> & -> & -> & -> & ->). repeat split.
      f_equal. unfold pellet_state in *. cbn. congruence.
    + specialize (IH l' El score power ps rng).
      destruct (Maze.collide pos l score power ps rng)
        as [[[[r1 s1] w1] q1] g1].
      destruct (Maze.collide pos l' score power ps rng)
        as [[[[r2 s2] w2] q2] g2].
      unfold Maze.collided_pellets in *. cbn [fst snd List.map] in *.
      destruct IH as (-> & -> & -> & -> & ->). repeat split.
      now rewrite Ep.
Qed.

(** X29.  Drawing the maze changes nothing the game reads: position, kind,
    points and eaten flag of every pellet are as before, and a collision
    check after [Maze.draw] gives the score, the power-pellet flag, the
    particles and the random generator it gives without it. *)
Theorem maze_draw_leaves_collisions_unchanged (self : Maze.t)
    (screen : surface) (player_pos : Vector2.t) (ps : ParticleSystem.t)
    (rng : random.state) :
  let drawn := fst (Maze_draw self screen) in
  let before := Maze.check_pellet_collision self player_pos ps rng in
  let after := Maze.check_pellet_collision drawn player_pos ps rng in
  List.map pellet_state (Maze.pellets drawn)
  = List.map pellet_state (Maze.pellets self)
  /\ Maze.layout_str drawn = Maze.layout_str self
  /\ snd (fst (fst after)) = snd (fst (fst before))
  /\ snd (fst after) = snd (fst before)
  /\ snd after = snd before
  /\ List.map pellet_state (Maze.pellets (fst (fst (fst after))))
     = List.map pellet_state (Maze.pellets (fst (fst (fst before)))).
Proof.
  cbv zeta. unfold Maze_draw.
  pose proof (draw_pellets_state (Maze.pellets self) screen) as Hst.
  destruct (draw_pellets (Maze.pellets self) screen) as [l screen'].
  cbn [fst] in *. cbn [Maze.set_pellets Maze.pellets Maze.layout_str].
  split; [exact Hst|]. split; [reflexivity|].
  unfold Maze.check_pellet_collision. cbn [Maze.set_pellets Maze.pellets].
  destruct (collide_state player_pos l (Maze.pellets self) Hst 0%Z false ps rng)
    as (H1 & H2 & H3 & H4 & H5).
  destruct (Maze.collide player_pos l 0 false ps rng)
    as [[[[r1 s1] w1] q1] g1].
  destruct (Maze.collide player_pos (Maze.pellets self) 0 false ps rng)
    as [[[[r2 s2] w2] q2] g2].
  unfold Maze.collided_pellets in *.
  cbn [fst snd Maze.set_pellets Maze.pellets] in *. subst.
  repeat split. exact H5.
Qed.

(** What [Pellet.draw] draws for the pellet [p]: a yellow circle without
    alpha, centered on the position of [p] truncated to integers, of
    radius 3 for a pellet and between 6 and 10 for a power pellet. *)
Let circle_of (p : Pellet.t) (c : circle) : Prop :=
  center c = (int (Vector2.x (Pellet.position p)),
              int (Vector2.y (Pellet.position p)))
  /\ rgb c = (255, 255, 0)%Z
  /\ alpha c = None
  /\ (if Pellet.is_power p then (6 <= radius c <= 10)%Z else radius c = 3%Z).

Lemma Pellet_draw_screen (p : Pellet.t) (screen : surface) :
  (forall a, Qabs (sin a) <= 1) ->
  exists drawn,
    snd (Pellet_draw p screen) = screen ++ drawn
    /\ Forall2 circle_of (List.filter pellet_uneaten [p]) drawn.
Proof.
  intros Hsin. unfold Pellet_draw, pellet_uneaten. cbn [List.filter].
  destruct (Pellet.eaten p).
  - exists []. cbn [snd negb]. rewrite app_nil_r. split; [reflexivity|].
    constructor.
  - cbn [negb]. destruct (Pellet.is_power p) eqn:Epow.
    + eexists [_]. cbn [snd]. split; [reflexivity|].
      constructor; [|constructor]. unfold circle_of.
      cbn [rgb alpha radius center]. rewrite Epow.
      split; [reflexivity|]. split; [reflexivity|]. split; [reflexivity|].
      pose proof (Hsin (Pellet.animation_timer p + (1 # 10))) as Hs.
      apply Qabs_Qle_condition in Hs.
      set (s := sin (Pellet.animation_timer p + (1 # 10))) in *. clearbody s.
      destruct (int_floor_bounds (8 + s * 2)) as [Hlo Hhi]; [lra|].
      assert (H1 : inject_Z 5 < inject_Z (int (8 + s * 2)))
        by (change (inject_Z 5) with 5; lra).
      assert (H2 : inject_Z (int (8 + s * 2)) < inject_Z 11)
        by (change (inject_Z 11) with 11; lra).
      rewrite <- Zlt_Qlt in H1, H2. lia.
    + eexists [_]. cbn [snd]. split; [reflexivity|].
      constructor; [|constructor]. unfold circle_of.
      cbn [rgb alpha radius center]. rewrite Epow. repeat split.
Qed.

Lemma draw_pellets_screen (l : list Pellet.t) :
  (forall a, Qabs (sin a) <= 1) ->
  forall screen, exists drawn,
    snd (draw_pellets l screen) = screen ++ drawn
    /\ Forall2 circle_of (List.filter pellet_uneaten l) drawn.
Proof.
  intros Hsin. induction l as [|p l IH]; intros screen.
  - exists []. cbn [draw_pellets snd List.filter]. rewrite app_nil_r.
    split; [reflexivity | constructor].
  - cbn [draw_pellets].
    destruct (Pellet_draw_screen p screen Hsin) as (d1 & Hs1 & HF1).
    destruct (Pellet_draw p screen) as [p' screen1]. cbn [snd] in Hs1.
    destruct (IH screen1) as (d2 & Hs2 & HF2).
    destruct (draw_pellets l screen1) as [l' screen2]. cbn [snd] in *.
    exists (d1 ++ d2). subst screen1 screen2. rewrite app_assoc.
    split; [reflexivity|].
    change (p :: l) with ([p] ++ l). rewrite List.filter_app.
    apply Forall2_app; assumption.
Qed.

(** X30.  When the sine stays within [-1, 1], [Maze.draw] adds to the
    surface exactly one circle for each uneaten pellet, in the order of
    the pellet list, and none for an eaten pellet: the circle of a pellet
    is yellow, centered on the pellet's position truncated to integers,
    and has radius 3 for a pellet and a radius between 6 and 10 for a
    power pellet. *)
Theorem maze_draw_draws_each_uneaten_pellet_once (self : Maze.t)
    (screen : surface) :
  (forall a, Qabs (sin a) <= 1) ->
  exists drawn,
    snd (Maze_draw self screen) = screen ++ drawn
    /\ Forall2
         (fun p c =>
            center c = (int (Vector2.x (Pellet.position p)),
                        int (Vector2.y (Pellet.position p)))
            /\ rgb c = (255, 255, 0)%Z
            /\ alpha c = None
            /\ (if Pellet.is_power p then (6 <= radius c <= 10)%Z
                else radius c = 3%Z))
         (List.filter pellet_uneaten (Maze.pellets self)) drawn.
Proof.
  intros Hsin. unfold Maze_draw.
  destruct (draw_pellets_screen (Maze.pellets self) Hsin screen)
    as (drawn & Hs & HF).
  destruct (draw_pellets (Maze.pellets self) screen) as [l screen'].
  cbn [snd] in *. exists drawn. split; [exact Hs | exact HF].
Qed.
End Drawing.

Lemma maze_draw_draws_each_uneaten_pellet_once_witness :
  let mz := fst (@Maze.init clipped_libm sample_rng) in
  exists drawn,
    snd (@Rendering.Maze_draw clipped_libm mz []) = [] ++ drawn
    /\ length drawn = 210%nat
    /\ Forall2
         (fun p c =>
            Rendering.center c = (int (Vector2.x (Pellet.position p)),
                                  int (Vector2.y (Pellet.position p)))
            /\ Rendering.rgb c = (255, 255, 0)%Z
            /\ Rendering.alpha c = None
            /\ (if Pellet.is_power p then (6 <= Rendering.radius c <= 10)%Z
                else Rendering.radius c = 3%Z))
         (List.filter pellet_uneaten (Maze.pellets mz)) drawn.
Proof.
  intros mz.
  destruct (@maze_draw_draws_each_uneaten_pellet_once clipped_libm mz []
              clipped_sin_bounded) as (drawn & Hscreen & Hcircles).
  exists drawn. split; [exact Hscreen|]. split; [|exact Hcircles].
  apply Forall2_length in Hcircles. rewrite <- Hcircles.
  vm_compute. reflexivity.
Defined.
